(** * go-sitemap-parser: a shallow embedding of package [sitemap]

    The development follows the Go source (package [sitemap]): the structure
    [S] with its configuration and its three result collections, the
    read accessors, the sampling operation [GetRandomURLs], the
    classification step [parse], the two traversal strategies and [Parse].

    Conventions.
    - A Go slice is nil or non-nil: the source tests [smIndex.Sitemap != nil]
      in one place and [len(...) > 0] in others, so both are kept apart.
    - A pointer receiver [s *S] is [option S]; [None] is the nil pointer.
    - Go's [int] argument of [GetRandomURLs] is a [Z].
    - An [error] value is represented by its message.
    - The functions of other packages (regexp, net/http, encoding/xml,
      compress/gzip) are the fields of a record [Collab]; the draws of
      math/rand are an argument of [GetRandomURLs]. *)

From Stdlib Require Import ZArith Lia.
From stdpp Require Import base numbers list strings pretty.

Set Default Proof Using "Type".
Set Warnings "-register-all".
Local Open Scope string_scope.
Local Open Scope list_scope.
Local Open Scope nat_scope.

(** ** Go slices *)

Inductive slice (A : Type) : Type :=
  | nil_slice
  | mk_slice (l : list A).
Arguments nil_slice {A}.
Arguments mk_slice {A} l.

Definition elems {A : Type} (s : slice A) : list A :=
  match s with
  | nil_slice => []
  | mk_slice l => l
  end.

Definition len {A : Type} (s : slice A) : nat := length (elems s).

Definition is_nil {A : Type} (s : slice A) : bool :=
  match s with
  | nil_slice => true
  | mk_slice _ => false
  end.

(** [append(s, x)]: the result is never nil. *)
Definition append {A : Type} (s : slice A) (x : A) : slice A :=
  mk_slice (elems s ++ [x]).

(** ** Errors and results of a call *)

(** An error value, by its [Error()] message. *)
Record error : Type := errorString { Error : string }.

(** A call returns, or panics with a run-time error. *)
Inductive outcome (A : Type) : Type :=
  | Returns (a : A)
  | Panics (msg : string).
Arguments Returns {A} a.
Arguments Panics {A} msg.

Definition outcome_map {A B : Type} (f : A -> B) (o : outcome A) : outcome B :=
  match o with
  | Returns a => Returns (f a)
  | Panics msg => Panics msg
  end.

(** ** The data model *)

(** [float32], by its bit pattern; the package only stores and copies it. *)
Definition float32 : Type := Z.

(** [lastModTime] embeds a [time.Time]; the instant, in Unix nanoseconds. *)
Record lastModTime : Type := { Time : Z }.

Definition urlChangeFreq : Type := string.

Definition changeFreqAlways : urlChangeFreq := "always".
Definition changeFreqHourly : urlChangeFreq := "hourly".
Definition changeFreqDaily : urlChangeFreq := "daily".
Definition changeFreqWeekly : urlChangeFreq := "weekly".
Definition changeFreqMonthly : urlChangeFreq := "monthly".
Definition changeFreqYearly : urlChangeFreq := "yearly".
Definition changeFreqNever : urlChangeFreq := "never".

(** [URL]: one <url> of a <urlset>. *)
Record URL : Type := {
  Loc : string;
  LastMod : option lastModTime;
  ChangeFreq : option urlChangeFreq;
  Priority : option float32
}.

Record xml_Name : Type := { Space : string; Local : string }.

(** One <sitemap> of a <sitemapindex>. *)
Record sitemapEntry : Type := {
  sitemap_Loc : string;
  sitemap_LastMod : option string
}.

Record sitemapIndex : Type := {
  sitemapIndex_XMLName : xml_Name;
  Sitemap : slice sitemapEntry
}.

Record URLSet : Type := {
  URLSet_XMLName : xml_Name;
  URLSet_URL : slice URL
}.

(** The zero values of the two documents ([var smIndex sitemapIndex]). *)
Definition zero_Name : xml_Name := {| Space := EmptyString; Local := EmptyString |}.
Definition zero_sitemapIndex : sitemapIndex :=
  {| sitemapIndex_XMLName := zero_Name; Sitemap := nil_slice |}.
Definition zero_URLSet : URLSet :=
  {| URLSet_XMLName := zero_Name; URLSet_URL := nil_slice |}.

(** ** Collaborators outside the package *)

(** What [client.Do] hands back: the status code, and the outcome of
    reading the body with [io.Copy]. *)
Record Response : Type := {
  StatusCode : Z;
  Body : string + error
}.

(** The library functions the package calls.  [xml_Decode_sitemapIndex]
    and [xml_Decode_URLSet] give the value left in the decoded variable
    (which starts as the zero value) together with the decoder's error:
    [decoder.Decode(&smIndex)]; the decoding of a <lastmod> by
    [UnmarshalXML] is part of [xml_Decode_URLSet].  [client_Do] takes the
    timeout of the client, the User-Agent header and the address.
    [makeslice_maxcap] is the largest capacity [make([]URL, 0, n)]
    accepts: the runtime panics with [makeslice: cap out of range] when
    [n] is negative, and also when [n] times the size of a [URL]
    overflows or is above the allocation limit of the platform. *)
Record Collab : Type := {
  Regexp : Type;
  regexp_Compile : string -> Regexp + error;
  MatchString : Regexp -> string -> bool;
  http_NewRequest : string -> option error;
  client_Do : Z -> string -> string -> Response + error;
  xml_Decode_sitemapIndex : string -> sitemapIndex * option error;
  xml_Decode_URLSet : string -> URLSet * option error;
  gzip_NewReader : string -> option error;
  io_ReadAll : string -> string * option error;
  is_ErrUnexpectedEOF : error -> bool;
  gzip_Write : string -> string + error;
  makeslice_maxcap : Z
}.

(** ** Package [strings] *)

Definition HasPrefix (s pre : string) : bool := String.prefix pre s.

Definition HasSuffix (s suf : string) : bool :=
  String.prefix (String.rev suf) (String.rev s).

(** [strings.Split(s, sep)] for a non-empty [sep]; [skip] counts the
    characters of a separator found that are still to be passed over, and
    [cur] is the piece being read. *)
Fixpoint Split_from (sep : string) (skip : nat) (cur : string) (s : string)
  : list string :=
  match s with
  | EmptyString => [cur]
  | String c s' =>
      match skip with
      | S skip' => Split_from sep skip' cur s'
      | O =>
          if String.prefix sep s
          then cur :: Split_from sep (String.length sep - 1) EmptyString s'
          else Split_from sep 0 (cur +:+ String c EmptyString) s'
      end
  end.

Definition Split (s sep : string) : list string := Split_from sep 0 EmptyString s.

(** ** The loop of [GetRandomURLs]

    [originalURLs := s.urls] copies the slice header only: [originalURLs]
    and [s.urls] are two windows onto one backing array.  [arr] is that
    array (the cells [s.urls] sees), [w] is [len(originalURLs)], the window
    that shrinks from the right; [s.urls] keeps its own length.  [rnd i] is
    the raw draw behind the [i]-th call of [rand.Intn], which returns
    [rnd i mod w].  [k] iterations are left, [i] is the loop counter.  The
    result is the array as the loop leaves it, with [randURLs] or the
    run-time panic of an index out of range. *)
Fixpoint randLoop {A : Type} (rnd : nat -> nat) (k i : nat) (arr : list A) (w : nat)
    (randURLs : list A) : list A * outcome (list A) :=
  match k with
  | O => (arr, Returns randURLs)
  | S k' =>
      if w =? 0 then (arr, Returns randURLs)
      else
        let index := rnd i `mod` w in
        match arr !! index with
        | None => (arr, Panics "index out of range")
        | Some x =>
            let randURLs := randURLs ++ [x] in
            match arr !! (w - 1) with
            | None => (arr, Panics "index out of range")
            | Some last =>
                let arr := <[index := last]> arr in
                randLoop rnd k' (Datatypes.S i) arr (w - 1) randURLs
            end
        end
  end.

Section Package.

Context (E : Collab).

(** [fetchTimeout] is a [uint8]: the callers pass 0 to 255, and the
    package does no arithmetic on it. *)
Record config : Type := {
  userAgent : string;
  fetchTimeout : Z;
  multiThread : bool;
  follow : slice string;
  followRegexes : slice (Regexp E);
  rules : slice string;
  rulesRegexes : slice (Regexp E)
}.

Record S : Type := {
  cfg : config;
  mainURL : string;
  mainURLContent : string;
  robotsTxtSitemapURLs : slice string;
  sitemapLocations : slice string;
  urls : slice URL;
  errs : slice error
}.

Definition zero_config : config :=
  {| userAgent := EmptyString; fetchTimeout := 0; multiThread := false;
     follow := nil_slice; followRegexes := nil_slice;
     rules := nil_slice; rulesRegexes := nil_slice |}.

(** [&S{}] *)
Definition zero_S : S :=
  {| cfg := zero_config; mainURL := EmptyString; mainURLContent := EmptyString;
     robotsTxtSitemapURLs := nil_slice; sitemapLocations := nil_slice;
     urls := nil_slice; errs := nil_slice |}.

(** The fields of [S], as the places a goroutine reads and writes. *)
Inductive field : Type -> Type :=
  | f_cfg : field config
  | f_mainURL : field string
  | f_mainURLContent : field string
  | f_robotsTxtSitemapURLs : field (slice string)
  | f_sitemapLocations : field (slice string)
  | f_urls : field (slice URL)
  | f_errs : field (slice error).

Definition field_get {T : Type} (f : field T) : S -> T :=
  match f in field T return S -> T with
  | f_cfg => cfg
  | f_mainURL => mainURL
  | f_mainURLContent => mainURLContent
  | f_robotsTxtSitemapURLs => robotsTxtSitemapURLs
  | f_sitemapLocations => sitemapLocations
  | f_urls => urls
  | f_errs => errs
  end.

Definition field_set {T : Type} (f : field T) : T -> S -> S :=
  match f in field T return T -> S -> S with
  | f_cfg => fun v s =>
      {| cfg := v; mainURL := mainURL s; mainURLContent := mainURLContent s;
         robotsTxtSitemapURLs := robotsTxtSitemapURLs s;
         sitemapLocations := sitemapLocations s; urls := urls s; errs := errs s |}
  | f_mainURL => fun v s =>
      {| cfg := cfg s; mainURL := v; mainURLContent := mainURLContent s;
         robotsTxtSitemapURLs := robotsTxtSitemapURLs s;
         sitemapLocations := sitemapLocations s; urls := urls s; errs := errs s |}
  | f_mainURLContent => fun v s =>
      {| cfg := cfg s; mainURL := mainURL s; mainURLContent := v;
         robotsTxtSitemapURLs := robotsTxtSitemapURLs s;
         sitemapLocations := sitemapLocations s; urls := urls s; errs := errs s |}
  | f_robotsTxtSitemapURLs => fun v s =>
      {| cfg := cfg s; mainURL := mainURL s; mainURLContent := mainURLContent s;
         robotsTxtSitemapURLs := v;
         sitemapLocations := sitemapLocations s; urls := urls s; errs := errs s |}
  | f_sitemapLocations => fun v s =>
      {| cfg := cfg s; mainURL := mainURL s; mainURLContent := mainURLContent s;
         robotsTxtSitemapURLs := robotsTxtSitemapURLs s;
         sitemapLocations := v; urls := urls s; errs := errs s |}
  | f_urls => fun v s =>
      {| cfg := cfg s; mainURL := mainURL s; mainURLContent := mainURLContent s;
         robotsTxtSitemapURLs := robotsTxtSitemapURLs s;
         sitemapLocations := sitemapLocations s; urls := v; errs := errs s |}
  | f_errs => fun v s =>
      {| cfg := cfg s; mainURL := mainURL s; mainURLContent := mainURLContent s;
         robotsTxtSitemapURLs := robotsTxtSitemapURLs s;
         sitemapLocations := sitemapLocations s; urls := urls s; errs := v |}
  end.

(** ** Configuration: run by the caller before [Parse], on one goroutine *)

Definition setConfigDefaults (s : S) : S :=
  field_set f_cfg
    {| userAgent := "go-sitemap-parser (+https://github.com/aafeher/go-sitemap-parser/blob/main/README.md)";
       fetchTimeout := 3;
       multiThread := true;
       follow := mk_slice [];
       followRegexes := nil_slice;
       rules := mk_slice [];
       rulesRegexes := nil_slice |} s.

Definition New : S := setConfigDefaults zero_S.

Definition SetUserAgent (ua : string) (s : S) : S :=
  let c := cfg s in
  field_set f_cfg {| userAgent := ua; fetchTimeout := fetchTimeout c;
               multiThread := multiThread c; follow := follow c;
               followRegexes := followRegexes c; rules := rules c;
               rulesRegexes := rulesRegexes c |} s.

Definition SetFetchTimeout (t : Z) (s : S) : S :=
  let c := cfg s in
  field_set f_cfg {| userAgent := userAgent c; fetchTimeout := t;
               multiThread := multiThread c; follow := follow c;
               followRegexes := followRegexes c; rules := rules c;
               rulesRegexes := rulesRegexes c |} s.

Definition SetMultiThread (b : bool) (s : S) : S :=
  let c := cfg s in
  field_set f_cfg {| userAgent := userAgent c; fetchTimeout := fetchTimeout c;
               multiThread := b; follow := follow c;
               followRegexes := followRegexes c; rules := rules c;
               rulesRegexes := rulesRegexes c |} s.

Definition set_follow (v : slice string) (s : S) : S :=
  let c := cfg s in
  field_set f_cfg {| userAgent := userAgent c; fetchTimeout := fetchTimeout c;
               multiThread := multiThread c; follow := v;
               followRegexes := followRegexes c; rules := rules c;
               rulesRegexes := rulesRegexes c |} s.

Definition set_followRegexes (v : slice (Regexp E)) (s : S) : S :=
  let c := cfg s in
  field_set f_cfg {| userAgent := userAgent c; fetchTimeout := fetchTimeout c;
               multiThread := multiThread c; follow := follow c;
               followRegexes := v; rules := rules c;
               rulesRegexes := rulesRegexes c |} s.

Definition set_rules (v : slice string) (s : S) : S :=
  let c := cfg s in
  field_set f_cfg {| userAgent := userAgent c; fetchTimeout := fetchTimeout c;
               multiThread := multiThread c; follow := follow c;
               followRegexes := followRegexes c; rules := v;
               rulesRegexes := rulesRegexes c |} s.

Definition set_rulesRegexes (v : slice (Regexp E)) (s : S) : S :=
  let c := cfg s in
  field_set f_cfg {| userAgent := userAgent c; fetchTimeout := fetchTimeout c;
               multiThread := multiThread c; follow := follow c;
               followRegexes := followRegexes c; rules := rules c;
               rulesRegexes := v |} s.

(** The body of the loop of [SetFollow], for one pattern. *)
Definition SetFollow_step (s : S) (followPattern : string) : S :=
  match regexp_Compile E followPattern with
  | inr err => field_set f_errs (append (errs s) err) s
  | inl re => set_followRegexes (append (followRegexes (cfg s)) re) s
  end.

Definition SetFollow (regexes : slice string) (s : S) : S :=
  let s := set_follow regexes s in
  foldl SetFollow_step s (elems (follow (cfg s))).

Definition SetRules_step (s : S) (rulePattern : string) : S :=
  match regexp_Compile E rulePattern with
  | inr err => field_set f_errs (append (errs s) err) s
  | inl re => set_rulesRegexes (append (rulesRegexes (cfg s)) re) s
  end.

Definition SetRules (regexes : slice string) (s : S) : S :=
  let s := set_rules regexes s in
  foldl SetRules_step s (elems (rules (cfg s))).

(** ** Read accessors; the receiver may be nil *)

Definition GetErrorsCount (s : option S) : Z :=
  match s with
  | None => 0
  | Some s => Z.of_nat (len (errs s))
  end.

Definition GetErrors (s : option S) : slice error :=
  match s with
  | None => nil_slice
  | Some s => errs s
  end.

(** [GetURLs] reads [s.urls] before any nil check. *)
Definition GetURLs (s : option S) : outcome (slice URL) :=
  match s with
  | None => Panics "invalid memory address or nil pointer dereference"
  | Some s => if len (urls s) <=? 0 then Returns (mk_slice []) else Returns (urls s)
  end.

Definition GetURLCount (s : option S) : Z :=
  match s with
  | None => 0
  | Some s => if len (urls s) <=? 0 then 0%Z else Z.of_nat (len (urls s))
  end.

(** ** Programs over the shared structure

    [Parse] and what it calls run on goroutines that share [*S].  A
    program is the sequence of its accesses to the fields of [S] and of
    its calls to the outside: every read of a field is a [Load], every
    assignment a [Store], so that [s.errs = append(s.errs, err)] is a
    [Load] followed by a [Store].  [GoWait gs k] starts one goroutine per
    element of [gs] ([wg.Add(1); go func() {...}()] in a loop), waits for
    all of them ([wg.Wait()]) and goes on with [k].  [Lock] and [Unlock]
    are the calls on the mutex [mu] of [Parse].  [Abort] is a run-time
    panic, or the recursion bound of the model being reached. *)
Inductive prog (A : Type) : Type :=
  | Ret (a : A)
  | Load {T : Type} (f : field T) (k : T -> prog A)
  | Store {T : Type} (f : field T) (v : T) (k : prog A)
  | Do (timeout : Z) (ua url : string) (k : Response + error -> prog A)
  | Lock (k : prog A)
  | Unlock (k : prog A)
  | GoWait (gs : list (prog unit)) (k : prog A)
  | Abort (why : string).
Arguments Ret {A} a.
Arguments Load {A T} f k.
Arguments Store {A T} f v k.
Arguments Do {A} timeout ua url k.
Arguments Lock {A} k.
Arguments Unlock {A} k.
Arguments GoWait {A} gs k.
Arguments Abort {A} why.

Section prog_induction.

Variable P : forall A : Type, prog A -> Prop.
Hypothesis HRet : forall (A : Type) (a : A), P A (Ret a).
Hypothesis HLoad : forall (A T : Type) (f : field T) (k : T -> prog A),
  (forall x, P A (k x)) -> P A (Load f k).
Hypothesis HStore : forall (A T : Type) (f : field T) (v : T) (k : prog A),
  P A k -> P A (Store f v k).
Hypothesis HDo : forall (A : Type) t ua url (k : Response + error -> prog A),
  (forall r, P A (k r)) -> P A (Do t ua url k).
Hypothesis HLock : forall (A : Type) (k : prog A), P A k -> P A (Lock k).
Hypothesis HUnlock : forall (A : Type) (k : prog A), P A k -> P A (Unlock k).
Hypothesis HGoWait : forall (A : Type) (gs : list (prog unit)) (k : prog A),
  Forall (P unit) gs -> P A k -> P A (GoWait gs k).
Hypothesis HAbort : forall (A : Type) why, P A (Abort why).

(** Induction on a program, with the hypothesis for the goroutines it
    starts as well. *)
Fixpoint prog_ind_goroutines (A : Type) (p : prog A) {struct p} : P A p :=
  match p with
  | Ret a => HRet A a
  | Load f k => HLoad A _ f k (fun x => prog_ind_goroutines A (k x))
  | Store f v k => HStore A _ f v k (prog_ind_goroutines A k)
  | Do t ua url k => HDo A t ua url k (fun r => prog_ind_goroutines A (k r))
  | Lock k => HLock A k (prog_ind_goroutines A k)
  | Unlock k => HUnlock A k (prog_ind_goroutines A k)
  | GoWait gs k =>
      HGoWait A gs k
        ((fix all (gs : list (prog unit)) : Forall (P unit) gs :=
            match gs with
            | [] => @List.Forall_nil _ (P unit)
            | g :: gs' =>
                @List.Forall_cons _ (P unit) g gs' (prog_ind_goroutines unit g) (all gs')
            end) gs)
        (prog_ind_goroutines A k)
  | Abort why => HAbort A why
  end.

End prog_induction.

Fixpoint bind {A B : Type} (p : prog A) (k : A -> prog B) : prog B :=
  match p with
  | Ret a => k a
  | Load f k0 => Load f (fun x => bind (k0 x) k)
  | Store f v k0 => Store f v (bind k0 k)
  | Do t ua url k0 => Do t ua url (fun r => bind (k0 r) k)
  | Lock k0 => Lock (bind k0 k)
  | Unlock k0 => Unlock (bind k0 k)
  | GoWait gs k0 => GoWait gs (bind k0 k)
  | Abort why => Abort why
  end.

#[global] Instance prog_ret : MRet prog := @Ret.
#[global] Instance prog_bind : MBind prog := fun A B k p => bind p k.

Definition load {T : Type} (f : field T) : prog T := Load f Ret.
Definition store {T : Type} (f : field T) (v : T) : prog unit := Store f v (Ret tt).
Definition do (timeout : Z) (ua url : string) : prog (Response + error) :=
  Do timeout ua url Ret.
Definition lock : prog unit := Lock (Ret tt).
Definition unlock : prog unit := Unlock (Ret tt).
Definition go_wait (gs : list (prog unit)) : prog unit := GoWait gs (Ret tt).

(** [s.f = append(s.f, x)] *)
Definition append_to {T : Type} (f : field (slice T)) (x : T) : prog unit :=
  old ← load f; store f (append old x).

(** [for _, x := range l { body }], with the local variables the body
    assigns to threaded through. *)
Fixpoint for_range {A L : Type} (l : list A) (body : A -> L -> prog L) (locals : L)
  : prog L :=
  match l with
  | [] => mret locals
  | x :: l' => locals ← body x locals; for_range l' body locals
  end.

(** ** Fetching and decoding *)

Definition fetch (url : string) : prog (string + error) :=
  c ← load f_cfg;
  let timeout := fetchTimeout c in
  match http_NewRequest E url with
  | Some err => mret (inr err)
  | None =>
      c ← load f_cfg;
      response ← do timeout (userAgent c) url;
      match response with
      | inr err => mret (inr err)
      | inl response =>
          if negb (StatusCode response =? 200)%Z
          then mret (inr (errorString
                 ("received HTTP status " +:+ pretty (StatusCode response))))
          else
            match Body response with
            | inr err => mret (inr err)
            | inl body => mret (inl body)
            end
      end
  end.

Definition unzip (content : string) : string * option error :=
  match gzip_NewReader E content with
  | Some err => (content, Some err)
  | None =>
      let '(uncompressed, err) := io_ReadAll E content in
      match err with
      | Some e =>
          if negb (is_ErrUnexpectedEOF E e) then (content, Some e)
          else (uncompressed, None)
      | None => (uncompressed, None)
      end
  end.

Definition zip (content : string) : string * option error :=
  match gzip_Write E content with
  | inr err => (content, Some err)
  | inl compressed => (compressed, None)
  end.

(** The three bytes 1f 8b 08. *)
Definition gzipPrefix : string :=
  String (Ascii.ascii_of_nat 31)
    (String (Ascii.ascii_of_nat 139) (String (Ascii.ascii_of_nat 8) EmptyString)).

Definition checkAndUnzipContent (content : string) : prog string :=
  if HasPrefix content gzipPrefix then
    let '(uncompressed, err) := unzip content in
    match err with
    | Some e => append_to f_errs e;; mret content
    | None => mret uncompressed
    end
  else mret content.

Definition parseSitemapIndex (data : string) : sitemapIndex * option error :=
  if String.length data =? 0
  then (zero_sitemapIndex, Some (errorString "sitemapindex is empty"))
  else xml_Decode_sitemapIndex E data.

Definition parseURLSet (data : string) : URLSet * option error :=
  if String.length data =? 0
  then (zero_URLSet, Some (errorString "sitemap is empty"))
  else xml_Decode_URLSet E data.

(** The inner loop of both branches of [parse]: does one of the compiled
    patterns match, every location passing when there is no pattern. *)
Definition matches_any (regexes : slice (Regexp E)) (loc : string) : bool :=
  if 0 <? len regexes
  then existsb (fun re => MatchString E re loc) (elems regexes)
  else true.

Definition parse (url content : string) : prog (slice string) :=
  let '(smIndex, errSitemapIndex) := parseSitemapIndex content in
  let '(urlSet, errURLSet) := parseURLSet content in
  let sitemapLocationsAdded : slice string := nil_slice in
  sitemapLocationsAdded ←
    (if negb (is_nil (Sitemap smIndex)) then
       append_to f_sitemapLocations url;;
       for_range (elems (Sitemap smIndex))
         (fun sitemapIndexSitemap sitemapLocationsAdded =>
            c ← load f_cfg;
            let matches := matches_any (followRegexes c) (sitemap_Loc sitemapIndexSitemap) in
            if negb matches then mret sitemapLocationsAdded
            else
              let sitemapLocationsAdded :=
                append sitemapLocationsAdded (sitemap_Loc sitemapIndexSitemap) in
              append_to f_sitemapLocations (sitemap_Loc sitemapIndexSitemap);;
              mret sitemapLocationsAdded)
         sitemapLocationsAdded
     else if 0 <? len (URLSet_URL urlSet) then
       for_range (elems (URLSet_URL urlSet))
         (fun urlSetURL (_ : unit) =>
            c ← load f_cfg;
            let matches := matches_any (rulesRegexes c) (Loc urlSetURL) in
            if negb matches then mret tt
            else append_to f_urls urlSetURL)
         tt;;
       mret sitemapLocationsAdded
     else mret sitemapLocationsAdded);
  match errSitemapIndex with
  | Some e => if len (URLSet_URL urlSet) =? 0 then append_to f_errs e else mret tt
  | None => mret tt
  end;;
  match errURLSet with
  | Some e => if is_nil (Sitemap smIndex) then append_to f_errs e else mret tt
  | None => mret tt
  end;;
  mret sitemapLocationsAdded.

(** ** The two traversal strategies

    Neither function is structurally recursive (an index may list itself):
    [depth] bounds the nesting of the recursive calls. *)

Fixpoint parseAndFetchUrlsSequential (depth : nat) (locations : slice string)
  : prog unit :=
  match depth with
  | O => Abort "recursion bound reached"
  | Datatypes.S depth' =>
      for_range (elems locations)
        (fun location (_ : unit) =>
           r ← fetch location;
           match r with
           | inr err => append_to f_errs err
           | inl content =>
               content ← checkAndUnzipContent content;
               parsedLocations ← parse location content;
               if 0 <? len parsedLocations
               then parseAndFetchUrlsSequential depth' parsedLocations
               else mret tt
           end)
        tt
  end.

Fixpoint parseAndFetchUrlsMultiThread (depth : nat) (locations : slice string)
  : prog unit :=
  match depth with
  | O => Abort "recursion bound reached"
  | Datatypes.S depth' =>
      go_wait
        (map (fun loc =>
                r ← fetch loc;
                match r with
                | inr err => append_to f_errs err
                | inl content =>
                    content ← checkAndUnzipContent content;
                    parsedLocations ← parse loc content;
                    if 0 <? len parsedLocations
                    then parseAndFetchUrlsMultiThread depth' parsedLocations
                    else mret tt
                end)
             (elems locations))
  end.

(** ** [Parse] *)

Definition setContent (urlContent : option string) : prog (string * option error) :=
  match urlContent with
  | Some content => mret (content, None)
  | None =>
      url ← load f_mainURL;
      r ← fetch url;
      match r with
      | inr err => mret (EmptyString, Some err)
      | inl mainURLContent => mret (mainURLContent, None)
      end
  end.

Definition newline : string := String (Ascii.ascii_of_nat 10) EmptyString.

Definition parseRobotsTXT (robotsTXTContent : string) : prog unit :=
  let lines := Split robotsTXTContent newline in
  for_range lines
    (fun line (_ : unit) =>
       if negb (HasPrefix line "Sitemap: ") then mret tt
       else
         match Split line "Sitemap: " !! 1 with
         | None => Abort "index out of range"
         | Some url => append_to f_robotsTxtSitemapURLs url
         end)
    tt.

Definition guardError : error :=
  errorString "errors occurred before parsing, see GetErrors() for details".

(** [Parse(url, urlContent)] returns the receiver and an error; the
    receiver is the shared structure itself, the value of the program is
    the error. *)
Definition Parse (depth : nat) (url : string) (urlContent : option string)
  : prog (option error) :=
  es ← load f_errs;
  if 0 <? len es then mret (Some guardError)
  else
    store f_mainURL url;;
    '(content, err) ← setContent urlContent;
    store f_mainURLContent content;;
    match err with
    | Some err => append_to f_errs err;; mret (Some err)
    | None =>
        mainURL ← load f_mainURL;
        (if HasSuffix mainURL "/robots.txt" then
           content ← load f_mainURLContent;
           parseRobotsTXT content;;
           robots ← load f_robotsTxtSitemapURLs;
           go_wait
             (map (fun rTXTsmURL =>
                     lock;;
                     r ← fetch rTXTsmURL;
                     match r with
                     | inr err => append_to f_errs err;; unlock
                     | inl robotsTXTSitemapContent =>
                         robotsTXTSitemapContent ←
                           checkAndUnzipContent robotsTXTSitemapContent;
                         c ← load f_cfg;
                         (if multiThread c then
                            locations ← parse rTXTsmURL robotsTXTSitemapContent;
                            parseAndFetchUrlsMultiThread depth locations
                          else
                            locations ← parse rTXTsmURL robotsTXTSitemapContent;
                            parseAndFetchUrlsSequential depth locations);;
                         unlock
                     end)
                  (elems robots))
         else
           content ← load f_mainURLContent;
           mainURLContent ← checkAndUnzipContent content;
           store f_mainURLContent mainURLContent;;
           c ← load f_cfg;
           if multiThread c then
             url ← load f_mainURL;
             content ← load f_mainURLContent;
             locations ← parse url content;
             parseAndFetchUrlsMultiThread depth locations
           else
             url ← load f_mainURL;
             content ← load f_mainURLContent;
             locations ← parse url content;
             parseAndFetchUrlsSequential depth locations);;
        mret None
    end.

(** ** Running programs

    The state of a run: the structure the receiver points to, the
    requests sent so far (a record of the calls of [client.Do], kept to
    state what a run did and did not fetch), and whether [mu] is held. *)
Record state : Type := {
  self : S;
  requests : list string;
  mu : bool
}.

Definition with_self (s : S) (st : state) : state :=
  {| self := s; requests := requests st; mu := mu st |}.
Definition with_request (url : string) (st : state) : state :=
  {| self := self st; requests := requests st ++ [url]; mu := mu st |}.
Definition with_mu (b : bool) (st : state) : state :=
  {| self := self st; requests := requests st; mu := b |}.

Definition start (s : S) : state :=
  {| self := s; requests := []; mu := false |}.

(** [exec p st]: [p] run from [st] on its own, each goroutine of a
    [GoWait] running to its end before the next one starts, in the order
    of the loop that started them.  For a program that starts no goroutine
    this is the only run there is.  [None]: the program does not return
    (a panic, the recursion bound, a mutex that is never released). *)
Fixpoint exec {A : Type} (p : prog A) (st : state) : option (A * state) :=
  match p with
  | Ret a => Some (a, st)
  | Load f k => exec (k (field_get f (self st))) st
  | Store f v k => exec k (with_self (field_set f v (self st)) st)
  | Do t ua url k => exec (k (client_Do E t ua url)) (with_request url st)
  | Lock k => if mu st then None else exec k (with_mu true st)
  | Unlock k => if mu st then exec k (with_mu false st) else None
  | GoWait gs k =>
      match
        (fix run_all (gs : list (prog unit)) (st : state) : option state :=
           match gs with
           | [] => Some st
           | g :: gs' =>
               match exec g st with
               | Some (_, st') => run_all gs' st'
               | None => None
               end
           end) gs st
      with
      | Some st' => exec k st'
      | None => None
      end
  | Abort _ => None
  end.

(** *** Interleaved runs

    A goroutine is running a program, or waiting in [wg.Wait()] for the
    goroutines it started. *)
Inductive thread (A : Type) : Type :=
  | Running (p : prog A)
  | Joining (children : list (thread unit)) (k : prog A).
Arguments Running {A} p.
Arguments Joining {A} children k.

Definition finished (t : thread unit) : bool :=
  match t with
  | Running (Ret _) => true
  | _ => false
  end.

(** One access of one goroutine.  [path] picks the goroutine: [[]] is
    this one, [i :: path'] is found through the [i]-th goroutine this one
    started.  [None]: the goroutine picked does not exist or cannot move
    (it has returned, it waits for [mu], or for goroutines still
    running). *)
Fixpoint step {A : Type} (path : list nat) (t : thread A) (st : state)
  : option (thread A * state) :=
  match t with
  | Running p =>
      match path with
      | [] =>
          match p with
          | Ret _ => None
          | Load f k => Some (Running (k (field_get f (self st))), st)
          | Store f v k => Some (Running k, with_self (field_set f v (self st)) st)
          | Do t ua url k =>
              Some (Running (k (client_Do E t ua url)), with_request url st)
          | Lock k => if mu st then None else Some (Running k, with_mu true st)
          | Unlock k => if mu st then Some (Running k, with_mu false st) else None
          | GoWait gs k => Some (Joining (map Running gs) k, st)
          | Abort _ => None
          end
      | _ :: _ => None
      end
  | Joining children k =>
      match path with
      | [] => if forallb finished children then Some (Running k, st) else None
      | i :: path' =>
          match
            (fix step_child (i : nat) (cs : list (thread unit))
               : option (list (thread unit) * state) :=
               match cs with
               | [] => None
               | c :: cs' =>
                   match i with
                   | O =>
                       match step path' c st with
                       | Some (c', st') => Some (c' :: cs', st')
                       | None => None
                       end
                   | Datatypes.S i' =>
                       match step_child i' cs' with
                       | Some (cs'', st') => Some (c :: cs'', st')
                       | None => None
                       end
                   end
               end) i children
          with
          | Some (children', st') => Some (Joining children' k, st')
          | None => None
          end
      end
  end.

(** A schedule is the list of the goroutines that move, in order. *)
Fixpoint run {A : Type} (schedule : list (list nat)) (t : thread A) (st : state)
  : option (thread A * state) :=
  match schedule with
  | [] => Some (t, st)
  | path :: schedule' =>
      match step path t st with
      | Some (t', st') => run schedule' t' st'
      | None => None
      end
  end.

(** [p] run from [st] under [schedule] returns [a] in state [st']. *)
Definition returns_under {A : Type} (schedule : list (list nat)) (p : prog A)
    (st : state) (a : A) (st' : state) : Prop :=
  run schedule (Running p) st = Some (Running (Ret a), st').

(** [sequential p st]: run from [st], [p] returns or stops without having
    started a goroutine or touched the mutex; the main goroutine is then
    the only one there is. *)
Fixpoint sequential {A : Type} (p : prog A) (st : state) : bool :=
  match p with
  | Ret _ => true
  | Load f k => sequential (k (field_get f (self st))) st
  | Store f v k => sequential k (with_self (field_set f v (self st)) st)
  | Do t ua url k => sequential (k (client_Do E t ua url)) (with_request url st)
  | Lock _ => false
  | Unlock _ => false
  | GoWait _ _ => false
  | Abort _ => true
  end.

(** ** The branch [parse] takes

    The condition of the [if] and of the [else if] of [parse], with the
    two comments of the source as names. *)
Inductive branch : Type :=
  | SitemapIndexBranch
  | URLSetBranch
  | NoBranch.

Definition parse_branch (content : string) : branch :=
  let '(smIndex, _) := parseSitemapIndex content in
  let '(urlSet, _) := parseURLSet content in
  if negb (is_nil (Sitemap smIndex)) then SitemapIndexBranch
  else if 0 <? len (URLSet_URL urlSet) then URLSetBranch
  else NoBranch.

(** The children of an index document that pass the follow patterns, and
    the entries of a leaf document that pass the rules patterns. *)
Definition children_passing (c : config) (content : string) : list string :=
  filter (fun loc => matches_any (followRegexes c) loc = true)
    (map sitemap_Loc (elems (Sitemap (parseSitemapIndex content).1))).

Definition entries_passing (c : config) (content : string) : list URL :=
  filter (fun u => matches_any (rulesRegexes c) (Loc u) = true)
    (elems (URLSet_URL (parseURLSet content).1)).

(** ** The effect of one [parse], as a function

    [extend s l] is [s] after the elements of [l] have been appended one
    by one.  What a call of [parse] appends to each of the three
    collections, and what it returns, are read off its branches. *)
Definition extend {A : Type} (s : slice A) (l : list A) : slice A := foldl append s l.

Definition parse_locations (c : config) (url content : string) : list string :=
  match parse_branch content with
  | SitemapIndexBranch => url :: children_passing c content
  | _ => []
  end.

Definition parse_urls (c : config) (content : string) : list URL :=
  match parse_branch content with
  | URLSetBranch => entries_passing c content
  | _ => []
  end.

Definition parse_errors (content : string) : list error :=
  let '(smIndex, errSitemapIndex) := parseSitemapIndex content in
  let '(urlSet, errURLSet) := parseURLSet content in
  match errSitemapIndex with
  | Some e => if len (URLSet_URL urlSet) =? 0 then [e] else []
  | None => []
  end ++
  match errURLSet with
  | Some e => if is_nil (Sitemap smIndex) then [e] else []
  | None => []
  end.

Definition parse_result (c : config) (content : string) : slice string :=
  match parse_branch content with
  | SitemapIndexBranch => extend nil_slice (children_passing c content)
  | _ => nil_slice
  end.

Definition after_parse (url content : string) (s : S) : S :=
  let c := cfg s in
  let s := field_set f_sitemapLocations
             (extend (sitemapLocations s) (parse_locations c url content)) s in
  let s := field_set f_urls (extend (urls s) (parse_urls c content)) s in
  field_set f_errs (extend (errs s) (parse_errors content)) s.

(** ** A sequence of calls on one instance *)

Inductive call : Type :=
  | CallSetUserAgent (ua : string)
  | CallSetFetchTimeout (t : Z)
  | CallSetMultiThread (b : bool)
  | CallSetFollow (regexes : slice string)
  | CallSetRules (regexes : slice string)
  | CallParse (depth : nat) (url : string) (urlContent : option string).

(** What a call leaves behind, and the error [Parse] returned. *)
Definition perform (c : call) (st : state) : option (option (option error) * state) :=
  match c with
  | CallSetUserAgent ua => Some (None, with_self (SetUserAgent ua (self st)) st)
  | CallSetFetchTimeout t => Some (None, with_self (SetFetchTimeout t (self st)) st)
  | CallSetMultiThread b => Some (None, with_self (SetMultiThread b (self st)) st)
  | CallSetFollow regexes => Some (None, with_self (SetFollow regexes (self st)) st)
  | CallSetRules regexes => Some (None, with_self (SetRules regexes (self st)) st)
  | CallParse depth url urlContent =>
      match exec (Parse depth url urlContent) st with
      | Some (err, st') => Some (Some err, st')
      | None => None
      end
  end.

Fixpoint perform_all (cs : list call) (st : state)
  : option (list (option (option error)) * state) :=
  match cs with
  | [] => Some ([], st)
  | c :: cs' =>
      match perform c st with
      | Some (r, st') =>
          match perform_all cs' st' with
          | Some (rs, st'') => Some (r :: rs, st'')
          | None => None
          end
      | None => None
      end
  end.

(** The ways [fetch] fails: the request cannot be built, the transport
    fails, the status is not 200, or the body cannot be read. *)
Inductive fetch_fails (c : config) (url : string) : error -> Prop :=
  | fails_request err :
      http_NewRequest E url = Some err -> fetch_fails c url err
  | fails_transport err :
      http_NewRequest E url = None ->
      client_Do E (fetchTimeout c) (userAgent c) url = inr err ->
      fetch_fails c url err
  | fails_status response :
      http_NewRequest E url = None ->
      client_Do E (fetchTimeout c) (userAgent c) url = inl response ->
      StatusCode response <> 200%Z ->
      fetch_fails c url
        (errorString ("received HTTP status " +:+ pretty (StatusCode response)))
  | fails_body response err :
      http_NewRequest E url = None ->
      client_Do E (fetchTimeout c) (userAgent c) url = inl response ->
      StatusCode response = 200%Z ->
      Body response = inr err ->
      fetch_fails c url err.

(** [GetRandomURLs(n)] on receiver [s]: the value returned (or the panic
    of [make] on a capacity that is negative or above what it accepts)
    and the structure the receiver points to afterwards.  The writes of
    the loop land in the array of [s.urls]. *)
Definition GetRandomURLs (s : option S) (n : Z) (rnd : nat -> nat)
  : outcome (slice URL) * option S :=
  match s with
  | None => (Returns (mk_slice []), None)
  | Some s =>
      let originalURLs := urls s in
      if ((n <? 0) || (makeslice_maxcap E <? n))%Z
      then (Panics "makeslice: cap out of range", Some s)
      else
        let '(arr, r) :=
          randLoop rnd (Z.to_nat n) 0 (elems originalURLs) (len originalURLs) [] in
        let s' :=
          match urls s with
          | nil_slice => s
          | mk_slice _ => field_set f_urls (mk_slice arr) s
          end in
        match r with
        | Returns randURLs => (Returns (mk_slice randURLs), Some s')
        | Panics msg => (Panics msg, Some s')
        end
  end.

End Package.

Arguments Ret {E A} a.
Arguments Load {E A T} f k.
Arguments Store {E A T} f v k.
Arguments Do {E A} timeout ua url k.
Arguments Lock {E A} k.
Arguments Unlock {E A} k.
Arguments GoWait {E A} gs k.
Arguments Abort {E A} why.
Arguments Running {E A} p.
Arguments Joining {E A} children k.
Arguments exec {E A} p st.
Arguments finished {E} t.
Arguments step {E A} path t st.
Arguments run {E A} schedule t st.
Arguments returns_under {E A} schedule p st a st'.
Arguments sequential {E A} p st.
Arguments self {E} s.
Arguments requests {E} s.
Arguments mu {E} s.
Arguments start {E} s.
Arguments with_self {E} s st.
Arguments with_request {E} url st.
Arguments with_mu {E} b st.
Arguments cfg {E} s.
Arguments mainURL {E} s.
Arguments mainURLContent {E} s.
Arguments robotsTxtSitemapURLs {E} s.
Arguments sitemapLocations {E} s.
Arguments urls {E} s.
Arguments errs {E} s.
Arguments userAgent {E} c.
Arguments fetchTimeout {E} c.
Arguments multiThread {E} c.
Arguments follow {E} c.
Arguments followRegexes {E} c.
Arguments rules {E} c.
Arguments rulesRegexes {E} c.
Arguments field_get {E T} f s.
Arguments field_set {E T} f v s.
Arguments f_cfg {E}.
Arguments f_mainURL {E}.
Arguments f_mainURLContent {E}.
Arguments f_robotsTxtSitemapURLs {E}.
Arguments f_sitemapLocations {E}.
Arguments f_urls {E}.
Arguments f_errs {E}.
Arguments GetErrorsCount {E} s.
Arguments GetErrors {E} s.
Arguments GetURLs {E} s.
Arguments GetURLCount {E} s.
Arguments GetRandomURLs {E} s n rnd.
Arguments SetUserAgent {E} ua s.
Arguments SetFetchTimeout {E} t s.
Arguments SetMultiThread {E} b s.
Arguments SetFollow {E} regexes s.
Arguments SetRules {E} regexes s.
Arguments perform {E} c st.
Arguments perform_all {E} cs st.

(** ** A small site, for the examples

    Three well-formed documents, an index cut off inside its first child,
    and an empty document, served from one host; every other address
    answers 404. *)
Module Site.

Definition index_url : string := "http://h/index.xml".
Definition a_url : string := "http://h/a.xml".
Definition b_url : string := "http://h/b.xml".
Definition cut_url : string := "http://h/cut.xml".
Definition empty_url : string := "http://h/empty.xml".
Definition missing_url : string := "http://h/missing.xml".

Definition index_doc : string :=
  "<sitemapindex><sitemap><loc>http://h/a.xml</loc></sitemap><sitemap><loc>http://h/b.xml</loc></sitemap></sitemapindex>".
Definition a_doc : string :=
  "<urlset><url><loc>http://h/page-a</loc></url></urlset>".
Definition b_doc : string :=
  "<urlset><url><loc>http://h/page-b</loc></url></urlset>".
Definition cut_doc : string :=
  "<sitemapindex><sitemap><loc>http://h/a.xml</loc>".

Definition page (loc : string) : URL :=
  {| Loc := loc; LastMod := None; ChangeFreq := None; Priority := None |}.
Definition page_a : URL := page "http://h/page-a".
Definition page_b : URL := page "http://h/page-b".
Definition page_c : URL := page "http://h/page-c".

Definition child (loc : string) : sitemapEntry :=
  {| sitemap_Loc := loc; sitemap_LastMod := None |}.

Definition index_Name : xml_Name := {| Space := EmptyString; Local := "sitemapindex" |}.
Definition urlset_Name : xml_Name := {| Space := EmptyString; Local := "urlset" |}.

Definition not_an_index (have : string) : error :=
  errorString ("expected element type <sitemapindex> but have <" +:+ have +:+ ">").
Definition not_a_urlset (have : string) : error :=
  errorString ("expected element type <urlset> but have <" +:+ have +:+ ">").
Definition unexpected_EOF : error :=
  errorString "XML syntax error on line 1: unexpected EOF".

(** [encoding/xml] on the four documents.  The decoder appends a zero
    element to [Sitemap] before it decodes a <sitemap> child into it, and
    on an error in that child sets the length of the slice back.  On
    [cut_doc] the input ends inside the first child: the error is the
    syntax error of an unexpected EOF, and [Sitemap] is left non-nil, of
    length 0. *)
Definition Decode_sitemapIndex (data : string) : sitemapIndex * option error :=
  if String.eqb data index_doc then
    ({| sitemapIndex_XMLName := index_Name;
        Sitemap := mk_slice [child a_url; child b_url] |}, None)
  else if String.eqb data cut_doc then
    ({| sitemapIndex_XMLName := index_Name; Sitemap := mk_slice [] |},
     Some unexpected_EOF)
  else if String.eqb data a_doc || String.eqb data b_doc then
    (zero_sitemapIndex, Some (not_an_index "urlset"))
  else (zero_sitemapIndex, Some (errorString "EOF")).

Definition Decode_URLSet (data : string) : URLSet * option error :=
  if String.eqb data a_doc then
    ({| URLSet_XMLName := urlset_Name; URLSet_URL := mk_slice [page_a] |}, None)
  else if String.eqb data b_doc then
    ({| URLSet_XMLName := urlset_Name; URLSet_URL := mk_slice [page_b] |}, None)
  else if String.eqb data index_doc || String.eqb data cut_doc then
    (zero_URLSet, Some (not_a_urlset "sitemapindex"))
  else (zero_URLSet, Some (errorString "EOF")).

Definition ok (body : string) : Response + error :=
  inl {| StatusCode := 200; Body := inl body |}.

Definition serve (timeout : Z) (ua url : string) : Response + error :=
  if String.eqb url index_url then ok index_doc
  else if String.eqb url a_url then ok a_doc
  else if String.eqb url b_url then ok b_doc
  else if String.eqb url cut_url then ok cut_doc
  else if String.eqb url empty_url then ok EmptyString
  else inl {| StatusCode := 404; Body := inl EmptyString |}.

Fixpoint contains (s sub : string) : bool :=
  String.prefix sub s ||
  match s with
  | EmptyString => false
  | String _ s' => contains s' sub
  end.

(** The allocation limit of a 64-bit Linux, 2^48 bytes, over the size
    of a [URL], 40 bytes (a string header and three pointers). *)
Definition maxcap : Z := 2 ^ 48 / 40.

(** [math.MaxInt64]. *)
Definition MaxInt64 : Z := 2 ^ 63 - 1.

(** Patterns without operators, matched as substrings; ["("] does not
    compile. *)
Definition Compile (pattern : string) : string + error :=
  if String.eqb pattern "("
  then inr (errorString "error parsing regexp: missing closing ): `(`")
  else inl pattern.

Definition site : Collab :=
  {| Regexp := string;
     regexp_Compile := Compile;
     MatchString := fun re s => contains s re;
     http_NewRequest := fun _ => None;
     client_Do := serve;
     xml_Decode_sitemapIndex := Decode_sitemapIndex;
     xml_Decode_URLSet := Decode_URLSet;
     gzip_NewReader := fun _ => Some (errorString "gzip: invalid header");
     io_ReadAll := fun data => (data, None);
     is_ErrUnexpectedEOF := fun _ => false;
     gzip_Write := fun data => inl data;
     makeslice_maxcap := maxcap |}.

(** A new instance, with the default configuration (concurrent) and set
    to the sequential strategy. *)
Definition fresh : state site := start (New site).
Definition fresh_sequential : state site := start (SetMultiThread false (New site)).

(** A structure holding three URLs. *)
Definition three : S site :=
  field_set f_urls (mk_slice [page_a; page_b; page_c]) (New site).

(** The schedule on which the goroutines of [a.xml] and [b.xml] both
    read [s.urls] before either writes it back.  The main goroutine runs
    up to its [wg.Wait()] (22 accesses); the goroutine of [a.xml] then
    runs up to and including its read of [s.urls] (5 accesses), the one
    of [b.xml] does the same; each then writes [s.urls] back, and the
    main goroutine leaves [wg.Wait()]. *)
Definition racing_schedule : list (list nat) :=
  replicate 22 [] ++ replicate 5 [0] ++ replicate 5 [1] ++ [[0]; [1]; []].

End Site.

(** ** Further definitions: lines of a robots.txt, what a configuration
    call compiles, what a run may change *)

(** [strings.Contains(s, substr)] and [strings.Join(elems, sep)]. *)
Fixpoint Contains (s substr : string) : bool :=
  String.prefix substr s ||
  match s with
  | EmptyString => false
  | String _ s' => Contains s' substr
  end.

Fixpoint Join (pieces : list string) (sep : string) : string :=
  match pieces with
  | [] => EmptyString
  | x :: rest =>
      match rest with
      | [] => x
      | _ :: _ => x +:+ sep +:+ Join rest sep
      end
  end.

Definition sitemapKey : string := "Sitemap: ".

(** A line of a robots.txt: the key followed by a location, or any other
    line. *)
Inductive robots_line : Type :=
  | SitemapLine (location : string)
  | OtherLine (text : string).

Definition render (l : robots_line) : string :=
  match l with
  | SitemapLine location => sitemapKey +:+ location
  | OtherLine text => text
  end.

(** A line as a line: no newline in it; the location of a [SitemapLine]
    does not hold the key again, an [OtherLine] does not start with it. *)
Definition plain_line (l : robots_line) : bool :=
  match l with
  | SitemapLine location =>
      negb (Contains location newline) && negb (Contains location sitemapKey)
  | OtherLine text =>
      negb (Contains text newline) && negb (HasPrefix text sitemapKey)
  end.

Definition locations_of (ls : list robots_line) : list string :=
  omap (fun l => match l with
                 | SitemapLine location => Some location
                 | OtherLine _ => None
                 end) ls.

Definition option_list {A : Type} (o : option A) : list A :=
  match o with
  | Some a => [a]
  | None => []
  end.

Section Further.

Context (E : Collab).

(** The patterns of a list that compile, compiled, and the errors of
    those that do not, both in the order of the list. *)
Definition compiled_of (patterns : list string) : list (Regexp E) :=
  omap (fun pattern => match regexp_Compile E pattern with
                       | inl re => Some re
                       | inr _ => None
                       end) patterns.

Definition errors_of (patterns : list string) : list error :=
  omap (fun pattern => match regexp_Compile E pattern with
                       | inl _ => None
                       | inr err => Some err
                       end) patterns.

(** [only_appends st st']: from [st] to [st'] the configuration and the
    mutex are as they were, and each of the four slices of the structure
    and the record of requests has only been appended to. *)
Record only_appends (st st' : state E) : Prop := {
  same_cfg : cfg (self st') = cfg (self st);
  same_mu : mu st' = mu st;
  more_robots :
    elems (robotsTxtSitemapURLs (self st)) `prefix_of`
      elems (robotsTxtSitemapURLs (self st'));
  more_locations :
    elems (sitemapLocations (self st)) `prefix_of` elems (sitemapLocations (self st'));
  more_urls : elems (urls (self st)) `prefix_of` elems (urls (self st'));
  more_errs : elems (errs (self st)) `prefix_of` elems (errs (self st'));
  more_requests : requests st `prefix_of` requests st'
}.

(** [traversal_frame st st']: moreover, what a traversal never writes is
    as it was. *)
Definition traversal_frame (st st' : state E) : Prop :=
  only_appends st st' /\
  mainURL (self st') = mainURL (self st) /\
  mainURLContent (self st') = mainURLContent (self st) /\
  robotsTxtSitemapURLs (self st') = robotsTxtSitemapURLs (self st).

(** The address [url] serves the document [content] to a client
    configured as [c], and [content] does not start with the gzip marker. *)
Definition serves (c : config E) (url content : string) : Prop :=
  http_NewRequest E url = None /\
  client_Do E (fetchTimeout c) (userAgent c) url
    = inl {| StatusCode := 200; Body := inl content |} /\
  HasPrefix content gzipPrefix = false.

(** The structure after the documents [docs] (locator and content) have
    gone through [parse] one after the other. *)
Definition after_documents (docs : list (string * string)) (s : S E) : S E :=
  foldl (fun s doc => after_parse E doc.1 doc.2 s) s docs.

End Further.

Arguments only_appends {E} st st'.
Arguments traversal_frame {E} st st'.

(** ** A document that lists itself *)
Module Cycle.

Definition loop_url : string := "http://h/loop.xml".
Definition loop_doc : string :=
  "<sitemapindex><sitemap><loc>http://h/loop.xml</loc></sitemap></sitemapindex>".

Definition Decode_sitemapIndex (data : string) : sitemapIndex * option error :=
  if String.eqb data loop_doc then
    ({| sitemapIndex_XMLName := Site.index_Name;
        Sitemap := mk_slice [Site.child loop_url] |}, None)
  else (zero_sitemapIndex, Some (errorString "EOF")).

Definition Decode_URLSet (data : string) : URLSet * option error :=
  if String.eqb data loop_doc then
    (zero_URLSet, Some (Site.not_a_urlset "sitemapindex"))
  else (zero_URLSet, Some (errorString "EOF")).

Definition serve (timeout : Z) (ua url : string) : Response + error :=
  if String.eqb url loop_url then Site.ok loop_doc
  else inl {| StatusCode := 404; Body := inl EmptyString |}.

Definition site : Collab :=
  {| Regexp := string;
     regexp_Compile := Site.Compile;
     MatchString := fun re s => Site.contains s re;
     http_NewRequest := fun _ => None;
     client_Do := serve;
     xml_Decode_sitemapIndex := Decode_sitemapIndex;
     xml_Decode_URLSet := Decode_URLSet;
     gzip_NewReader := fun _ => Some (errorString "gzip: invalid header");
     io_ReadAll := fun data => (data, None);
     is_ErrUnexpectedEOF := fun _ => false;
     gzip_Write := fun data => inl data;
     makeslice_maxcap := Site.maxcap |}.

End Cycle.

(** ** [lastModTime.UnmarshalXML]

    [time.Parse] is outside the package; [decoded] is what
    [d.DecodeElement(&v, &start)] left: the text of the element, or its
    error. *)
Section LastMod.

Context (time_Parse : string -> string -> Z + error).

Definition RFC3339 : string := "2006-01-02T15:04:05Z07:00".
Definition RFC3339Nano : string := "2006-01-02T15:04:05.999999999Z07:00".

Definition formats : list string :=
  [ "2006";
    "2006-01";
    "2006-01-02";
    "2006-01-02T15:04-07:00";
    "2006-01-02T15:04Z";
    "2006-01-02T15:04:05-07:00";
    "2006-01-02T15:04:05Z";
    "2006-01-02T15:04:05.999999999-07:00";
    "2006-01-02T15:04:05.999999999Z";
    RFC3339;
    RFC3339Nano ].

(** The loop over the formats; [err] is the variable the loop assigns
    to. *)
Fixpoint try_formats (formats : list string) (v : string) (err : option error)
  : Z + option error :=
  match formats with
  | [] => inr err
  | format :: formats' =>
      match time_Parse format v with
      | inl parsedTime => inl parsedTime
      | inr e => try_formats formats' v (Some e)
      end
  end.

(** The receiver afterwards, and the error returned. *)
Definition UnmarshalXML (decoded : string + error) (l : lastModTime)
  : lastModTime * option error :=
  match decoded with
  | inr err => (l, Some err)
  | inl v =>
      match try_formats formats v None with
      | inl parsedTime => ({| Time := parsedTime |}, None)
      | inr err => (l, err)
      end
  end.

End LastMod.

(** ** A gzip library that reads back what it wrote

    What [compress/gzip] does on the streams it has written itself: they
    begin with the marker, a reader opens on them, and reading gives the
    data back. *)
Definition gzip_round_trips (E : Collab) : Prop :=
  forall data compressed : string,
    gzip_Write E data = inl compressed ->
    HasPrefix compressed gzipPrefix = true /\
    gzip_NewReader E compressed = None /\
    io_ReadAll E compressed = (data, None).

(** A stand-in for such a library: the marker, then the data as it is. *)
Module Archive.

Definition Write (data : string) : string + error := inl (gzipPrefix +:+ data).

Definition NewReader (compressed : string) : option error :=
  if HasPrefix compressed gzipPrefix then None
  else Some (errorString "gzip: invalid header").

Definition ReadAll (compressed : string) : string * option error :=
  match compressed with
  | String _ (String _ (String _ data)) => (data, None)
  | _ => (EmptyString, Some (errorString "unexpected EOF"))
  end.

Definition site : Collab :=
  {| Regexp := string;
     regexp_Compile := Site.Compile;
     MatchString := fun re s => Site.contains s re;
     http_NewRequest := fun _ => None;
     client_Do := Site.serve;
     xml_Decode_sitemapIndex := Site.Decode_sitemapIndex;
     xml_Decode_URLSet := Site.Decode_URLSet;
     gzip_NewReader := NewReader;
     io_ReadAll := ReadAll;
     is_ErrUnexpectedEOF := fun _ => true;
     gzip_Write := Write;
     makeslice_maxcap := Site.maxcap |}.

End Archive.

(** ** An index of indexes

    The entry document lists two index documents, each of which lists
    one of the leaf documents of the example site. *)
Module Nest.

Definition root_url : string := "http://h/root.xml".
Definition left_url : string := "http://h/left.xml".
Definition right_url : string := "http://h/right.xml".

Definition root_doc : string :=
  "<sitemapindex><sitemap><loc>http://h/left.xml</loc></sitemap><sitemap><loc>http://h/right.xml</loc></sitemap></sitemapindex>".
Definition left_doc : string :=
  "<sitemapindex><sitemap><loc>http://h/a.xml</loc></sitemap></sitemapindex>".
Definition right_doc : string :=
  "<sitemapindex><sitemap><loc>http://h/b.xml</loc></sitemap></sitemapindex>".

Definition Decode_sitemapIndex (data : string) : sitemapIndex * option error :=
  if String.eqb data root_doc then
    ({| sitemapIndex_XMLName := Site.index_Name;
        Sitemap := mk_slice [Site.child left_url; Site.child right_url] |}, None)
  else if String.eqb data left_doc then
    ({| sitemapIndex_XMLName := Site.index_Name;
        Sitemap := mk_slice [Site.child Site.a_url] |}, None)
  else if String.eqb data right_doc then
    ({| sitemapIndex_XMLName := Site.index_Name;
        Sitemap := mk_slice [Site.child Site.b_url] |}, None)
  else Site.Decode_sitemapIndex data.

Definition Decode_URLSet (data : string) : URLSet * option error :=
  if String.eqb data root_doc || String.eqb data left_doc || String.eqb data right_doc
  then (zero_URLSet, Some (Site.not_a_urlset "sitemapindex"))
  else Site.Decode_URLSet data.

Definition serve (timeout : Z) (ua url : string) : Response + error :=
  if String.eqb url root_url then Site.ok root_doc
  else if String.eqb url left_url then Site.ok left_doc
  else if String.eqb url right_url then Site.ok right_doc
  else Site.serve timeout ua url.

Definition site : Collab :=
  {| Regexp := string;
     regexp_Compile := Site.Compile;
     MatchString := fun re s => Site.contains s re;
     http_NewRequest := fun _ => None;
     client_Do := serve;
     xml_Decode_sitemapIndex := Decode_sitemapIndex;
     xml_Decode_URLSet := Decode_URLSet;
     gzip_NewReader := fun _ => Some (errorString "gzip: invalid header");
     io_ReadAll := fun data => (data, None);
     is_ErrUnexpectedEOF := fun _ => false;
     gzip_Write := fun data => inl data;
     makeslice_maxcap := Site.maxcap |}.

Definition fresh : state site := start (New site).
Definition fresh_sequential : state site := start (SetMultiThread false (New site)).

(** The schedule on which the goroutines of [left.xml] and [right.xml]
    both read [s.sitemapLocations], to append their own locator, before
    either writes it back.  The main goroutine runs up to its
    [wg.Wait()] (22 accesses); the goroutine of [left.xml] runs up to
    and including that read (4 accesses), the one of [right.xml] does
    the same, and each writes back.  Then each in turn goes through its
    child: it appends the child's locator and starts the goroutine of
    the child (4 accesses), that goroutine runs to its end (6
    accesses), and [wg.Wait()] is left. *)
Definition racing_schedule : list (list nat) :=
  replicate 22 [] ++ replicate 4 [0] ++ replicate 4 [1] ++ [[0]; [1]]
  ++ replicate 4 [0] ++ replicate 6 [0; 0] ++ [[0]]
  ++ replicate 4 [1] ++ replicate 6 [1; 0] ++ [[1]; []].

End Nest.

(** ** A robots.txt for the example site *)
Module Robots.

Definition robots_url : string := "http://h/robots.txt".

(** A robots.txt that names the two leaf documents of the site. *)
Definition robots_lines : list robots_line :=
  [OtherLine "User-agent: *"; SitemapLine Site.a_url; SitemapLine Site.b_url].

(** The two leaf documents, each with its locator. *)
Definition leaves : list (string * string) :=
  [(Site.a_url, Site.a_doc); (Site.b_url, Site.b_doc)].

End Robots.

(** * Properties *)

(** ** Slices *)

Lemma len_append {A : Type} (s : slice A) x : len (append s x) = Datatypes.S (len s).
Proof. unfold len, append. simpl. rewrite length_app. simpl. lia. Qed.

Lemma elems_append {A : Type} (s : slice A) x : elems (append s x) = elems s ++ [x].
Proof. reflexivity. Qed.

Lemma is_nil_len {A : Type} (s : slice A) : is_nil s = true -> len s = 0.
Proof. destruct s; [reflexivity | discriminate]. Qed.

Lemma len_pos_not_nil {A : Type} (s : slice A) : 0 < len s -> is_nil s = false.
Proof. destruct s; simpl; [unfold len; simpl; lia | reflexivity]. Qed.

Lemma extend_nil {A : Type} (s : slice A) : extend s [] = s.
Proof. reflexivity. Qed.

Lemma extend_cons {A : Type} (s : slice A) x l : extend s (x :: l) = extend (append s x) l.
Proof. reflexivity. Qed.

Lemma extend_snoc {A : Type} (s : slice A) l x : extend s (l ++ [x]) = append (extend s l) x.
Proof. unfold extend. rewrite foldl_app. reflexivity. Qed.

Lemma elems_extend {A : Type} (s : slice A) l : elems (extend s l) = elems s ++ l.
Proof.
  revert s. induction l as [|x l IH]; intros s.
  - rewrite extend_nil, app_nil_r. reflexivity.
  - rewrite extend_cons, IH, elems_append, <- app_assoc. reflexivity.
Qed.

Lemma len_extend {A : Type} (s : slice A) l : len (extend s l) = len s + length l.
Proof. unfold len. rewrite elems_extend, length_app. reflexivity. Qed.

Lemma extend_app {A : Type} (s : slice A) l1 l2 :
  extend s (l1 ++ l2) = extend (extend s l1) l2.
Proof. unfold extend. apply foldl_app. Qed.

Section Properties.

Context (E : Collab).

Abbreviation state := (state E).
Abbreviation prog := (prog E).

(** ** Running a program *)

Lemma exec_bind {A B : Type} (p : prog A) (k : A -> prog B) (st : state) :
  exec (bind E p k) st =
  match exec p st with
  | Some (a, st') => exec (k a) st'
  | None => None
  end.
Proof.
  revert B k st.
  induction p as [A a | A T f k0 IH | A T f v k0 IH | A t ua url k0 IH
                 | A k0 IH | A k0 IH | A gs k0 IH | A why];
    intros B k st; simpl.
  - reflexivity.
  - apply IH.
  - apply IH.
  - apply IH.
  - destruct (mu st); [reflexivity | apply IH].
  - destruct (mu st); [apply IH | reflexivity].
  - lazymatch goal with |- match ?x with _ => _ end = _ => destruct x end;
      [apply IH | reflexivity].
  - reflexivity.
Qed.

Lemma exec_mbind {A B : Type} (p : prog A) (k : A -> prog B) (st : state) :
  exec (p ≫= k) st =
  match exec p st with
  | Some (a, st') => exec (k a) st'
  | None => None
  end.
Proof. apply exec_bind. Qed.

Lemma exec_mret {A : Type} (a : A) (st : state) : exec (mret a : prog A) st = Some (a, st).
Proof. reflexivity. Qed.

Lemma exec_load {T : Type} (f : field E T) (st : state) :
  exec (load E f) st = Some (field_get f (self st), st).
Proof. reflexivity. Qed.

Lemma exec_store {T : Type} (f : field E T) v (st : state) :
  exec (store E f v) st = Some (tt, with_self (field_set f v (self st)) st).
Proof. reflexivity. Qed.

Lemma exec_append_to {T : Type} (f : field E (slice T)) x (st : state) :
  exec (append_to E f x) st =
  Some (tt, with_self (field_set f (append (field_get f (self st)) x) (self st)) st).
Proof. reflexivity. Qed.

Lemma field_set_same {T : Type} (f : field E T) (s : S E) :
  field_set f (field_get f s) s = s.
Proof. destruct s, f; reflexivity. Qed.

Lemma with_self_same (st : state) : with_self (self st) st = st.
Proof. destruct st; reflexivity. Qed.

(** A loop, by an invariant [I done locals st] on the elements already
    gone through. *)
Lemma exec_for_range_inv {A L : Type} (I : list A -> L -> state -> Prop)
    (l : list A) (body : A -> L -> prog L) (locals : L) (st : state) :
  I [] locals st ->
  (forall done x locals st, I done locals st ->
     exists locals' st', exec (body x locals) st = Some (locals', st')
                         /\ I (done ++ [x]) locals' st') ->
  exists locals' st', exec (for_range E l body locals) st = Some (locals', st')
                      /\ I l locals' st'.
Proof.
  intros H0 Hstep.
  assert (G : forall l done locals st, I done locals st ->
            exists locals' st',
              exec (for_range E l body locals) st = Some (locals', st')
              /\ I (done ++ l) locals' st').
  { clear l locals st H0. induction l as [|x l IH]; intros done locals st HI.
    - exists locals, st. rewrite app_nil_r. split; [reflexivity | exact HI].
    - destruct (Hstep done x locals st HI) as (locals1 & st1 & Hx & HI1).
      destruct (IH (done ++ [x]) locals1 st1 HI1) as (locals2 & st2 & Hl & HI2).
      exists locals2, st2. split.
      + simpl. rewrite exec_mbind, Hx. exact Hl.
      + rewrite <- app_assoc in HI2. exact HI2. }
  apply (G l [] locals st H0).
Qed.

Ltac run_prog :=
  unfold mbind, prog_bind, mret, prog_ret, append_to, load, store; simpl.

Lemma filter_snoc {A : Type} (P : A -> Prop) `{forall x, Decision (P x)} (l : list A) x :
  filter P (l ++ [x]) = filter P l ++ (if decide (P x) then [x] else []).
Proof.
  rewrite filter_app. reflexivity.
Qed.

(** The loop of the index branch. *)
Lemma exec_follow_loop (entries : list sitemapEntry) (added : slice string) (st : state) :
  let adm := filter (fun loc => matches_any E (followRegexes (cfg (self st))) loc = true)
               (map sitemap_Loc entries) in
  exec (for_range E entries
          (fun sitemapIndexSitemap sitemapLocationsAdded =>
             c ← load E f_cfg;
             let matches := matches_any E (followRegexes c) (sitemap_Loc sitemapIndexSitemap) in
             if negb matches then mret sitemapLocationsAdded
             else
               let sitemapLocationsAdded :=
                 append sitemapLocationsAdded (sitemap_Loc sitemapIndexSitemap) in
               append_to E f_sitemapLocations (sitemap_Loc sitemapIndexSitemap);;
               mret sitemapLocationsAdded)
          added) st
  = Some (extend added adm,
          with_self (field_set f_sitemapLocations
                       (extend (sitemapLocations (self st)) adm) (self st)) st).
Proof.
  intros adm. subst adm.
  set (c0 := cfg (self st)).
  set (m := fun loc => matches_any E (followRegexes c0) loc = true).
  match goal with |- exec (for_range E _ ?b _) _ = _ => set (body := b) end.
  set (I := fun (done : list sitemapEntry) (locals : slice string) (st' : state) =>
       locals = extend added (filter m (map sitemap_Loc done)) /\
       st' = with_self (field_set f_sitemapLocations
               (extend (sitemapLocations (self st)) (filter m (map sitemap_Loc done)))
               (self st)) st).
  assert (H0 : I [] added st).
  { split; [reflexivity|]. destruct st as [[] ? ?]; reflexivity. }
  assert (Hstep : forall done x locals st1, I done locals st1 ->
            exists locals' st', exec (body x locals) st1 = Some (locals', st')
                                /\ I (done ++ [x]) locals' st').
  { intros done x locals st1 [-> ->]. unfold I.
    subst body. run_prog. fold c0.
    rewrite map_app. simpl. rewrite (filter_snoc m).
    destruct (decide (m (sitemap_Loc x))) as [Hm | Hm]; unfold m in Hm.
    + rewrite Hm. simpl. eexists _, _. split; [reflexivity|].
      rewrite !extend_snoc. split; reflexivity.
    + apply not_true_is_false in Hm. rewrite Hm. simpl.
      eexists _, _. split; [reflexivity|].
      rewrite !app_nil_r. split; reflexivity. }
  destruct (exec_for_range_inv I entries body added st H0 Hstep)
    as (locals' & st' & Hex & -> & ->).
  exact Hex.
Qed.

(** The loop of the leaf branch. *)
Lemma exec_rules_loop (entries : list URL) (st : state) :
  let adm := filter (fun u => matches_any E (rulesRegexes (cfg (self st))) (Loc u) = true)
               entries in
  exec (for_range E entries
          (fun urlSetURL (_ : unit) =>
             c ← load E f_cfg;
             let matches := matches_any E (rulesRegexes c) (Loc urlSetURL) in
             if negb matches then mret tt
             else append_to E f_urls urlSetURL)
          tt) st
  = Some (tt, with_self (field_set f_urls (extend (urls (self st)) adm) (self st)) st).
Proof.
  intros adm. subst adm.
  set (c0 := cfg (self st)).
  set (m := fun u => matches_any E (rulesRegexes c0) (Loc u) = true).
  match goal with |- exec (for_range E _ ?b _) _ = _ => set (body := b) end.
  set (I := fun (done : list URL) (locals : unit) (st' : state) =>
       st' = with_self (field_set f_urls
               (extend (urls (self st)) (filter m done)) (self st)) st).
  assert (H0 : I [] tt st).
  { unfold I. destruct st as [[] ? ?]; reflexivity. }
  assert (Hstep : forall done x locals st1, I done locals st1 ->
            exists locals' st', exec (body x locals) st1 = Some (locals', st')
                                /\ I (done ++ [x]) locals' st').
  { intros done x locals st1 ->. unfold I.
    subst body. run_prog. fold c0.
    rewrite (filter_snoc m).
    destruct (decide (m x)) as [Hm | Hm]; unfold m in Hm.
    + rewrite Hm. simpl. eexists _, _. split; [reflexivity|].
      rewrite !extend_snoc. reflexivity.
    + apply not_true_is_false in Hm. rewrite Hm. simpl.
      eexists _, _. split; [reflexivity|].
      rewrite !app_nil_r. reflexivity. }
  destruct (exec_for_range_inv I entries body tt st H0 Hstep)
    as ([] & st' & Hex & ->).
  exact Hex.
Qed.

(** One call of [parse] returns, with the effect computed by
    [after_parse]. *)
Lemma exec_parse (url content : string) (st : state) :
  exec (parse E url content) st
  = Some (parse_result E (cfg (self st)) content,
          with_self (after_parse E url content (self st)) st).
Proof.
  unfold parse, parse_result, after_parse, parse_locations, parse_urls,
    parse_errors, parse_branch, children_passing, entries_passing.
  destruct (parseSitemapIndex E content) as [smIndex errSitemapIndex].
  destruct (parseURLSet E content) as [urlSet errURLSet].
  cbv zeta. simpl fst.
  destruct (is_nil (Sitemap smIndex)) eqn:Hnil; simpl negb; cbv iota.
  - destruct (0 <? len (URLSet_URL urlSet)) eqn:Hlen.
    + rewrite exec_mbind, exec_mbind, exec_rules_loop.
      match goal with |- context [filter ?P ?l] => generalize (filter P l) end.
      intros adm.
      assert (Hz : (len (URLSet_URL urlSet) =? 0) = false).
      { apply Nat.ltb_lt in Hlen. apply Nat.eqb_neq. lia. }
      rewrite Hz.
      destruct errSitemapIndex, errURLSet; run_prog;
        destruct st as [[] ? ?]; reflexivity.
    + assert (Hz : (len (URLSet_URL urlSet) =? 0) = true).
      { apply Nat.ltb_ge in Hlen. apply Nat.eqb_eq. lia. }
      rewrite Hz.
      destruct errSitemapIndex, errURLSet; run_prog;
        destruct st as [[] ? ?]; reflexivity.
  - rewrite exec_mbind, exec_mbind, exec_append_to, exec_follow_loop.
    destruct st as [[] ? ?]. simpl.
    match goal with |- context [filter ?P ?l] => generalize (filter P l) end.
    intros adm.
    destruct errSitemapIndex, errURLSet, (len (URLSet_URL urlSet) =? 0);
      run_prog; rewrite ?extend_cons; reflexivity.
Qed.

Lemma after_parse_sitemapLocations (url content : string) (s : S E) :
  sitemapLocations (after_parse E url content s)
  = extend (sitemapLocations s) (parse_locations E (cfg s) url content).
Proof. reflexivity. Qed.

Lemma after_parse_urls (url content : string) (s : S E) :
  urls (after_parse E url content s)
  = extend (urls s) (parse_urls E (cfg s) content).
Proof. reflexivity. Qed.

Lemma after_parse_errs (url content : string) (s : S E) :
  errs (after_parse E url content s) = extend (errs s) (parse_errors E content).
Proof. reflexivity. Qed.

Lemma after_parse_cfg (url content : string) (s : S E) :
  cfg (after_parse E url content s) = cfg s.
Proof. reflexivity. Qed.

Lemma parse_branch_index (content : string) :
  parse_branch E content = SitemapIndexBranch <->
  is_nil (Sitemap (parseSitemapIndex E content).1) = false.
Proof.
  unfold parse_branch.
  destruct (parseSitemapIndex E content) as [smIndex e1].
  destruct (parseURLSet E content) as [urlSet e2]. simpl.
  destruct (is_nil (Sitemap smIndex)); simpl.
  - destruct (0 <? len (URLSet_URL urlSet)); split; discriminate.
  - split; reflexivity.
Qed.

Lemma parse_branch_urlset (content : string) :
  parse_branch E content = URLSetBranch <->
  0 < len (URLSet_URL (parseURLSet E content).1) /\
  is_nil (Sitemap (parseSitemapIndex E content).1) = true.
Proof.
  unfold parse_branch.
  destruct (parseSitemapIndex E content) as [smIndex e1].
  destruct (parseURLSet E content) as [urlSet e2]. simpl.
  destruct (is_nil (Sitemap smIndex)); simpl.
  - destruct (0 <? len (URLSet_URL urlSet)) eqn:Hlen.
    + apply Nat.ltb_lt in Hlen. split; [intros _; split; [exact Hlen | reflexivity] | reflexivity].
    + apply Nat.ltb_ge in Hlen. split; [discriminate | intros [H _]; lia].
  - split; [discriminate | intros [_ H]; discriminate].
Qed.

(** C1 (as the code has it): [parse] takes the index branch exactly when
    the child list left by index-parsing is not nil, which is the case
    whenever index-parsing yields at least one child entry, whatever
    leaf-parsing yields; it takes the leaf branch exactly when
    leaf-parsing yields at least one entry and that child list is nil.
    The branch is a function of the content, so the two are exclusive; it
    shows in what the call records: the document's own locator and the
    children let through in the index branch (the only case in which
    [sitemapLocations] grows), the entries let through in the leaf
    branch, neither collection touched otherwise. *)
Theorem parse_classification (url content : string) (st : state) :
  (parse_branch E content = SitemapIndexBranch <->
     is_nil (Sitemap (parseSitemapIndex E content).1) = false) /\
  (0 < len (Sitemap (parseSitemapIndex E content).1) ->
     parse_branch E content = SitemapIndexBranch) /\
  (parse_branch E content = URLSetBranch <->
     0 < len (URLSet_URL (parseURLSet E content).1) /\
     is_nil (Sitemap (parseSitemapIndex E content).1) = true) /\
  exists added st',
    exec (parse E url content) st = Some (added, st') /\
    (len (sitemapLocations (self st)) < len (sitemapLocations (self st')) <->
       is_nil (Sitemap (parseSitemapIndex E content).1) = false) /\
    match parse_branch E content with
    | SitemapIndexBranch =>
        elems (sitemapLocations (self st')) =
          elems (sitemapLocations (self st))
          ++ url :: children_passing E (cfg (self st)) content /\
        urls (self st') = urls (self st)
    | URLSetBranch =>
        sitemapLocations (self st') = sitemapLocations (self st) /\
        elems (urls (self st')) =
          elems (urls (self st)) ++ entries_passing E (cfg (self st)) content
    | NoBranch =>
        sitemapLocations (self st') = sitemapLocations (self st) /\
        urls (self st') = urls (self st)
    end.
Proof.
  split; [apply parse_branch_index|].
  split; [intros H; apply parse_branch_index, len_pos_not_nil, H|].
  split; [apply parse_branch_urlset|].
  eexists _, _. split; [apply exec_parse|].
  cbn [self with_self].
  rewrite after_parse_sitemapLocations, after_parse_urls.
  rewrite <- parse_branch_index.
  unfold parse_locations, parse_urls.
  destruct (parse_branch E content);
    rewrite ?len_extend, ?elems_extend, ?extend_nil; cbn [length];
    (split; [split; [intros; try reflexivity; lia | intros; try discriminate; lia]
            | split; reflexivity]).
Qed.

(** X23: for a document taken as a sitemap index, with N children
    passing the follow patterns, one call of [parse] that runs on its own
    (no access of another goroutine between its accesses) makes
    [sitemapLocations] longer by exactly 1 + N (the document's own
    locator, then each of these children) and returns exactly these N
    child locators.  [parse] does not read the [multiThread] setting:
    this from a state with either value of it. *)
Theorem parse_index_step (mt : bool) (url content : string) (st : state) :
  parse_branch E content = SitemapIndexBranch ->
  let N := length (children_passing E (cfg (self st)) content) in
  exists added st',
    exec (parse E url content) (with_self (SetMultiThread mt (self st)) st)
      = Some (added, st') /\
    len (sitemapLocations (self st')) = len (sitemapLocations (self st)) + 1 + N /\
    elems (sitemapLocations (self st')) =
      elems (sitemapLocations (self st))
      ++ url :: children_passing E (cfg (self st)) content /\
    elems added = children_passing E (cfg (self st)) content /\
    len added = N.
Proof.
  intros Hb N. eexists _, _. split; [apply exec_parse|].
  cbn [self with_self].
  rewrite after_parse_sitemapLocations.
  unfold parse_locations, parse_result. rewrite Hb.
  change (cfg (SetMultiThread mt (self st))) with
    (field_get f_cfg (SetMultiThread mt (self st))).
  change (children_passing E (field_get f_cfg (SetMultiThread mt (self st))) content)
    with (children_passing E (cfg (self st)) content).
  change (sitemapLocations (SetMultiThread mt (self st)))
    with (sitemapLocations (self st)).
  rewrite !len_extend, !elems_extend.
  split; [|split; [|split]]; try reflexivity.
  simpl. subst N. lia.
Qed.

(** C4: for a document taken as a leaf set, with M entries of which K
    pass the rules patterns, K <= M, one call of [parse] appends exactly
    those K entries to [urls], leaves [sitemapLocations] as it was (the
    leaf document's own locator is not recorded) and returns no
    location. *)
Theorem parse_leaf_step (url content : string) (st : state) :
  parse_branch E content = URLSetBranch ->
  let M := len (URLSet_URL (parseURLSet E content).1) in
  let K := length (entries_passing E (cfg (self st)) content) in
  K <= M /\
  exists added st',
    exec (parse E url content) st = Some (added, st') /\
    len (urls (self st')) = len (urls (self st)) + K /\
    elems (urls (self st')) =
      elems (urls (self st)) ++ entries_passing E (cfg (self st)) content /\
    sitemapLocations (self st') = sitemapLocations (self st) /\
    len added = 0.
Proof.
  intros Hb M K. split.
  - subst K M. unfold entries_passing, len. apply length_filter.
  - eexists _, _. split; [apply exec_parse|].
    cbn [self with_self].
    rewrite after_parse_sitemapLocations, after_parse_urls.
    unfold parse_locations, parse_urls, parse_result. rewrite Hb.
    rewrite len_extend, elems_extend, extend_nil.
    split; [|split; [|split]]; reflexivity.
Qed.

(** ** Runs of a program that starts no goroutine *)

(** Such a program has one run: whatever the schedule, a run that gets
    somewhere is the main goroutine moving, towards what [exec]
    computes. *)
Lemma run_sequential {A : Type} (schedule : list (list nat)) :
  forall (p : prog A) (st : state) (t' : thread E A) (st' : state),
    sequential p st = true ->
    run schedule (Running p) st = Some (t', st') ->
    exists p', t' = Running p' /\ sequential p' st' = true
               /\ exec p' st' = exec p st.
Proof.
  induction schedule as [|path schedule IH]; intros p st t' st' Hseq Hrun.
  - injection Hrun as <- <-. exists p. auto.
  - cbn [run] in Hrun.
    destruct (step path (Running p) st) as [[t1 st1]|] eqn:Hstep; [|discriminate].
    cbn [step] in Hstep.
    destruct path; [|discriminate].
    destruct p; simpl in Hseq; try discriminate;
      injection Hstep as <- <-;
      destruct (IH _ _ _ _ Hseq Hrun) as (p' & -> & Hseq' & Hex);
      exists p'; auto.
Qed.

Lemma returns_sequential {A : Type} (schedule : list (list nat)) (p : prog A)
    (st : state) (a : A) (st' : state) :
  sequential p st = true ->
  returns_under schedule p st a st' ->
  exec p st = Some (a, st').
Proof.
  intros Hseq Hrun.
  destruct (run_sequential schedule p st _ _ Hseq Hrun) as (p' & Heq & _ & Hex).
  injection Heq as <-. rewrite <- Hex. reflexivity.
Qed.

(** And [exec] is that run. *)
Lemma exec_sequential {A : Type} (p : prog A) :
  forall (st : state) (a : A) (st' : state),
    sequential p st = true ->
    exec p st = Some (a, st') ->
    exists n, returns_under (replicate n []) p st a st'.
Proof.
  induction p as [A a0 | A T f k0 IH | A T f v k0 IH | A t ua url k0 IH
                 | A k0 IH | A k0 IH | A gs k0 IH | A why];
    intros st a st' Hseq Hex; simpl in Hseq, Hex; try discriminate.
  - injection Hex as <- <-. exists 0. reflexivity.
  - destruct (IH _ _ _ _ Hseq Hex) as [n Hn]. exists (Datatypes.S n). exact Hn.
  - destruct (IH _ _ _ Hseq Hex) as [n Hn]. exists (Datatypes.S n). exact Hn.
  - destruct (IH _ _ _ _ Hseq Hex) as [n Hn]. exists (Datatypes.S n). exact Hn.
Qed.

(** ** [exec] is one of the interleaved runs *)

Lemma run_app {A : Type} (s1 s2 : list (list nat)) :
  forall (t : thread E A) (st : state),
    run (s1 ++ s2) t st =
    match run s1 t st with
    | Some (t', st') => run s2 t' st'
    | None => None
    end.
Proof.
  induction s1 as [|path s1 IH]; intros t st; simpl.
  - reflexivity.
  - destruct (step path t st) as [[t1 st1]|]; [apply IH | reflexivity].
Qed.

(** A step of the [i]-th goroutine started is a step of the one
    waiting. *)
Lemma step_in_child {A : Type} (k : prog A) (path : list nat) :
  forall (cs : list (thread E unit)) (i : nat) (c c' : thread E unit)
         (st st' : state),
    cs !! i = Some c ->
    step path c st = Some (c', st') ->
    step (i :: path) (Joining cs k) st = Some (Joining (<[i := c']> cs) k, st').
Proof.
  intros cs i c c' st st' Hc Hstep. cbn [step].
  match goal with
  | |- match ?F i cs with _ => _ end = _ =>
      assert (Hgo : F i cs = Some (<[i := c']> cs, st'))
  end.
  { revert i Hc. induction cs as [|c0 cs IH]; intros i Hc.
    - destruct i; discriminate.
    - destruct i as [|i]; simpl in Hc.
      + injection Hc as ->. rewrite Hstep. reflexivity.
      + rewrite (IH i Hc). reflexivity. }
  rewrite Hgo. reflexivity.
Qed.

Lemma run_in_child {A : Type} (k : prog A) (i : nat) (schedule : list (list nat)) :
  forall (cs : list (thread E unit)) (c c' : thread E unit) (st st' : state),
    cs !! i = Some c ->
    run schedule c st = Some (c', st') ->
    run (map (cons i) schedule) (Joining cs k) st
    = Some (Joining (<[i := c']> cs) k, st').
Proof.
  induction schedule as [|path schedule IH]; intros cs c c' st st' Hc Hrun.
  - injection Hrun as <- <-. simpl. rewrite list_insert_id by exact Hc. reflexivity.
  - cbn [run] in Hrun.
    destruct (step path c st) as [[c1 st1]|] eqn:Hstep; [|discriminate].
    cbn [map run].
    rewrite (step_in_child k path cs i c c1 st st1 Hc Hstep).
    rewrite (IH (<[i := c1]> cs) c1 c' st1 st').
    + rewrite list_insert_insert_eq. reflexivity.
    + apply list_lookup_insert_eq. apply lookup_lt_Some in Hc. exact Hc.
    + exact Hrun.
Qed.

(** The run [exec] describes: every goroutine to its end, in turn. *)
Lemma exec_is_a_run {A : Type} (p : prog A) :
  forall (st : state) (a : A) (st' : state),
    exec p st = Some (a, st') ->
    exists schedule, returns_under schedule p st a st'.
Proof.
  unfold returns_under. revert A p.
  apply (prog_ind_goroutines E
           (fun A p => forall st a st', exec p st = Some (a, st') ->
              exists schedule,
                run schedule (Running p) st = Some (Running (Ret a), st')));
    [ intros A a0 | intros A T f k0 IH | intros A T f v k0 IH
    | intros A t ua url k0 IH | intros A k0 IH | intros A k0 IH
    | intros A gs k0 IHgs IH | intros A why ];
    intros st a st' Hex; cbn [exec] in Hex.
  - injection Hex as <- <-. exists []. reflexivity.
  - destruct (IH _ _ _ _ Hex) as [sch H]. exists ([] :: sch). exact H.
  - destruct (IH _ _ _ Hex) as [sch H]. exists ([] :: sch). exact H.
  - destruct (IH _ _ _ _ Hex) as [sch H]. exists ([] :: sch). exact H.
  - destruct (mu st) eqn:Hmu; [discriminate|].
    destruct (IH _ _ _ Hex) as [sch H]. exists ([] :: sch).
    cbn [run step]. rewrite Hmu. exact H.
  - destruct (mu st) eqn:Hmu; [|discriminate].
    destruct (IH _ _ _ Hex) as [sch H]. exists ([] :: sch).
    cbn [run step]. rewrite Hmu. exact H.
  - match type of Hex with
    | match ?F gs st with _ => _ end = _ =>
        destruct (F gs st) as [st1|] eqn:Hall; [|discriminate];
        assert (Hgs : forall (done : list (thread E unit)) (st0 : state),
                  Forall (fun c => finished c = true) done ->
                  F gs st0 = Some st1 ->
                  exists sch ends,
                    run sch (Joining (done ++ map Running gs) k0) st0
                      = Some (Joining (done ++ ends) k0, st1)
                    /\ Forall (fun c => finished c = true) ends)
    end.
    { clear Hall Hex IH. induction IHgs as [|g gs Hg _ IHl]; intros done st0 Hdone Hrun.
      - injection Hrun as <-. exists [], []. split; [reflexivity | constructor].
      - destruct (exec g st0) as [[[] st2]|] eqn:Hg0; [|discriminate].
        destruct (Hg _ _ _ Hg0) as [sch1 Hsch1].
        destruct (IHl (done ++ [Running (Ret tt)]) st2) as (sch2 & ends & Hsch2 & Hends).
        { apply Forall_app. split; [exact Hdone | repeat constructor]. }
        { exact Hrun. }
        exists (map (cons (length done)) sch1 ++ sch2), (Running (Ret tt) :: ends).
        split; [|constructor; [reflexivity | exact Hends]].
        rewrite run_app.
        rewrite (run_in_child k0 (length done) sch1 _ (Running g) (Running (Ret tt)) st0 st2).
        + cbn [map]. rewrite insert_app_r_alt by lia.
          rewrite Nat.sub_diag. cbn [insert list_insert].
          rewrite <- !app_assoc in Hsch2. cbn [app] in Hsch2. exact Hsch2.
        + cbn [map]. rewrite lookup_app_r by lia. rewrite Nat.sub_diag. reflexivity.
        + exact Hsch1. }
    destruct (Hgs [] st (List.Forall_nil _) Hall) as (sch1 & ends & Hsch1 & Hends).
    destruct (IH _ _ _ Hex) as [sch2 Hsch2].
    exists ([] :: sch1 ++ [] :: sch2).
    cbn [run step]. rewrite run_app. cbn [app] in Hsch1. rewrite Hsch1.
    cbn [run step app].
    assert (Hfin : forallb finished ends = true).
    { clear Hsch1. induction Hends as [|c ends Hc _ IHe]; [reflexivity|].
      simpl. rewrite Hc. exact IHe. }
    rewrite Hfin. exact Hsch2.
  - discriminate.
Qed.

(** ** The two strategies, one goroutine at a time *)

Lemma exec_bind_ext {A B : Type} (p : prog A) (k1 k2 : A -> prog B) (st : state) :
  (forall a st', exec (k1 a) st' = exec (k2 a) st') ->
  exec (p ≫= k1) st = exec (p ≫= k2) st.
Proof.
  intros H. rewrite !exec_mbind.
  destruct (exec p st) as [[a st']|]; [apply H | reflexivity].
Qed.

Lemma exec_for_range_ext {A L : Type} (l : list A) (b1 b2 : A -> L -> prog L) :
  (forall x locals st, exec (b1 x locals) st = exec (b2 x locals) st) ->
  forall locals st,
    exec (for_range E l b1 locals) st = exec (for_range E l b2 locals) st.
Proof.
  intros H. induction l as [|x l IH]; intros locals st; simpl.
  - reflexivity.
  - rewrite !exec_mbind, H.
    destruct (exec (b2 x locals) st) as [[locals' st']|]; [apply IH | reflexivity].
Qed.

(** Goroutines that run one after the other are a loop over them. *)
Lemma exec_go_wait {A : Type} (f : A -> prog unit) (l : list A) :
  forall st,
    exec (go_wait E (map f l)) st
    = exec (for_range E l (fun x (_ : unit) => f x) tt) st.
Proof.
  unfold go_wait. induction l as [|x l IH]; intros st.
  - reflexivity.
  - cbn [map for_range]. rewrite exec_mbind. cbn [exec].
    destruct (exec (f x) st) as [[[] st']|]; [|reflexivity].
    specialize (IH st'). cbn [exec] in IH. exact IH.
Qed.

(** When the goroutines of the concurrent strategy run one after the
    other, in the order they were started, the concurrent strategy does
    what the sequential one does. *)
Lemma strategies_agree_serialised (depth : nat) :
  forall (locations : slice string) (st : state),
    exec (parseAndFetchUrlsMultiThread E depth locations) st
    = exec (parseAndFetchUrlsSequential E depth locations) st.
Proof.
  induction depth as [|depth IH]; intros locations st.
  - reflexivity.
  - cbn [parseAndFetchUrlsMultiThread parseAndFetchUrlsSequential].
    rewrite exec_go_wait.
    apply exec_for_range_ext. intros location [] st0.
    apply exec_bind_ext. intros [content|err] st1; [|reflexivity].
    apply exec_bind_ext. intros content' st2.
    apply exec_bind_ext. intros parsedLocations st3.
    destruct (0 <? len parsedLocations); [apply IH | reflexivity].
Qed.

(** ** Fetching *)

(** [fetch] reads the configuration only, and sends at most one
    request. *)
Lemma exec_fetch (url : string) (st : state) :
  exists r st',
    exec (fetch E url) st = Some (r, st') /\
    self st' = self st /\ mu st' = mu st /\
    (requests st' = requests st \/ requests st' = requests st ++ [url]).
Proof.
  unfold fetch. run_prog.
  destruct (http_NewRequest E url) as [err|]; simpl.
  - eexists _, _. split; [reflexivity|]. auto.
  - destruct (client_Do E _ _ url) as [response|err]; simpl.
    + destruct (negb (StatusCode response =? 200)%Z); simpl.
      * eexists _, _. split; [reflexivity|]. simpl. auto.
      * destruct (Body response); simpl;
          eexists _, _; (split; [reflexivity|]); simpl; auto.
    + eexists _, _. split; [reflexivity|]. simpl. auto.
Qed.

Lemma exec_fetch_fails (url : string) (err : error) (st : state) :
  fetch_fails E (cfg (self st)) url err ->
  exists st',
    exec (fetch E url) st = Some (inr err, st') /\
    self st' = self st /\ mu st' = mu st /\
    (requests st' = requests st \/ requests st' = requests st ++ [url]).
Proof.
  intros Hf. unfold fetch. run_prog.
  destruct Hf as [err Hreq | err Hreq Hdo | response Hreq Hdo Hst
                 | response err Hreq Hdo Hst Hbody]; rewrite Hreq; simpl.
  - eexists. split; [reflexivity|]. auto.
  - rewrite Hdo. simpl. eexists. split; [reflexivity|]. simpl. auto.
  - rewrite Hdo. simpl.
    apply Z.eqb_neq in Hst. rewrite Hst. simpl.
    eexists. split; [reflexivity|]. simpl. auto.
  - rewrite Hdo. simpl.
    apply Z.eqb_eq in Hst. rewrite Hst. simpl. rewrite Hbody.
    eexists. split; [reflexivity|]. simpl. auto.
Qed.

(** ** [Parse]: the two early returns *)

Lemma Parse_guard (depth : nat) (url : string) (urlContent : option string)
    (st : state) :
  0 < len (errs (self st)) ->
  exec (Parse E depth url urlContent) st = Some (Some guardError, st).
Proof.
  intros H. unfold Parse. rewrite exec_mbind, exec_load. simpl field_get.
  apply Nat.ltb_lt in H. rewrite H. reflexivity.
Qed.

(** C7: when the entry content has to be fetched (no content is passed
    in) and that first fetch fails, for whichever reason [fetch] fails,
    [Parse] returns that error at once: it is the one error recorded, at
    most the one request was sent, and [sitemapLocations] and [urls] are
    as they were, so empty if they were empty. *)
Theorem Parse_entry_fetch_fails (depth : nat) (url : string) (err : error)
    (st : state) :
  len (errs (self st)) = 0 ->
  fetch_fails E (cfg (self st)) url err ->
  exists st',
    exec (Parse E depth url None) st = Some (Some err, st') /\
    elems (errs (self st')) = [err] /\
    sitemapLocations (self st') = sitemapLocations (self st) /\
    urls (self st') = urls (self st) /\
    (len (sitemapLocations (self st)) = 0 -> len (sitemapLocations (self st')) = 0) /\
    (len (urls (self st)) = 0 -> len (urls (self st')) = 0) /\
    (requests st' = requests st \/ requests st' = requests st ++ [url]).
Proof.
  intros Herrs Hf.
  set (st1 := with_self (field_set f_mainURL url (self st)) st).
  destruct (exec_fetch_fails url err st1 Hf) as (st2 & Hex & Hself & Hmu & Hreq).
  unfold Parse. rewrite exec_mbind, exec_load. simpl field_get.
  assert (Hz : (0 <? len (errs (self st))) = false)
    by (apply Nat.ltb_ge; lia).
  rewrite Hz.
  rewrite exec_mbind, exec_store. fold st1.
  rewrite exec_mbind. unfold setContent.
  rewrite exec_mbind, exec_load.
  change (field_get f_mainURL (self st1)) with url.
  rewrite exec_mbind, Hex. run_prog.
  eexists. split; [reflexivity|]. simpl. rewrite Hself. simpl.
  assert (He : elems (errs (self st)) = []).
  { unfold len in Herrs. destruct (elems (errs (self st))); [reflexivity | discriminate]. }
  rewrite He. simpl.
  repeat split; auto.
Qed.

(** ** Configuration errors *)

Lemma SetFollow_step_errs (s : S E) (pattern : string) :
  len (errs s) <= len (errs (SetFollow_step E s pattern)) /\
  (forall err, regexp_Compile E pattern = inr err ->
     0 < len (errs (SetFollow_step E s pattern))) /\
  sitemapLocations (SetFollow_step E s pattern) = sitemapLocations s /\
  urls (SetFollow_step E s pattern) = urls s.
Proof.
  unfold SetFollow_step.
  destruct (regexp_Compile E pattern) as [re|e]; simpl.
  - repeat split; auto. intros err H. discriminate.
  - rewrite len_append. repeat split; auto. intros; lia.
Qed.

Lemma SetRules_step_errs (s : S E) (pattern : string) :
  len (errs s) <= len (errs (SetRules_step E s pattern)) /\
  (forall err, regexp_Compile E pattern = inr err ->
     0 < len (errs (SetRules_step E s pattern))) /\
  sitemapLocations (SetRules_step E s pattern) = sitemapLocations s /\
  urls (SetRules_step E s pattern) = urls s.
Proof.
  unfold SetRules_step.
  destruct (regexp_Compile E pattern) as [re|e]; simpl.
  - repeat split; auto. intros err H. discriminate.
  - rewrite len_append. repeat split; auto. intros; lia.
Qed.

(** A loop of configuration steps keeps the errors it has, records one
    for a pattern that does not compile, and leaves the two result
    collections alone. *)
Lemma config_loop (step : S E -> string -> S E) (patterns : list string) (s : S E) :
  (forall s pattern,
     len (errs s) <= len (errs (step s pattern)) /\
     (forall err, regexp_Compile E pattern = inr err ->
        0 < len (errs (step s pattern))) /\
     sitemapLocations (step s pattern) = sitemapLocations s /\
     urls (step s pattern) = urls s) ->
  len (errs s) <= len (errs (foldl step s patterns)) /\
  (forall pattern err, pattern ∈ patterns -> regexp_Compile E pattern = inr err ->
     0 < len (errs (foldl step s patterns))) /\
  sitemapLocations (foldl step s patterns) = sitemapLocations s /\
  urls (foldl step s patterns) = urls s.
Proof.
  intros Hstep. revert s.
  induction patterns as [|p l IH]; intros s; simpl.
  - repeat split; auto. intros pattern err Hin. inversion Hin.
  - destruct (Hstep s p) as (Hle & Hbad & Hlocs & Hurls).
    destruct (IH (step s p)) as (Hle' & Hbad' & Hlocs' & Hurls').
    split; [lia|]. split; [|split; congruence].
    intros pattern err Hin Hc.
    apply elem_of_cons in Hin as [-> | Hin].
    + specialize (Hbad err Hc). lia.
    + apply (Hbad' pattern err Hin Hc).
Qed.

Lemma SetFollow_errs (regexes : slice string) (s : S E) :
  len (errs s) <= len (errs (SetFollow regexes s)) /\
  (forall pattern err, pattern ∈ elems regexes -> regexp_Compile E pattern = inr err ->
     0 < len (errs (SetFollow regexes s))) /\
  sitemapLocations (SetFollow regexes s) = sitemapLocations s /\
  urls (SetFollow regexes s) = urls s.
Proof.
  unfold SetFollow.
  apply (config_loop (SetFollow_step E) (elems regexes) (set_follow E regexes s)).
  apply SetFollow_step_errs.
Qed.

Lemma SetRules_errs (regexes : slice string) (s : S E) :
  len (errs s) <= len (errs (SetRules regexes s)) /\
  (forall pattern err, pattern ∈ elems regexes -> regexp_Compile E pattern = inr err ->
     0 < len (errs (SetRules regexes s))) /\
  sitemapLocations (SetRules regexes s) = sitemapLocations s /\
  urls (SetRules regexes s) = urls s.
Proof.
  unfold SetRules.
  apply (config_loop (SetRules_step E) (elems regexes) (set_rules E regexes s)).
  apply SetRules_step_errs.
Qed.

(** Once an error is recorded, no call removes it, sends a request or
    touches the two result collections, and [Parse] returns the guard
    error. *)
Lemma perform_blocked (c : call) (st : state) :
  0 < len (errs (self st)) ->
  exists r st',
    perform c st = Some (r, st') /\
    (forall e, r = Some e -> e = Some guardError) /\
    (forall depth url urlContent, c = CallParse depth url urlContent ->
       r = Some (Some guardError) /\ st' = st) /\
    0 < len (errs (self st')) /\
    requests st' = requests st /\
    sitemapLocations (self st') = sitemapLocations (self st) /\
    urls (self st') = urls (self st).
Proof.
  intros H.
  destruct c as [ua | t | b | regexes | regexes | depth url urlContent];
    cbn [perform].
  - eexists _, _. split; [reflexivity|]. repeat split; auto; discriminate.
  - eexists _, _. split; [reflexivity|]. repeat split; auto; discriminate.
  - eexists _, _. split; [reflexivity|]. repeat split; auto; discriminate.
  - destruct (SetFollow_errs regexes (self st)) as (Hle & _ & Hlocs & Hurls).
    eexists _, _. split; [reflexivity|]. simpl.
    repeat split; auto; try discriminate. lia.
  - destruct (SetRules_errs regexes (self st)) as (Hle & _ & Hlocs & Hurls).
    eexists _, _. split; [reflexivity|]. simpl.
    repeat split; auto; try discriminate. lia.
  - rewrite (Parse_guard depth url urlContent st H).
    eexists _, _. split; [reflexivity|].
    repeat split; auto. intros e He. congruence.
Qed.

Lemma perform_all_blocked (cs : list call) (st : state) :
  0 < len (errs (self st)) ->
  exists rs st',
    perform_all cs st = Some (rs, st') /\
    Forall (fun r => forall e, r = Some e -> e = Some guardError) rs /\
    0 < len (errs (self st')) /\
    requests st' = requests st /\
    sitemapLocations (self st') = sitemapLocations (self st) /\
    urls (self st') = urls (self st).
Proof.
  revert st. induction cs as [|c cs IH]; intros st H; simpl.
  - eexists _, _. split; [reflexivity|]. repeat split; auto.
  - destruct (perform_blocked c st H)
      as (r & st1 & Hp & Hr & _ & H1 & Hreq & Hlocs & Hurls).
    destruct (IH st1 H1) as (rs & st2 & Hps & Hrs & H2 & Hreq2 & Hlocs2 & Hurls2).
    rewrite Hp, Hps. eexists _, _. split; [reflexivity|].
    split; [constructor; assumption|].
    repeat split; congruence.
Qed.

(** C8: when a pattern handed to [SetFollow] or to [SetRules] does not
    compile, an error is recorded on the instance, and from then on every
    call of [Parse], directly or after any further calls on the instance,
    returns the guard error at once: the state is the one it was called
    in, so nothing is fetched (no request is sent), nothing is classified
    and neither result collection changes. *)
Theorem config_error_blocks_Parse (regexes : slice string) (pattern : string)
    (err : error) (st : state) :
  pattern ∈ elems regexes ->
  regexp_Compile E pattern = inr err ->
  forall st0,
    st0 = with_self (SetFollow regexes (self st)) st \/
    st0 = with_self (SetRules regexes (self st)) st ->
    0 < len (errs (self st0)) /\
    (forall depth url urlContent,
       exec (Parse E depth url urlContent) st0 = Some (Some guardError, st0)) /\
    forall cs, exists rs st',
      perform_all cs st0 = Some (rs, st') /\
      Forall (fun r => forall e, r = Some e -> e = Some guardError) rs /\
      requests st' = requests st0 /\
      sitemapLocations (self st') = sitemapLocations (self st0) /\
      urls (self st') = urls (self st0) /\
      forall depth url urlContent,
        exec (Parse E depth url urlContent) st' = Some (Some guardError, st').
Proof.
  intros Hin Hc st0 Hst0.
  assert (H0 : 0 < len (errs (self st0))).
  { destruct Hst0 as [-> | ->]; simpl.
    - destruct (SetFollow_errs regexes (self st)) as (_ & Hbad & _).
      apply (Hbad pattern err Hin Hc).
    - destruct (SetRules_errs regexes (self st)) as (_ & Hbad & _).
      apply (Hbad pattern err Hin Hc). }
  split; [exact H0|]. split.
  - intros depth url urlContent. apply Parse_guard, H0.
  - intros cs.
    destruct (perform_all_blocked cs st0 H0)
      as (rs & st' & Hp & Hrs & H1 & Hreq & Hlocs & Hurls).
    exists rs, st'. repeat split; auto.
    intros depth url urlContent. apply Parse_guard, H1.
Qed.

(** ** Empty content *)

Lemma exec_checkAndUnzipContent_empty (st : state) :
  exec (checkAndUnzipContent E EmptyString) st = Some (EmptyString, st).
Proof. reflexivity. Qed.

Lemma parse_empty (url : string) (st : state) :
  exec (parse E url EmptyString) st
  = Some (nil_slice,
          with_self (field_set f_errs
                       (append (append (errs (self st))
                                  (errorString "sitemapindex is empty"))
                          (errorString "sitemap is empty"))
                       (self st)) st).
Proof.
  rewrite exec_parse. destruct st as [[] ? ?]. reflexivity.
Qed.

(** C6 (as the code has it): a node whose fetched content is the empty
    string makes [parse] record exactly two errors, one for each decoding
    attempt (sitemapindex is empty, sitemap is empty), return no
    location and change nothing else; the sequential traversal then goes
    on with the sibling locations that follow, from that state. *)
Theorem empty_content_records_two_errors (depth : nat) (location : string)
    (rest : list string) (st st1 : state) :
  exec (fetch E location) st = Some (inl EmptyString, st1) ->
  let st2 :=
    with_self (field_set f_errs
                 (append (append (errs (self st1))
                            (errorString "sitemapindex is empty"))
                    (errorString "sitemap is empty"))
                 (self st1)) st1 in
  exec (parse E location EmptyString) st1 = Some (nil_slice, st2) /\
  len (errs (self st2)) = len (errs (self st)) + 2 /\
  sitemapLocations (self st2) = sitemapLocations (self st) /\
  urls (self st2) = urls (self st) /\
  requests st2 = requests st1 /\
  exec (parseAndFetchUrlsSequential E (Datatypes.S depth) (mk_slice (location :: rest))) st
  = exec (parseAndFetchUrlsSequential E (Datatypes.S depth) (mk_slice rest)) st2.
Proof.
  intros Hf st2.
  destruct (exec_fetch location st) as (r & st1' & Hf' & Hself & _ & _).
  rewrite Hf in Hf'. injection Hf' as <- <-.
  split; [apply parse_empty|].
  split; [subst st2; simpl; rewrite !len_append, Hself; lia|].
  split; [subst st2; simpl; rewrite Hself; reflexivity|].
  split; [subst st2; simpl; rewrite Hself; reflexivity|].
  split; [reflexivity|].
  cbn [parseAndFetchUrlsSequential elems for_range].
  rewrite exec_mbind, exec_mbind, Hf.
  rewrite exec_mbind, exec_checkAndUnzipContent_empty.
  rewrite exec_mbind, parse_empty. fold st2.
  reflexivity.
Qed.

(** ** Nil receiver *)

(** C10: on a nil receiver [GetErrorsCount] returns 0, [GetErrors] nil,
    [GetURLCount] 0 and [GetRandomURLs] an empty non-nil slice, for every
    argument of [GetRandomURLs]; none of them panics. *)
Theorem nil_receiver_accessors (n : Z) (rnd : nat -> nat) :
  GetErrorsCount (None : option (S E)) = 0%Z /\
  GetErrors (None : option (S E)) = nil_slice /\
  GetURLCount (None : option (S E)) = 0%Z /\
  GetRandomURLs (None : option (S E)) n rnd = (Returns (mk_slice []), None).
Proof. repeat split. Qed.

End Properties.

(** ** Sampling *)

(** Taking the element at [index] out of the window of length [w] and
    moving the last element of the window into its place leaves, in the
    shorter window, the elements that were in the window, less the one
    taken. *)
Lemma swap_with_last {A : Type} (arr : list A) (w index : nat) (x last : A) :
  index < w ->
  arr !! index = Some x ->
  arr !! (w - 1) = Some last ->
  x :: take (w - 1) (<[index := last]> arr) ≡ₚ take w arr.
Proof.
  intros Hi Hx Hlast.
  assert (Hw : w = Datatypes.S (w - 1)) by lia.
  rewrite Hw at 2. rewrite (take_S_r arr (w - 1) last Hlast).
  destruct (decide (index = w - 1)) as [-> | Hne].
  - rewrite take_insert_ge by lia.
    assert (x = last) by congruence. subst last.
    apply Permutation_cons_append.
  - rewrite take_insert_lt by lia.
    set (t := take (w - 1) arr).
    assert (Ht : t !! index = Some x).
    { unfold t. rewrite lookup_take_lt by lia. exact Hx. }
    rewrite insert_take_drop by (apply lookup_lt_Some in Ht; exact Ht).
    rewrite <- (take_drop_middle t index x Ht) at 3.
    rewrite <- !app_assoc. simpl.
    rewrite <- !Permutation_middle.
    apply perm_skip.
    rewrite app_assoc, app_nil_r. reflexivity.
Qed.

(** The loop never indexes out of range; it takes [min k w] elements,
    leaves the length of the array alone, and the elements taken together
    with those left in the window are the elements the window had. *)
Lemma randLoop_spec {A : Type} (rnd : nat -> nat) (k : nat) :
  forall (i : nat) (arr : list A) (w : nat) (acc : list A),
    w <= length arr ->
    exists r arr',
      randLoop rnd k i arr w acc = (arr', Returns r) /\
      length arr' = length arr /\
      length r = length acc + min k w /\
      r ++ take (w - min k w) arr' ≡ₚ acc ++ take w arr.
Proof.
  induction k as [|k IH]; intros i arr w acc Hw; cbn [randLoop].
  - exists acc, arr. rewrite Nat.min_0_l, Nat.add_0_r, Nat.sub_0_r.
    repeat split; auto.
  - destruct (w =? 0) eqn:Hz.
    + apply Nat.eqb_eq in Hz. subst w. exists acc, arr.
      rewrite Nat.min_0_r, Nat.add_0_r. repeat split; auto.
    + apply Nat.eqb_neq in Hz.
      assert (Hi : rnd i `mod` w < w) by (apply Nat.mod_upper_bound; exact Hz).
      generalize dependent (rnd i `mod` w). intros index Hi.
      assert (Hx : is_Some (arr !! index))
        by (apply lookup_lt_is_Some_2; lia).
      assert (Hlast : is_Some (arr !! (w - 1)))
        by (apply lookup_lt_is_Some_2; lia).
      destruct Hx as [x Hx]. destruct Hlast as [last Hlast].
      rewrite Hx, Hlast.
      assert (Hw' : w - 1 <= length (<[index := last]> arr))
        by (rewrite length_insert; lia).
      destruct (IH (Datatypes.S i) (<[index := last]> arr) (w - 1) (acc ++ [x]) Hw')
        as (r & arr' & Hrun & Hlen & Hr & Hperm).
      exists r, arr'. split; [exact Hrun|].
      split; [rewrite Hlen; apply length_insert|].
      split; [rewrite Hr, length_app; cbn [length]; lia|].
      replace (w - min (Datatypes.S k) w) with (w - 1 - min k (w - 1)) by lia.
      rewrite Hperm, <- app_assoc. simpl.
      apply Permutation_app_head.
      apply swap_with_last; assumption.
Qed.

(** The loop does not look at the elements: it commutes with any
    relabelling of them. *)
Lemma randLoop_fmap {A B : Type} (f : A -> B) (rnd : nat -> nat) (k : nat) :
  forall (i : nat) (arr : list A) (w : nat) (acc : list A),
    randLoop rnd k i (f <$> arr) w (f <$> acc)
    = (f <$> (randLoop rnd k i arr w acc).1,
       outcome_map (fmap f) (randLoop rnd k i arr w acc).2).
Proof.
  induction k as [|k IH]; intros i arr w acc; simpl.
  - reflexivity.
  - destruct (w =? 0); [reflexivity|].
    rewrite !list_lookup_fmap.
    destruct (arr !! (rnd i `mod` w)) as [x|]; simpl; [|reflexivity].
    destruct (arr !! (w - 1)) as [last|]; simpl; [|reflexivity].
    rewrite <- list_fmap_insert.
    change ((f <$> acc) ++ [f x]) with ((f <$> acc) ++ (f <$> [x])).
    rewrite <- fmap_app. apply IH.
Qed.

Section Sampling.

Context (E : Collab).

(** X24: on a structure holding P URLs and for n >= 0 that is a capacity
    [make] accepts, [GetRandomURLs] returns, without panic, exactly
    min(n, P) elements, each the element of a stored position and no
    position taken twice; when n >= P these are all the stored
    elements. *)
Theorem GetRandomURLs_sample (s : S E) (n : Z) (rnd : nat -> nat) :
  (0 <= n)%Z ->
  (n <= makeslice_maxcap E)%Z ->
  exists (randURLs : list URL) (picks : list nat) (s' : S E),
    GetRandomURLs (Some s) n rnd = (Returns (mk_slice randURLs), Some s') /\
    length randURLs = min (Z.to_nat n) (len (urls s)) /\
    NoDup picks /\
    Forall2 (fun p u => elems (urls s) !! p = Some u) picks randURLs /\
    (len (urls s) <= Z.to_nat n -> randURLs ≡ₚ elems (urls s)).
Proof.
  intros Hn Hcap.
  unfold GetRandomURLs.
  assert (Hneg : ((n <? 0) || (makeslice_maxcap E <? n))%Z = false).
  { apply orb_false_iff. split; [apply Z.ltb_ge | apply Z.ltb_ge]; assumption. }
  rewrite Hneg.
  set (l := elems (urls s)). set (P := len (urls s)).
  set (tl := imap (fun p u => (p, u)) l).
  assert (Hsnd : snd <$> tl = l).
  { unfold tl. rewrite fmap_imap. rewrite (imap_ext _ (fun _ u => u)).
    - rewrite (imap_const id). apply list_fmap_id.
    - reflexivity. }
  assert (Hfst : fst <$> tl = seq 0 P).
  { unfold tl. rewrite fmap_imap.
    rewrite (imap_ext _ (fun p _ => p)) by reflexivity.
    rewrite imap_seq_0. apply list_fmap_id. }
  destruct (randLoop_spec rnd (Z.to_nat n) 0 tl P [])
    as (r & arr' & Hrun & Hlen & Hr & Hperm).
  { unfold tl. rewrite length_imap. reflexivity. }
  pose proof (randLoop_fmap snd rnd (Z.to_nat n) 0 tl P []) as Hmap.
  rewrite Hrun, Hsnd in Hmap. simpl in Hmap. rewrite Hmap.
  assert (Htake : take P tl = tl).
  { apply take_ge. unfold tl. rewrite length_imap. reflexivity. }
  simpl in Hperm. rewrite Htake in Hperm.
  exists (snd <$> r), (fst <$> r).
  eexists. split; [reflexivity|].
  split; [rewrite length_fmap, Hr; reflexivity|].
  assert (Hnd : NoDup (fst <$> (r ++ take (P - min (Z.to_nat n) P) arr'))).
  { rewrite Hperm, Hfst. apply NoDup_seq. }
  split.
  { rewrite fmap_app in Hnd. apply NoDup_app in Hnd. apply Hnd. }
  split.
  { apply Forall2_fmap. apply Forall_Forall2_diag. apply Forall_forall.
    intros [p u] Hin. simpl.
    assert (Hin' : (p, u) ∈ tl).
    { rewrite <- Hperm. apply elem_of_app. left. exact Hin. }
    unfold tl in Hin'. apply elem_of_lookup_imap in Hin' as (p' & u' & Heq & Hl).
    injection Heq as -> ->. exact Hl. }
  intros Hall.
  replace (P - min (Z.to_nat n) P) with 0 in Hperm by (unfold P; lia).
  rewrite take_0, app_nil_r in Hperm.
  rewrite <- Hsnd. apply fmap_Permutation. exact Hperm.
Qed.

End Sampling.

(** * The properties on the example site *)

Module SiteFacts.
Import Site.

(** The index document with its two children, both let through. *)
Lemma parse_index_step_witness :
  parse_branch site index_doc = SitemapIndexBranch /\
  exists added st',
    exec (parse site index_url index_doc)
      (with_self (SetMultiThread true (self fresh)) fresh) = Some (added, st') /\
    len (sitemapLocations (self st')) = len (sitemapLocations (self fresh)) + 1 + 2 /\
    elems (sitemapLocations (self st')) =
      elems (sitemapLocations (self fresh))
      ++ index_url :: children_passing site (cfg (self fresh)) index_doc /\
    elems added = children_passing site (cfg (self fresh)) index_doc /\
    len added = 2.
Proof.
  split; [reflexivity|].
  apply (parse_index_step site true index_url index_doc fresh). reflexivity.
Defined.

(** A leaf document with one entry, let through. *)
Lemma parse_leaf_step_witness :
  parse_branch site a_doc = URLSetBranch /\
  length (entries_passing site (cfg (self fresh)) a_doc)
    <= len (URLSet_URL (parseURLSet site a_doc).1) /\
  exists added st',
    exec (parse site a_url a_doc) fresh = Some (added, st') /\
    len (urls (self st')) =
      len (urls (self fresh)) + length (entries_passing site (cfg (self fresh)) a_doc) /\
    elems (urls (self st')) =
      elems (urls (self fresh)) ++ entries_passing site (cfg (self fresh)) a_doc /\
    sitemapLocations (self st') = sitemapLocations (self fresh) /\
    len added = 0.
Proof.
  split; [reflexivity|].
  apply (parse_leaf_step site a_url a_doc fresh). reflexivity.
Defined.

(** C1, as stated, fails on the index document cut off inside its first
    child: index-parsing yields no child entry, and [parse] takes the
    index branch all the same, recording the document's locator. *)
Lemma cut_document_taken_as_index :
  len (Sitemap (parseSitemapIndex site cut_doc).1) = 0 /\
  parse_branch site cut_doc = SitemapIndexBranch /\
  (exists st', exec (parse site cut_url cut_doc) fresh = Some (nil_slice, st') /\
               sitemapLocations (self st') = mk_slice [cut_url]) /\
  ~ (parse_branch site cut_doc = SitemapIndexBranch <->
     0 < len (Sitemap (parseSitemapIndex site cut_doc).1)).
Proof.
  split; [reflexivity|]. split; [reflexivity|]. split.
  - eexists. split; reflexivity.
  - intros [H _]. specialize (H eq_refl). vm_compute in H. lia.
Qed.

(** The empty document, first of two sibling locations. *)
Lemma empty_content_records_two_errors_witness :
  exec (fetch site empty_url) fresh_sequential
    = Some (inl EmptyString, with_request empty_url fresh_sequential) /\
  let st1 := with_request empty_url fresh_sequential in
  let st2 :=
    with_self (field_set f_errs
                 (append (append (errs (self st1))
                            (errorString "sitemapindex is empty"))
                    (errorString "sitemap is empty"))
                 (self st1)) st1 in
  exec (parse site empty_url EmptyString) st1 = Some (nil_slice, st2) /\
  len (errs (self st2)) = len (errs (self fresh_sequential)) + 2 /\
  sitemapLocations (self st2) = sitemapLocations (self fresh_sequential) /\
  urls (self st2) = urls (self fresh_sequential) /\
  requests st2 = requests st1 /\
  exec (parseAndFetchUrlsSequential site 1 (mk_slice [empty_url; a_url])) fresh_sequential
  = exec (parseAndFetchUrlsSequential site 1 (mk_slice [a_url])) st2.
Proof.
  split; [reflexivity|].
  apply (empty_content_records_two_errors site 0 empty_url [a_url]
           fresh_sequential (with_request empty_url fresh_sequential)).
  reflexivity.
Defined.

(** C6, as stated, fails: fetching the empty document records two
    errors, not one. *)
Lemma empty_document_records_two_errors :
  exists st',
    exec (Parse site 1 empty_url None) fresh_sequential = Some (None, st') /\
    elems (errs (self st')) =
      [errorString "sitemapindex is empty"; errorString "sitemap is empty"] /\
    len (errs (self st')) <> 1.
Proof.
  eexists. split; [vm_compute; reflexivity|].
  split; [reflexivity | vm_compute; lia].
Qed.

(** An address that answers 404. *)
Lemma Parse_entry_fetch_fails_witness :
  len (errs (self fresh)) = 0 /\
  fetch_fails site (cfg (self fresh)) missing_url
    (errorString "received HTTP status 404") /\
  exists st',
    exec (Parse site 1 missing_url None) fresh
      = Some (Some (errorString "received HTTP status 404"), st') /\
    elems (errs (self st')) = [errorString "received HTTP status 404"] /\
    sitemapLocations (self st') = sitemapLocations (self fresh) /\
    urls (self st') = urls (self fresh) /\
    (len (sitemapLocations (self fresh)) = 0 -> len (sitemapLocations (self st')) = 0) /\
    (len (urls (self fresh)) = 0 -> len (urls (self st')) = 0) /\
    (requests st' = requests fresh \/ requests st' = requests fresh ++ [missing_url]).
Proof.
  assert (Hf : fetch_fails site (cfg (self fresh)) missing_url
                 (errorString "received HTTP status 404")).
  { apply (fails_status site (cfg (self fresh)) missing_url
             {| StatusCode := 404; Body := inl EmptyString |});
      [reflexivity | reflexivity | discriminate]. }
  split; [reflexivity|]. split; [exact Hf|].
  apply (Parse_entry_fetch_fails site 1 missing_url _ fresh); [reflexivity | exact Hf].
Defined.

(** A follow pattern that does not compile. *)
Lemma config_error_blocks_Parse_witness :
  let bad := errorString "error parsing regexp: missing closing ): `(`" in
  let st0 := with_self (SetFollow (mk_slice ["("]) (self fresh)) fresh in
  "(" ∈ elems (mk_slice ["("]) /\
  regexp_Compile site "(" = inr bad /\
  0 < len (errs (self st0)) /\
  (forall depth url urlContent,
     exec (Parse site depth url urlContent) st0 = Some (Some guardError, st0)) /\
  forall cs, exists rs st',
    perform_all cs st0 = Some (rs, st') /\
    Forall (fun r => forall e, r = Some e -> e = Some guardError) rs /\
    requests st' = requests st0 /\
    sitemapLocations (self st') = sitemapLocations (self st0) /\
    urls (self st') = urls (self st0) /\
    forall depth url urlContent,
      exec (Parse site depth url urlContent) st' = Some (Some guardError, st').
Proof.
  intros bad st0.
  assert (Hin : "(" ∈ elems (mk_slice ["("])) by (simpl; apply list_elem_of_here).
  split; [exact Hin|]. split; [reflexivity|].
  apply (config_error_blocks_Parse site (mk_slice ["("]) "(" bad fresh Hin eq_refl st0).
  left. reflexivity.
Defined.

(** Two of three stored URLs. *)
Lemma GetRandomURLs_sample_witness :
  (0 <= 2)%Z /\
  (2 <= makeslice_maxcap site)%Z /\
  exists (randURLs : list URL) (picks : list nat) (s' : S site),
    GetRandomURLs (Some three) 2 (fun _ => 0) = (Returns (mk_slice randURLs), Some s') /\
    length randURLs = min (Z.to_nat 2) (len (urls three)) /\
    NoDup picks /\
    Forall2 (fun p u => elems (urls three) !! p = Some u) picks randURLs /\
    (len (urls three) <= Z.to_nat 2 -> randURLs ≡ₚ elems (urls three)).
Proof.
  split; [lia|]. split; [vm_compute; discriminate|].
  apply (GetRandomURLs_sample site three 2 (fun _ => 0));
    [lia | vm_compute; discriminate].
Defined.

(** C5 fails on the code: with three URLs stored, [GetRandomURLs(1)]
    drawing position 0 returns the first URL and leaves the stored
    collection with its first element overwritten by the last: same
    length, but the first URL gone and the last one twice. *)
Theorem GetRandomURLs_overwrites_stored :
  GetRandomURLs (Some three) 1 (fun _ => 0)
    = (Returns (mk_slice [page_a]),
       Some (field_set f_urls (mk_slice [page_c; page_b; page_c]) three)) /\
  urls three = mk_slice [page_a; page_b; page_c] /\
  mk_slice [page_c; page_b; page_c] <> urls three.
Proof.
  split; [reflexivity|]. split; [reflexivity|]. discriminate.
Qed.

(** C2 fails on the code: for the index with two leaf children, the
    sequential strategy returns with both URLs stored, whatever the
    schedule; the concurrent strategy has a run (the two goroutines both
    read [s.urls] before either writes it back) that returns with one of
    the two URLs lost, the locations and errors being the same. *)
Theorem racing_goroutines_lose_a_url :
  (exists st_seq,
     exec (Parse site 2 index_url None) fresh_sequential = Some (None, st_seq) /\
     urls (self st_seq) = mk_slice [page_a; page_b] /\
     sitemapLocations (self st_seq) = mk_slice [index_url; a_url; b_url] /\
     errs (self st_seq) = nil_slice /\
     forall schedule err st',
       returns_under schedule (Parse site 2 index_url None) fresh_sequential err st' ->
       err = None /\ st' = st_seq) /\
  (exists st_mt,
     returns_under racing_schedule (Parse site 2 index_url None) fresh None st_mt /\
     urls (self st_mt) = mk_slice [page_b] /\
     sitemapLocations (self st_mt) = mk_slice [index_url; a_url; b_url] /\
     errs (self st_mt) = nil_slice) /\
  page_a ∈ [page_a; page_b] /\ page_a ∉ [page_b].
Proof.
  split; [|split].
  - eexists. split; [vm_compute; reflexivity|].
    split; [reflexivity|]. split; [reflexivity|]. split; [reflexivity|].
    intros schedule err st' H.
    apply returns_sequential in H; [|vm_compute; reflexivity].
    vm_compute in H. injection H as <- <-. split; reflexivity.
  - eexists. split; [unfold returns_under; vm_compute; reflexivity|].
    repeat split; reflexivity.
  - split; [apply list_elem_of_here|].
    intros H. apply list_elem_of_singleton in H. discriminate.
Qed.

(** C3 fails on the code: the entry document lists the two index
    documents [left.xml] and [right.xml], each with one child, all
    served.  With the sequential strategy each of the three index
    documents makes [sitemapLocations] longer by 1 + N (7 locators in
    all), whatever the schedule.  With the concurrent strategy there is
    a run (the goroutines of the two index documents both read
    [s.sitemapLocations] before either writes it back) that returns
    with 6: the parse step of [left.xml], N = 1, has left one locator,
    its own being lost; no error is recorded in either run. *)
Theorem racing_index_steps_lose_a_location :
  (parse_branch Nest.site Nest.root_doc = SitemapIndexBranch /\
   children_passing Nest.site (cfg (self Nest.fresh)) Nest.root_doc
     = [Nest.left_url; Nest.right_url] /\
   parse_branch Nest.site Nest.left_doc = SitemapIndexBranch /\
   children_passing Nest.site (cfg (self Nest.fresh)) Nest.left_doc = [a_url] /\
   parse_branch Nest.site Nest.right_doc = SitemapIndexBranch /\
   children_passing Nest.site (cfg (self Nest.fresh)) Nest.right_doc = [b_url]) /\
  (exists st_seq,
     exec (Parse Nest.site 3 Nest.root_url None) Nest.fresh_sequential
       = Some (None, st_seq) /\
     sitemapLocations (self st_seq)
       = mk_slice [Nest.root_url; Nest.left_url; Nest.right_url;
                   Nest.left_url; a_url; Nest.right_url; b_url] /\
     len (sitemapLocations (self st_seq)) = (1 + 2) + (1 + 1) + (1 + 1) /\
     errs (self st_seq) = nil_slice /\
     forall schedule err st',
       returns_under schedule (Parse Nest.site 3 Nest.root_url None)
         Nest.fresh_sequential err st' ->
       err = None /\ st' = st_seq) /\
  (exists st_mt,
     returns_under Nest.racing_schedule (Parse Nest.site 3 Nest.root_url None)
       Nest.fresh None st_mt /\
     sitemapLocations (self st_mt)
       = mk_slice [Nest.root_url; Nest.left_url; Nest.right_url;
                   Nest.right_url; a_url; b_url] /\
     len (sitemapLocations (self st_mt)) = 6 /\
     errs (self st_mt) = nil_slice /\
     requests st_mt
       = [Nest.root_url; Nest.left_url; Nest.right_url; a_url; b_url]).
Proof.
  split; [|split].
  - repeat split; vm_compute; reflexivity.
  - eexists. split; [vm_compute; reflexivity|].
    split; [reflexivity|]. split; [reflexivity|]. split; [reflexivity|].
    intros schedule err st' H.
    apply returns_sequential in H; [|vm_compute; reflexivity].
    vm_compute in H. injection H as <- <-. split; reflexivity.
  - eexists. split; [unfold returns_under; vm_compute; reflexivity|].
    repeat split; reflexivity.
Qed.

(** C9 fails on the code: with three URLs stored, [GetRandomURLs(5)]
    returns the three of them, as the test of the package for n above
    the number stored expects, but [GetRandomURLs(math.MaxInt64)], which
    also asks for more than is stored, panics in [make], whatever the
    draws: the capacity asked of [make] is n, not min(n, P).  The
    structure is left as it was.  The same on any platform, for every n
    above the capacity its [make] accepts. *)
Theorem GetRandomURLs_panics_on_large_n :
  len (urls three) = 3 /\
  (0 <= 5)%Z /\ (0 <= MaxInt64)%Z /\
  (exists randURLs s',
     GetRandomURLs (Some three) 5 (fun _ => 0)
       = (Returns (mk_slice randURLs), Some s') /\
     length randURLs = 3) /\
  (forall rnd : nat -> nat,
     GetRandomURLs (Some three) MaxInt64 rnd
       = (Panics "makeslice: cap out of range", Some three)) /\
  forall (E : Collab) (s : S E) (n : Z) (rnd : nat -> nat),
    (makeslice_maxcap E < n)%Z ->
    GetRandomURLs (Some s) n rnd
      = (Panics "makeslice: cap out of range", Some s).
Proof.
  split; [reflexivity|]. split; [lia|]. split; [vm_compute; discriminate|].
  split; [|split].
  - eexists _, _. split; [vm_compute; reflexivity | reflexivity].
  - intros rnd. reflexivity.
  - intros E s n rnd Hn. unfold GetRandomURLs.
    apply Z.ltb_lt in Hn. rewrite Hn, orb_true_r. reflexivity.
Qed.

End SiteFacts.

(** * Further properties *)

(** ** Strings *)

Lemma append_String (c : Ascii.ascii) (a b : string) :
  String c a +:+ b = String c (a +:+ b).
Proof. reflexivity. Qed.

Lemma append_nil_r (s : string) : s +:+ EmptyString = s.
Proof.
  induction s as [|c s IH]; [reflexivity|].
  rewrite append_String, IH. reflexivity.
Qed.

Lemma append_assoc (a b c : string) : (a +:+ b) +:+ c = a +:+ (b +:+ c).
Proof.
  induction a as [|x a IH]; [reflexivity|].
  rewrite !append_String, IH. reflexivity.
Qed.

Lemma prefix_append (s t : string) : String.prefix s (s +:+ t) = true.
Proof.
  induction s as [|c s IH].
  - destruct t; reflexivity.
  - rewrite append_String. cbn [String.prefix].
    destruct (Ascii.ascii_dec c c); [exact IH | congruence].
Qed.

(** Whether a one-character separator starts a string is decided by the
    first character. *)
Lemma prefix_char (c d : Ascii.ascii) (x y : string) :
  String.prefix (String c EmptyString) (String d x)
  = String.prefix (String c EmptyString) (String d y).
Proof.
  cbn [String.prefix].
  destruct (Ascii.ascii_dec c d); [destruct x, y|]; reflexivity.
Qed.

Lemma Contains_char_append (c : Ascii.ascii) (a b : string) :
  Contains (a +:+ b) (String c EmptyString)
  = Contains a (String c EmptyString) || Contains b (String c EmptyString).
Proof.
  induction a as [|d a IH].
  - reflexivity.
  - rewrite append_String. cbn [Contains]. rewrite IH, orb_assoc.
    rewrite (prefix_char c d (a +:+ b) a). reflexivity.
Qed.

Lemma Split_from_nonempty (sep : string) (s : string) :
  forall skip cur, Split_from sep skip cur s <> [].
Proof.
  induction s as [|c s IH]; intros skip cur; cbn [Split_from].
  - discriminate.
  - destruct skip; [|apply IH].
    destruct (String.prefix sep (String c s)); [discriminate | apply IH].
Qed.

Lemma Split_from_skip (sep : string) (a b : string) (cur : string) :
  Split_from sep (String.length a) cur (a +:+ b) = Split_from sep 0 cur b.
Proof.
  induction a as [|c a IH]; [reflexivity|].
  rewrite append_String. cbn [String.length Split_from]. exact IH.
Qed.

(** A piece that does not hold the separator is not split. *)
Lemma Split_from_free (c0 : Ascii.ascii) (sep' : string) (l : string) :
  forall cur,
    Contains l (String c0 sep') = false ->
    Split_from (String c0 sep') 0 cur l = [cur +:+ l].
Proof.
  induction l as [|c l IH]; intros cur H.
  - cbn [Split_from]. rewrite append_nil_r. reflexivity.
  - cbn [Contains] in H. apply orb_false_iff in H as [Hp Hc].
    cbn [Split_from]. rewrite Hp. rewrite (IH _ Hc), append_assoc. reflexivity.
Qed.

(** The text after the key, when the key does not come again. *)
Lemma Split_after_key (c0 : Ascii.ascii) (sep' : string) (u : string) :
  Contains u (String c0 sep') = false ->
  Split (String c0 sep' +:+ u) (String c0 sep') = [EmptyString; u].
Proof.
  intros H. unfold Split.
  rewrite append_String. cbn [Split_from].
  rewrite <- append_String, prefix_append.
  replace (String.length (String c0 sep') - 1) with (String.length sep')
    by (cbn [String.length]; lia).
  rewrite Split_from_skip, (Split_from_free c0 sep' u _ H). reflexivity.
Qed.

(** A line and the rest, for a separator of one character. *)
Lemma Split_from_line (c : Ascii.ascii) (l rest : string) :
  forall cur,
    Contains l (String c EmptyString) = false ->
    Split_from (String c EmptyString) 0 cur (l +:+ String c EmptyString +:+ rest)
    = (cur +:+ l) :: Split_from (String c EmptyString) 0 EmptyString rest.
Proof.
  induction l as [|d l IH]; intros cur H.
  - change (EmptyString +:+ String c EmptyString +:+ rest) with (String c rest).
    cbn [Split_from]. rewrite append_nil_r.
    replace (String.prefix (String c EmptyString) (String c rest)) with true.
    + reflexivity.
    + cbn [String.prefix].
      destruct (Ascii.ascii_dec c c); [destruct rest; reflexivity | congruence].
  - cbn [Contains] in H. apply orb_false_iff in H as [Hp Hc].
    rewrite append_String. cbn [Split_from].
    rewrite (prefix_char c d _ l), Hp.
    rewrite (IH _ Hc), append_assoc. reflexivity.
Qed.

(** Splitting what was joined gives the pieces back, for a separator of
    one character that is in none of the pieces. *)
Lemma Split_Join (c : Ascii.ascii) (pieces : list string) :
  pieces <> [] ->
  Forall (fun piece => Contains piece (String c EmptyString) = false) pieces ->
  Split (Join pieces (String c EmptyString)) (String c EmptyString) = pieces.
Proof.
  intros Hne Hall. unfold Split.
  induction Hall as [|x rest Hx Hrest IH]; [congruence|].
  destruct rest as [|y rest].
  - cbn [Join]. apply (Split_from_free c EmptyString x EmptyString Hx).
  - cbn [Join]. rewrite (Split_from_line c x _ EmptyString Hx).
    f_equal. apply IH. discriminate.
Qed.

Section FurtherProperties.

Context (E : Collab).

Abbreviation state := (state E).
Abbreviation prog := (prog E).

Ltac step_prog :=
  unfold mbind, prog_bind, mret, prog_ret, append_to, load, store; simpl.

Lemma exec_mbind_inv {A B : Type} (p : prog A) (k : A -> prog B) (st : state)
    (b : B) (st2 : state) :
  exec (p ≫= k) st = Some (b, st2) ->
  exists a st1, exec p st = Some (a, st1) /\ exec (k a) st1 = Some (b, st2).
Proof.
  rewrite exec_mbind. destruct (exec p st) as [[a st1]|]; [|discriminate].
  intros H. exists a, st1. split; [reflexivity | exact H].
Qed.

(** ** [parseRobotsTXT] *)

(** A line that starts with the key has a second piece when split at the
    key: the index 1 of [parseRobotsTXT] is in range. *)
Lemma key_line_has_second (line : string) :
  HasPrefix line sitemapKey = true ->
  is_Some (Split line sitemapKey !! 1).
Proof.
  unfold HasPrefix, Split. intros H.
  destruct line as [|c line]; [discriminate|].
  cbn [Split_from]. rewrite H.
  destruct (Split_from sitemapKey (String.length sitemapKey - 1) EmptyString line)
    as [|u rest] eqn:Hs.
  - exfalso. exact (Split_from_nonempty _ _ _ _ Hs).
  - exists u. reflexivity.
Qed.

(** What the body of the loop of [parseRobotsTXT] does with one line. *)
Lemma exec_robots_line (line : string) (st : state) :
  exec (if negb (HasPrefix line "Sitemap: ") then mret tt
        else
          match Split line "Sitemap: " !! 1 with
          | None => Abort "index out of range"
          | Some url => append_to E f_robotsTxtSitemapURLs url
          end) st
  = Some (tt,
          with_self (field_set f_robotsTxtSitemapURLs
                       (extend (robotsTxtSitemapURLs (self st))
                          (if HasPrefix line sitemapKey
                           then option_list (Split line sitemapKey !! 1)
                           else []))
                       (self st)) st).
Proof.
  change "Sitemap: " with sitemapKey.
  destruct (HasPrefix line sitemapKey) eqn:Hp; cbn [negb].
  - destruct (key_line_has_second line Hp) as [u Hu]. rewrite Hu.
    destruct st as [[] ? ?]. reflexivity.
  - destruct st as [[] ? ?]. reflexivity.
Qed.

(** The loop of [parseRobotsTXT] over any lines. *)
Lemma exec_robots_lines (lines : list string) :
  forall st : state,
    exec (for_range E lines
            (fun line (_ : unit) =>
               if negb (HasPrefix line "Sitemap: ") then mret tt
               else
                 match Split line "Sitemap: " !! 1 with
                 | None => Abort "index out of range"
                 | Some url => append_to E f_robotsTxtSitemapURLs url
                 end) tt) st
    = Some (tt,
            with_self (field_set f_robotsTxtSitemapURLs
                         (extend (robotsTxtSitemapURLs (self st))
                            (concat (map (fun line =>
                               if HasPrefix line sitemapKey
                               then option_list (Split line sitemapKey !! 1)
                               else []) lines)))
                         (self st)) st).
Proof.
  induction lines as [|line lines IH]; intros st.
  - destruct st as [[] ? ?]. reflexivity.
  - cbn [for_range]. rewrite exec_mbind, exec_robots_line, IH.
    cbn [map concat]. rewrite extend_app.
    destruct st as [[] ? ?]. reflexivity.
Qed.

(** X1: [parseRobotsTXT] returns on every content, so the index 1 it
    takes of a split line is always in range.  What it appends to the
    locations recorded before is, for each line that starts with the key
    and in the order of the lines, the second piece of that line split
    at the key: one location per such line, nothing for the other lines.
    It writes nothing else. *)
Theorem parseRobotsTXT_returns (content : string) (st : state) :
  exists found,
    exec (parseRobotsTXT E content) st
      = Some (tt,
              with_self (field_set f_robotsTxtSitemapURLs
                           (extend (robotsTxtSitemapURLs (self st)) found)
                           (self st)) st) /\
    Forall2 (fun line url => Split line sitemapKey !! 1 = Some url)
      (filter (fun line => HasPrefix line sitemapKey = true)
         (Split content newline))
      found /\
    length found
      = length (filter (fun line => HasPrefix line sitemapKey = true)
                  (Split content newline)).
Proof.
  unfold parseRobotsTXT. cbv zeta.
  eexists. split; [apply exec_robots_lines|].
  assert (G : Forall2 (fun line url => Split line sitemapKey !! 1 = Some url)
                (filter (fun line => HasPrefix line sitemapKey = true)
                   (Split content newline))
                (concat (map (fun line =>
                                if HasPrefix line sitemapKey
                                then option_list (Split line sitemapKey !! 1)
                                else []) (Split content newline)))).
  { induction (Split content newline) as [|line lines IH]; [constructor|].
    cbn [map concat]. rewrite filter_cons.
    destruct (HasPrefix line sitemapKey) eqn:Hp.
    - destruct (key_line_has_second line Hp) as [u Hu]. rewrite Hu.
      destruct (decide (true = true)); [|congruence].
      constructor; [exact Hu | exact IH].
    - destruct (decide (false = true)); [discriminate | exact IH]. }
  split; [exact G|]. symmetry. eapply Forall2_length, G.
Qed.

Lemma Contains_render (l : robots_line) :
  plain_line l = true -> Contains (render l) newline = false.
Proof.
  destruct l as [u | text]; cbn [plain_line render]; intros H;
    apply andb_true_iff in H as [Hn _]; apply negb_true_iff in Hn.
  - unfold newline in *. rewrite Contains_char_append, Hn. reflexivity.
  - exact Hn.
Qed.

Lemma found_in_plain_lines (ls : list robots_line) :
  forallb plain_line ls = true ->
  concat (map (fun line =>
                 if HasPrefix line sitemapKey
                 then option_list (Split line sitemapKey !! 1)
                 else []) (map render ls))
  = locations_of ls.
Proof.
  induction ls as [|l ls IH]; intros H; [reflexivity|].
  cbn [forallb] in H. apply andb_true_iff in H as [Hl Hls].
  cbn [map concat]. rewrite (IH Hls).
  destruct l as [u | text]; cbn [plain_line render] in *;
    apply andb_true_iff in Hl as [_ Hk]; apply negb_true_iff in Hk.
  - unfold HasPrefix. rewrite prefix_append.
    assert (Hs : Split (sitemapKey +:+ u) sitemapKey = [EmptyString; u])
      by (apply (Split_after_key (Ascii.ascii_of_nat 83) "itemap: " u); exact Hk).
    rewrite Hs. reflexivity.
  - rewrite Hk. reflexivity.
Qed.

(** X2: For a robots.txt made of plain lines, [parseRobotsTXT] records the
    locations of its Sitemap lines, each exactly the text that follows the
    key (nothing is trimmed), in the order of the lines; the other lines
    are ignored. *)
Theorem parseRobotsTXT_lines (ls : list robots_line) (st : state) :
  forallb plain_line ls = true ->
  exec (parseRobotsTXT E (Join (map render ls) newline)) st
  = Some (tt,
          with_self (field_set f_robotsTxtSitemapURLs
                       (extend (robotsTxtSitemapURLs (self st)) (locations_of ls))
                       (self st)) st).
Proof.
  intros H. unfold parseRobotsTXT. cbv zeta.
  rewrite exec_robots_lines.
  destruct ls as [|l ls].
  - reflexivity.
  - unfold newline at 1 2. rewrite Split_Join.
    + rewrite (found_in_plain_lines _ H). reflexivity.
    + discriminate.
    + apply Forall_fmap. apply Forall_forall. intros l' Hin.
      apply Contains_render.
      rewrite forallb_forall in H. apply H. apply list_elem_of_In, Hin.
Qed.

(** ** [fetch] *)

(** X3: [fetch] returns on every locator.  It sends a request exactly when
    the request could be built, and writes nothing.  It returns a content
    exactly when the response has status 200 and a body that could be
    read, this body; every other outcome is one of the four failures. *)
Theorem fetch_outcome (url : string) (st : state) :
  exists r,
    exec (fetch E url) st
      = Some (r, match http_NewRequest E url with
                 | Some _ => st
                 | None => with_request url st
                 end) /\
    match r with
    | inl content =>
        http_NewRequest E url = None /\
        exists response,
          client_Do E (fetchTimeout (cfg (self st))) (userAgent (cfg (self st))) url
            = inl response /\
          StatusCode response = 200%Z /\
          Body response = inl content
    | inr err => fetch_fails E (cfg (self st)) url err
    end.
Proof.
  unfold fetch. step_prog.
  destruct (http_NewRequest E url) as [err|] eqn:Hreq; simpl.
  - eexists. split; [reflexivity|]. apply fails_request, Hreq.
  - destruct (client_Do E _ _ url) as [response|err] eqn:Hdo; simpl.
    + destruct (StatusCode response =? 200)%Z eqn:Hst; simpl.
      * apply Z.eqb_eq in Hst.
        destruct (Body response) as [body|err] eqn:Hbody; simpl;
          eexists; (split; [reflexivity|]).
        -- split; [reflexivity|]. exists response. auto.
        -- eapply fails_body; eauto.
      * apply Z.eqb_neq in Hst.
        eexists. split; [reflexivity|]. eapply fails_status; eauto.
    + eexists. split; [reflexivity|]. apply fails_transport; assumption.
Qed.

Lemma exec_fetch_serves (url content : string) (st : state) :
  serves E (cfg (self st)) url content ->
  exec (fetch E url) st = Some (inl content, with_request url st).
Proof.
  intros (Hreq & Hdo & _). unfold fetch. step_prog.
  rewrite Hreq. simpl. rewrite Hdo. reflexivity.
Qed.

(** ** [checkAndUnzipContent] and [unzip] *)

Lemma exec_checkAndUnzipContent (content : string) (st : state) :
  exec (checkAndUnzipContent E content) st
  = Some (if HasPrefix content gzipPrefix
          then match (unzip E content).2 with
               | Some _ => content
               | None => (unzip E content).1
               end
          else content,
          if HasPrefix content gzipPrefix
          then match (unzip E content).2 with
               | Some e =>
                   with_self (field_set f_errs (append (errs (self st)) e) (self st)) st
               | None => st
               end
          else st).
Proof.
  unfold checkAndUnzipContent.
  destruct (HasPrefix content gzipPrefix); [|reflexivity].
  destruct (unzip E content) as [uncompressed [e|]]; reflexivity.
Qed.

(** X4: [checkAndUnzipContent] returns on every content, and records at most
    one error.  A content that does not start with the gzip marker comes
    back as it is, nothing recorded.  When an error is recorded the
    content comes back as it is; a content that comes back changed is
    what the decompressor read, nothing recorded: either the whole stream
    was read, or it ended early, which is not held to be an error. *)
Theorem checkAndUnzipContent_outcome (content : string) (st : state) :
  exists result st',
    exec (checkAndUnzipContent E content) st = Some (result, st') /\
    (HasPrefix content gzipPrefix = false -> result = content /\ st' = st) /\
    (st' = st \/
     exists e,
       result = content /\
       st' = with_self (field_set f_errs (append (errs (self st)) e) (self st)) st /\
       (gzip_NewReader E content = Some e \/
        (io_ReadAll E content).2 = Some e /\ is_ErrUnexpectedEOF E e = false)) /\
    (result <> content ->
       st' = st /\
       gzip_NewReader E content = None /\
       result = (io_ReadAll E content).1 /\
       match (io_ReadAll E content).2 with
       | Some e => is_ErrUnexpectedEOF E e = true
       | None => True
       end).
Proof.
  eexists _, _. split; [apply exec_checkAndUnzipContent|].
  destruct (HasPrefix content gzipPrefix).
  - split; [discriminate|].
    unfold unzip.
    destruct (gzip_NewReader E content) as [e|]; cbn [fst snd].
    + split; [|congruence]. right. exists e. auto.
    + destruct (io_ReadAll E content) as [uncompressed [e|]]; cbn [fst snd].
      * destruct (is_ErrUnexpectedEOF E e) eqn:Heof; cbn [negb fst snd].
        -- split; [left; reflexivity|]. intros _. auto.
        -- split; [|congruence]. right. exists e. auto.
      * split; [left; reflexivity|]. intros _. auto.
  - split; [auto|]. split; [left; reflexivity | congruence].
Qed.

(** ** Which errors [parse] records *)

(** X5: Of the two decoding errors of a document, [parse] records: in the
    index branch the index error alone, and only when leaf-decoding left
    no entry; in the leaf branch the leaf error alone; in neither branch
    both, the index error first.  So never more than two, and a document
    taken as an index or as a leaf set never has both recorded. *)
Theorem parse_records_errors_by_branch (url content : string) (st : state) :
  exists st',
    exec (parse E url content) st
      = Some (parse_result E (cfg (self st)) content, st') /\
    elems (errs (self st'))
      = elems (errs (self st)) ++
        match parse_branch E content with
        | SitemapIndexBranch =>
            if len (URLSet_URL (parseURLSet E content).1) =? 0
            then option_list (parseSitemapIndex E content).2
            else []
        | URLSetBranch => option_list (parseURLSet E content).2
        | NoBranch =>
            option_list (parseSitemapIndex E content).2
            ++ option_list (parseURLSet E content).2
        end /\
    len (errs (self st')) <= len (errs (self st)) + 2 /\
    (parse_branch E content <> NoBranch ->
       len (errs (self st')) <= len (errs (self st)) + 1).
Proof.
  eexists. split; [apply exec_parse|].
  cbn [self with_self]. rewrite after_parse_errs.
  unfold len. rewrite elems_extend, length_app.
  unfold parse_errors, parse_branch.
  destruct (parseSitemapIndex E content) as [smIndex [e1|]];
    destruct (parseURLSet E content) as [urlSet [e2|]]; cbn [fst snd option_list];
    destruct (is_nil (Sitemap smIndex)); cbn [negb];
    unfold len;
    destruct (elems (URLSet_URL urlSet)) as [|u us]; cbn [length Nat.eqb Nat.ltb Nat.leb app];
    (split; [reflexivity|]); cbn [length]; (split; [lia|]); intros Hb;
    try lia; congruence.
Qed.

(** ** What a run leaves alone *)

Lemma only_appends_refl (st : state) : only_appends st st.
Proof. constructor; reflexivity. Qed.

Lemma only_appends_trans (st1 st2 st3 : state) :
  only_appends st1 st2 -> only_appends st2 st3 -> only_appends st1 st3.
Proof.
  intros [] []. constructor; try congruence; etrans; eassumption.
Qed.

Lemma traversal_frame_refl (st : state) : traversal_frame st st.
Proof. split; [apply only_appends_refl | auto]. Qed.

Lemma traversal_frame_trans (st1 st2 st3 : state) :
  traversal_frame st1 st2 -> traversal_frame st2 st3 -> traversal_frame st1 st3.
Proof.
  intros (Ha & ? & ? & ?) (Hb & ? & ? & ?).
  split; [eapply only_appends_trans; eassumption|].
  repeat split; congruence.
Qed.

Lemma traversal_frame_same_self (st st' : state) :
  self st' = self st -> mu st' = mu st -> requests st `prefix_of` requests st' ->
  traversal_frame st st'.
Proof.
  intros Hs Hm Hr. split; [constructor|]; rewrite ?Hs; auto.
Qed.

Lemma frame_fetch (url : string) (st : state) r (st' : state) :
  exec (fetch E url) st = Some (r, st') -> traversal_frame st st'.
Proof.
  intros H.
  destruct (exec_fetch E url st) as (r0 & st0 & Hex & Hself & Hmu & Hreq).
  rewrite Hex in H. injection H as -> ->.
  apply traversal_frame_same_self; auto.
  destruct Hreq as [-> | ->]; [reflexivity | apply prefix_app_r; reflexivity].
Qed.

Lemma frame_append_errs (e : error) (st : state) :
  traversal_frame st
    (with_self (field_set f_errs (append (errs (self st)) e) (self st)) st).
Proof.
  destruct st as [[] ? ?].
  split; [constructor|]; cbn; auto; try reflexivity.
  apply prefix_app_r. reflexivity.
Qed.

Lemma frame_checkAndUnzipContent (content : string) (st : state) r (st' : state) :
  exec (checkAndUnzipContent E content) st = Some (r, st') -> traversal_frame st st'.
Proof.
  rewrite exec_checkAndUnzipContent. intros H. injection H as _ <-.
  destruct (HasPrefix content gzipPrefix); [|apply traversal_frame_refl].
  destruct (unzip E content).2;
    [apply frame_append_errs | apply traversal_frame_refl].
Qed.

Lemma frame_parse (url content : string) (st : state) :
  traversal_frame st (with_self (after_parse E url content (self st)) st).
Proof.
  split; [constructor|]; cbn [self with_self mu requests]; try reflexivity.
  - rewrite after_parse_sitemapLocations, elems_extend.
    apply prefix_app_r. reflexivity.
  - rewrite after_parse_urls, elems_extend. apply prefix_app_r. reflexivity.
  - rewrite after_parse_errs, elems_extend. apply prefix_app_r. reflexivity.
  - auto.
Qed.

(** A loop keeps what each turn of its body keeps. *)
Lemma exec_for_range_preserves {A L : Type} (R : state -> state -> Prop)
    (l : list A) (body : A -> L -> prog L) :
  (forall st, R st st) ->
  (forall a b c, R a b -> R b c -> R a c) ->
  (forall x locals st r st', exec (body x locals) st = Some (r, st') -> R st st') ->
  forall locals st r st',
    exec (for_range E l body locals) st = Some (r, st') -> R st st'.
Proof.
  intros Hrefl Htrans Hbody.
  induction l as [|x l IH]; intros locals st r st' H; cbn [for_range] in H.
  - rewrite exec_mret in H. injection H as _ <-. apply Hrefl.
  - apply exec_mbind_inv in H as (locals' & st1 & H1 & H2).
    eapply Htrans; [eapply Hbody, H1 | eapply IH, H2].
Qed.

Lemma frame_traversal (depth : nat) :
  forall (locations : slice string) (st : state) r (st' : state),
    exec (parseAndFetchUrlsSequential E depth locations) st = Some (r, st') ->
    traversal_frame st st'.
Proof.
  induction depth as [|depth IH]; intros locations st r st' H; [discriminate|].
  cbn [parseAndFetchUrlsSequential] in H.
  revert H.
  apply exec_for_range_preserves;
    [apply traversal_frame_refl | apply traversal_frame_trans |].
  clear st r st'. intros location [] st r st' H.
  apply exec_mbind_inv in H as (fr & st1 & Hf & H).
  apply frame_fetch in Hf.
  eapply traversal_frame_trans; [exact Hf|].
  destruct fr as [content|err].
  - apply exec_mbind_inv in H as (content' & st2 & Hc & H).
    apply frame_checkAndUnzipContent in Hc.
    eapply traversal_frame_trans; [exact Hc|].
    rewrite exec_mbind, exec_parse in H.
    eapply traversal_frame_trans; [apply frame_parse|].
    destruct (0 <? len (parse_result E (cfg (self st2)) content')).
    + eapply IH, H.
    + rewrite exec_mret in H. injection H as _ <-. apply traversal_frame_refl.
  - rewrite exec_append_to in H. injection H as _ <-. apply frame_append_errs.
Qed.

(** X6: A traversal that returns has only appended: the configuration, the
    entry locator and content and the robots.txt locations are as they
    were, and [sitemapLocations], [urls], [errs] and the requests sent
    begin with what they held.  This for the sequential strategy, and for
    the concurrent one when its goroutines run one after the other. *)
Theorem traversal_only_appends (depth : nat) (locations : slice string)
    (st st' : state) :
  exec (parseAndFetchUrlsSequential E depth locations) st = Some (tt, st') \/
  exec (parseAndFetchUrlsMultiThread E depth locations) st = Some (tt, st') ->
  traversal_frame st st'.
Proof.
  intros [H | H].
  - eapply frame_traversal, H.
  - rewrite strategies_agree_serialised in H. eapply frame_traversal, H.
Qed.

(** ** [Parse], from its result *)

Lemma fetch_error_inv (url : string) (st : state) (err : error) (st' : state) :
  exec (fetch E url) st = Some (inr err, st') ->
  fetch_fails E (cfg (self st)) url err.
Proof.
  unfold fetch. step_prog.
  destruct (http_NewRequest E url) as [e|] eqn:Hreq; simpl.
  - intros H. injection H as -> _. apply fails_request, Hreq.
  - destruct (client_Do E _ _ url) as [response|e] eqn:Hdo; simpl.
    + destruct (StatusCode response =? 200)%Z eqn:Hst; simpl.
      * apply Z.eqb_eq in Hst.
        destruct (Body response) as [body|e] eqn:Hbody; simpl; intros H;
          [discriminate|].
        injection H as -> _. eapply fails_body; eauto.
      * apply Z.eqb_neq in Hst. intros H. injection H as <- _.
        eapply fails_status; eauto.
    + intros H. injection H as -> _. apply fails_transport; assumption.
Qed.

Lemma exec_parseRobotsTXT (content : string) (st : state) :
  exec (parseRobotsTXT E content) st
  = Some (tt,
          with_self (field_set f_robotsTxtSitemapURLs
                       (extend (robotsTxtSitemapURLs (self st))
                          (concat (map (fun line =>
                             if HasPrefix line sitemapKey
                             then option_list (Split line sitemapKey !! 1)
                             else []) (Split content newline))))
                       (self st)) st).
Proof. unfold parseRobotsTXT. cbv zeta. apply exec_robots_lines. Qed.

Lemma only_appends_robots (l : list string) (st : state) :
  only_appends st
    (with_self (field_set f_robotsTxtSitemapURLs
                  (extend (robotsTxtSitemapURLs (self st)) l) (self st)) st).
Proof.
  destruct st as [[] ? ?]. constructor; cbn; try reflexivity.
  rewrite elems_extend. apply prefix_app_r. reflexivity.
Qed.

Lemma only_appends_mainURL (v : string) (st : state) :
  only_appends st (with_self (field_set f_mainURL v (self st)) st).
Proof. destruct st as [[] ? ?]. constructor; reflexivity. Qed.

Lemma only_appends_mainURLContent (v : string) (st : state) :
  only_appends st (with_self (field_set f_mainURLContent v (self st)) st).
Proof. destruct st as [[] ? ?]. constructor; reflexivity. Qed.

Lemma frame_with_mu (st st2 : state) :
  mu st = false ->
  traversal_frame (with_mu true st) st2 ->
  traversal_frame st (with_mu false st2).
Proof.
  intros Hm ([] & ? & ? & ?).
  split; [constructor|]; cbn in *; auto.
Qed.

Lemma frame_setContent (urlContent : option string) (st : state) r (st' : state) :
  exec (setContent E urlContent) st = Some (r, st') -> traversal_frame st st'.
Proof.
  unfold setContent. destruct urlContent as [content|].
  - rewrite exec_mret. intros H. injection H as _ <-. apply traversal_frame_refl.
  - rewrite exec_mbind, exec_load. intros H.
    apply exec_mbind_inv in H as (fr & st1 & Hf & H).
    apply frame_fetch in Hf.
    destruct fr; rewrite exec_mret in H; injection H as _ <-; exact Hf.
Qed.

(** The three ways [Parse] returns. *)
Lemma Parse_inv (depth : nat) (url : string) (urlContent : option string)
    (st : state) (r : option error) (st' : state) :
  exec (Parse E depth url urlContent) st = Some (r, st') ->
  (0 < len (errs (self st)) /\ r = Some guardError /\ st' = st) \/
  (len (errs (self st)) = 0 /\
   exists err st1,
     urlContent = None /\ r = Some err /\
     exec (fetch E url) (with_self (field_set f_mainURL url (self st)) st)
       = Some (inr err, st1) /\
     st' = with_self (field_set f_errs (append (errs (self st1)) err)
                        (field_set f_mainURLContent EmptyString (self st1))) st1) \/
  (len (errs (self st)) = 0 /\ r = None /\
   exists content st1,
     exec (setContent E urlContent) (with_self (field_set f_mainURL url (self st)) st)
       = Some ((content, None), st1) /\
     only_appends (with_self (field_set f_mainURLContent content (self st1)) st1) st' /\
     mainURL (self st') = url).
Proof.
  unfold Parse. rewrite exec_mbind, exec_load.
  change (field_get f_errs (self st)) with (errs (self st)).
  destruct (0 <? len (errs (self st))) eqn:Hlen.
  { rewrite exec_mret. intros H. injection H as <- <-.
    left. apply Nat.ltb_lt in Hlen. auto. }
  apply Nat.ltb_ge in Hlen. assert (Hz : len (errs (self st)) = 0) by lia.
  rewrite exec_mbind, exec_store. intros H. right.
  apply exec_mbind_inv in H as ([content err] & st1 & Hset & H).
  rewrite exec_mbind, exec_store in H.
  destruct err as [err|].
  - left. split; [exact Hz|].
    rewrite exec_mbind, exec_append_to, exec_mret in H. injection H as <- <-.
    unfold setContent in Hset. destruct urlContent as [c|]; [discriminate|].
    rewrite exec_mbind, exec_load in Hset.
    change (field_get f_mainURL
              (self (with_self (field_set f_mainURL url (self st)) st)))
      with url in Hset.
    apply exec_mbind_inv in Hset as (fr & st0 & Hf & Hset).
    destruct fr as [c|e]; rewrite exec_mret in Hset; [discriminate|].
    injection Hset as <- <- <-.
    exists e, st0. repeat split; auto.
  - right. split; [exact Hz|].
    assert (Hurl : mainURL (self st1) = url).
    { apply frame_setContent in Hset. destruct Hset as (_ & Hm & _).
      rewrite Hm. destruct st as [[] ? ?]. reflexivity. }
    set (st2 := with_self (field_set f_mainURLContent content (self st1)) st1) in *.
    assert (Hurl2 : mainURL (self st2) = url)
      by (subst st2; destruct st1 as [[] ? ?]; exact Hurl).
    rewrite exec_mbind, exec_load in H.
    apply exec_mbind_inv in H as ([] & st3 & H & Hret).
    rewrite exec_mret in Hret. injection Hret as <- <-.
    split; [reflexivity|].
    exists content, st1. split; [exact Hset|].
    fold st2. clearbody st2. clear Hset Hurl st1.
    destruct (HasSuffix (field_get f_mainURL (self st2)) "/robots.txt").
    + rewrite exec_mbind, exec_load, exec_mbind, exec_parseRobotsTXT in H.
      rewrite exec_mbind, exec_load, exec_go_wait in H.
      match type of H with
      | exec _ ?st0 = _ =>
          assert (H0 : only_appends st2 st0 /\ mainURL (self st0) = url)
      end.
      { split; [apply only_appends_robots|].
        destruct st2 as [[] ? ?]. exact Hurl2. }
      destruct H0 as [H0 H0'].
      apply (exec_for_range_preserves traversal_frame) in H;
        [ | apply traversal_frame_refl | apply traversal_frame_trans | ].
      * destruct H as (H & Hm & _).
        split; [eapply only_appends_trans; eassumption | congruence].
      * clear. intros rTXTsmURL [] st r st' H.
        rewrite exec_mbind in H. cbn [exec lock] in H.
        destruct (mu st) eqn:Hmu; [discriminate|].
        change (exec (Ret tt) (with_mu true st)) with (Some (tt, with_mu true st)) in H.
        cbv iota beta in H.
        apply exec_mbind_inv in H as (fr & st1 & Hf & H).
        apply frame_fetch in Hf.
        assert (G : forall st4, traversal_frame (with_mu true st) st4 ->
                      exec (unlock E) st4 = Some (r, st') -> traversal_frame st st').
        { intros st4 Hfr Hun. cbn [exec unlock] in Hun.
          destruct (mu st4); [|discriminate].
          injection Hun as _ <-. apply frame_with_mu; assumption. }
        destruct fr as [content|err].
        -- apply exec_mbind_inv in H as (content' & st2 & Hc & H).
           apply frame_checkAndUnzipContent in Hc.
           rewrite exec_mbind, exec_load in H.
           apply exec_mbind_inv in H as ([] & st4 & H & Hun).
           apply (G st4); [|exact Hun].
           eapply traversal_frame_trans; [exact Hf|].
           eapply traversal_frame_trans; [exact Hc|].
           destruct (multiThread (field_get f_cfg (self st2)));
             rewrite exec_mbind, exec_parse in H;
             (eapply traversal_frame_trans; [apply frame_parse|]);
             [rewrite strategies_agree_serialised in H|];
             eapply frame_traversal, H.
        -- apply exec_mbind_inv in H as ([] & st4 & H & Hun).
           rewrite exec_append_to in H. injection H as <-.
           eapply G; [|exact Hun].
           eapply traversal_frame_trans; [exact Hf | apply frame_append_errs].
    + rewrite exec_mbind, exec_load in H.
      apply exec_mbind_inv in H as (content' & st4 & Hc & H).
      apply frame_checkAndUnzipContent in Hc.
      rewrite exec_mbind, exec_store, exec_mbind, exec_load in H.
      match type of H with
      | exec _ ?st0 = _ =>
          assert (H0 : only_appends st2 st0 /\ mainURL (self st0) = url)
      end.
      { destruct Hc as (Hc & Hm & _). split.
        - eapply only_appends_trans; [exact Hc | apply only_appends_mainURLContent].
        - destruct st4 as [[] ? ?]. cbn in *. congruence. }
      destruct H0 as [H0 H0'].
      match type of H with
      | exec _ ?st0 = _ => generalize dependent st0
      end.
      intros st5 H H0 H0'.
      assert (G : traversal_frame st5 st3).
      { destruct (multiThread (field_get f_cfg (self st5)));
          rewrite exec_mbind, exec_load, exec_mbind, exec_load,
            exec_mbind, exec_parse in H;
          (eapply traversal_frame_trans; [apply frame_parse|]);
          [rewrite strategies_agree_serialised in H|];
          eapply frame_traversal, H. }
      destruct G as (G & Hm & _).
      split; [eapply only_appends_trans; eassumption | congruence].
Qed.

(** X7: A call of [Parse] that returns has only appended to the four slices
    of the structure and to the requests sent, and has left the
    configuration as it was (goroutines running one after the other). *)
Theorem Parse_only_appends (depth : nat) (url : string)
    (urlContent : option string) (st : state) (r : option error) (st' : state) :
  exec (Parse E depth url urlContent) st = Some (r, st') ->
  only_appends st st'.
Proof.
  intros H. apply Parse_inv in H as [(_ & _ & ->) | [H | H]].
  - apply only_appends_refl.
  - destruct H as (_ & err & st1 & _ & _ & Hf & ->).
    apply frame_fetch in Hf. destruct Hf as (Hf & _).
    eapply only_appends_trans; [apply only_appends_mainURL|].
    eapply only_appends_trans; [exact Hf|].
    eapply only_appends_trans; [apply only_appends_mainURLContent|].
    match goal with
    | |- only_appends ?a _ => pose proof (frame_append_errs err a) as (G & _)
    end.
    destruct st1 as [[] ? ?]. exact G.
  - destruct H as (_ & _ & content & st1 & Hset & Hrest & _).
    apply frame_setContent in Hset. destruct Hset as (Hset & _).
    eapply only_appends_trans; [apply only_appends_mainURL|].
    eapply only_appends_trans; [exact Hset|].
    eapply only_appends_trans; [apply only_appends_mainURLContent | exact Hrest].
Qed.

(** X8: What the error [Parse] returns tells.  An error returned is the
    guard error, the structure holding errors already and nothing having
    been done; or it is the failure of the first fetch, no content having
    been passed in, and it is the one error held.  Either way no sitemap
    was gone through: the three collections are as they were.  Errors met
    later are recorded, not returned: on [nil] the entry locator is set,
    and there was no error to begin with. *)
Theorem Parse_returned_error (depth : nat) (url : string)
    (urlContent : option string) (st : state) (r : option error) (st' : state) :
  exec (Parse E depth url urlContent) st = Some (r, st') ->
  match r with
  | Some err =>
      robotsTxtSitemapURLs (self st') = robotsTxtSitemapURLs (self st) /\
      sitemapLocations (self st') = sitemapLocations (self st) /\
      urls (self st') = urls (self st) /\
      0 < len (errs (self st')) /\
      (err = guardError /\ 0 < len (errs (self st)) /\ st' = st \/
       urlContent = None /\ len (errs (self st)) = 0 /\
       fetch_fails E (cfg (self st)) url err /\
       elems (errs (self st')) = [err])
  | None => len (errs (self st)) = 0 /\ mainURL (self st') = url
  end.
Proof.
  intros H. apply Parse_inv in H as [(Hlen & -> & ->) | [H | H]].
  - repeat split; auto.
  - destruct H as (Hz & err & st1 & -> & -> & Hf & ->).
    pose proof (fetch_error_inv _ _ _ _ Hf) as Hfails.
    destruct (exec_fetch E url (with_self (field_set f_mainURL url (self st)) st))
      as (r0 & st0 & Hex & Hself & _).
    rewrite Hex in Hf. injection Hf as -> ->.
    assert (He : elems (errs (self st)) = []).
    { unfold len in Hz. destruct (elems (errs (self st))); [reflexivity | discriminate]. }
    destruct st1 as [s1 ? ?]. cbn in Hself. subst s1.
    destruct st as [[] ? ?]. cbn in *.
    repeat split; auto.
    + unfold len. cbn. rewrite He. cbn. lia.
    + right. repeat split; auto. rewrite He. reflexivity.
  - destruct H as (Hz & -> & _ & _ & _ & _ & Hurl). auto.
Qed.

(** ** A level of documents without a child to follow *)

Lemma after_documents_cons (doc : string * string) (docs : list (string * string))
    (s : S E) :
  after_documents E (doc :: docs) s
  = after_documents E docs (after_parse E doc.1 doc.2 s).
Proof. reflexivity. Qed.

(** One turn of the loop of a traversal, on a document that is served
    and has no child to follow. *)
Lemma exec_visit_leaf (depth : nat) (url content : string) (st : state) :
  serves E (cfg (self st)) url content ->
  parse_result E (cfg (self st)) content = nil_slice ->
  exec (r ← fetch E url;
        match r with
        | inr err => append_to E f_errs err
        | inl content =>
            content ← checkAndUnzipContent E content;
            parsedLocations ← parse E url content;
            if 0 <? len parsedLocations
            then parseAndFetchUrlsSequential E depth parsedLocations
            else mret tt
        end) st
  = Some (tt, with_self (after_parse E url content (self st)) (with_request url st)).
Proof.
  intros Hs Hnil.
  rewrite exec_mbind, (exec_fetch_serves _ _ _ Hs).
  rewrite exec_mbind, exec_checkAndUnzipContent.
  destruct Hs as (_ & _ & ->).
  rewrite exec_mbind, exec_parse.
  change (cfg (self (with_request url st))) with (cfg (self st)).
  rewrite Hnil. reflexivity.
Qed.

(** A loop whose body does, on each document, what [exec_visit_leaf]
    says. *)
Lemma exec_for_range_documents (body : string -> unit -> prog unit)
    (c : config E) (m : bool) (docs : list (string * string)) :
  (forall url content st,
     (url, content) ∈ docs -> cfg (self st) = c -> mu st = m ->
     exec (body url tt) st
     = Some (tt, with_self (after_parse E url content (self st))
                   (with_request url st))) ->
  forall st,
    cfg (self st) = c -> mu st = m ->
    exec (for_range E (map fst docs) body tt) st
    = Some (tt, {| self := after_documents E docs (self st);
                   requests := requests st ++ map fst docs;
                   mu := mu st |}).
Proof.
  induction docs as [|[url content] docs IH]; intros Hbody st Hc Hm.
  - cbn. rewrite app_nil_r. destruct st; reflexivity.
  - cbn [map for_range fst].
    rewrite exec_mbind, (Hbody url content st); [|left|exact Hc|exact Hm].
    rewrite IH.
    + rewrite after_documents_cons.
      cbn [fst snd self with_self with_request requests mu].
      rewrite <- app_assoc. reflexivity.
    + intros url' content' st' Hin. apply Hbody. right. exact Hin.
    + exact Hc.
    + exact Hm.
Qed.

Lemma exec_traversal_leaves (depth : nat) (locations : slice string)
    (docs : list (string * string)) (st : state) :
  elems locations = map fst docs ->
  Forall (fun doc => serves E (cfg (self st)) doc.1 doc.2 /\
                     parse_result E (cfg (self st)) doc.2 = nil_slice) docs ->
  exec (parseAndFetchUrlsSequential E (Datatypes.S depth) locations) st
  = Some (tt, {| self := after_documents E docs (self st);
                 requests := requests st ++ map fst docs;
                 mu := mu st |}).
Proof.
  intros Hl Hdocs. cbn [parseAndFetchUrlsSequential]. rewrite Hl.
  apply (exec_for_range_documents _ (cfg (self st)) (mu st)); [|reflexivity..].
  intros url content st0 Hin Hc _.
  rewrite Forall_forall in Hdocs. destruct (Hdocs _ Hin) as [Hs Hnil].
  cbn [fst snd] in Hs, Hnil. rewrite <- Hc in Hs, Hnil.
  apply exec_visit_leaf; assumption.
Qed.

(** X9: A traversal over documents that are served and have no child to
    follow returns, whatever the bound on nesting (at least 1): it has
    sent one request per document, in their order, and the structure is
    the one left by [parse] on each document in turn.  This for the
    sequential strategy, and for the concurrent one when its goroutines
    run one after the other in the order they were started. *)
Theorem traversal_of_leaves (depth : nat) (docs : list (string * string))
    (st : state) :
  Forall (fun doc => serves E (cfg (self st)) doc.1 doc.2 /\
                     parse_result E (cfg (self st)) doc.2 = nil_slice) docs ->
  let st' := {| self := after_documents E docs (self st);
                requests := requests st ++ map fst docs;
                mu := mu st |} in
  exec (parseAndFetchUrlsSequential E (Datatypes.S depth) (mk_slice (map fst docs))) st
    = Some (tt, st') /\
  exec (parseAndFetchUrlsMultiThread E (Datatypes.S depth) (mk_slice (map fst docs))) st
    = Some (tt, st').
Proof.
  intros Hdocs st'. rewrite strategies_agree_serialised.
  assert (G : exec (parseAndFetchUrlsSequential E (Datatypes.S depth)
                      (mk_slice (map fst docs))) st = Some (tt, st'))
    by (apply exec_traversal_leaves; [reflexivity | exact Hdocs]).
  split; exact G.
Qed.

(** ** An index that lists itself *)

(** A loop does not return when it reaches, in a state of the kind [P]
    its turns keep, an element on which its body does not return. *)
Lemma exec_for_range_stuck {A : Type} (P : state -> Prop) (l : list A)
    (body : A -> unit -> prog unit) (x : A) :
  x ∈ l ->
  (forall y st r st', P st -> exec (body y tt) st = Some (r, st') -> P st') ->
  (forall st, P st -> exec (body x tt) st = None) ->
  forall st, P st -> exec (for_range E l body tt) st = None.
Proof.
  intros Hin Hkeep Hstuck.
  induction l as [|y l IH]; intros st HP.
  - apply elem_of_nil in Hin. contradiction.
  - cbn [for_range]. rewrite exec_mbind.
    destruct (exec (body y tt) st) as [[[] st1]|] eqn:Hy; [|reflexivity].
    apply elem_of_cons in Hin as [-> | Hin].
    + rewrite (Hstuck st HP) in Hy. discriminate.
    + apply (IH Hin). eapply Hkeep; eassumption.
Qed.

Lemma children_passing_index (c : config E) (content u : string) :
  u ∈ children_passing E c content ->
  parse_branch E content = SitemapIndexBranch.
Proof.
  intros Hin. apply parse_branch_index.
  unfold children_passing in Hin.
  destruct (Sitemap (parseSitemapIndex E content).1); [|reflexivity].
  cbn in Hin. apply elem_of_nil in Hin. contradiction.
Qed.

Lemma self_listing_stuck (c : config E) (u content : string) :
  serves E c u content ->
  u ∈ children_passing E c content ->
  forall (depth : nat) (locations : slice string) (st : state),
    cfg (self st) = c -> u ∈ elems locations ->
    exec (parseAndFetchUrlsSequential E depth locations) st = None.
Proof.
  intros Hs Hin. pose proof (children_passing_index _ _ _ Hin) as Hb.
  induction depth as [|depth IH]; intros locations st Hc Hu; [reflexivity|].
  cbn [parseAndFetchUrlsSequential].
  apply (exec_for_range_stuck (fun st => cfg (self st) = c) _ _ u Hu);
    [ | | exact Hc].
  - clear st Hc. intros y st r st' Hc Hy.
    assert (Hrun : exec (parseAndFetchUrlsSequential E (Datatypes.S depth)
                           (mk_slice [y])) st = Some (tt, st')).
    { cbn [parseAndFetchUrlsSequential elems for_range].
      rewrite exec_mbind, Hy. destruct r. reflexivity. }
    apply frame_traversal in Hrun. destruct Hrun as ([Hcfg _ _ _ _ _ _] & _).
    congruence.
  - clear st Hc. intros st Hc. subst c.
    rewrite exec_mbind, (exec_fetch_serves _ _ _ Hs).
    rewrite exec_mbind, exec_checkAndUnzipContent.
    destruct Hs as (_ & _ & ->).
    rewrite exec_mbind, exec_parse.
    change (cfg (self (with_request u st))) with (cfg (self st)).
    assert (Hres : elems (parse_result E (cfg (self st)) content)
                   = children_passing E (cfg (self st)) content).
    { unfold parse_result. rewrite Hb, elems_extend. reflexivity. }
    assert (Hlen : (0 <? len (parse_result E (cfg (self st)) content)) = true).
    { apply Nat.ltb_lt. unfold len. rewrite Hres.
      destruct (children_passing E (cfg (self st)) content).
      - apply elem_of_nil in Hin. contradiction.
      - cbn. lia. }
    rewrite Hlen. apply IH; [reflexivity | rewrite Hres; exact Hin].
Qed.

(** X10: An index that is served at a locator its own child list lets
    through is never done with: a traversal that comes to this locator
    does not return, whatever bound is put on the nesting of the calls.
    Nothing in the traversal remembers the locators already gone
    through.  This for the sequential strategy, and for the concurrent
    one when its goroutines run one after the other. *)
Theorem self_listing_index_never_returns (u content : string) (depth : nat)
    (locations : slice string) (st : state) :
  serves E (cfg (self st)) u content ->
  u ∈ children_passing E (cfg (self st)) content ->
  u ∈ elems locations ->
  exec (parseAndFetchUrlsSequential E depth locations) st = None /\
  exec (parseAndFetchUrlsMultiThread E depth locations) st = None.
Proof.
  intros Hs Hin Hu. rewrite strategies_agree_serialised.
  assert (G : exec (parseAndFetchUrlsSequential E depth locations) st = None)
    by (eapply self_listing_stuck; eauto).
  split; exact G.
Qed.

(** ** [Parse], from the entry document to the collections *)

Lemma children_passing_result (c : config E) (content : string) :
  elems (parse_result E c content) = children_passing E c content.
Proof.
  unfold parse_result.
  destruct (parse_branch E content) eqn:Hb.
  - rewrite elems_extend. reflexivity.
  - unfold children_passing.
    destruct (is_nil (Sitemap (parseSitemapIndex E content).1)) eqn:Hn.
    + destruct (Sitemap (parseSitemapIndex E content).1); [reflexivity | discriminate].
    + apply parse_branch_index in Hn. congruence.
  - unfold children_passing.
    destruct (is_nil (Sitemap (parseSitemapIndex E content).1)) eqn:Hn.
    + destruct (Sitemap (parseSitemapIndex E content).1); [reflexivity | discriminate].
    + apply parse_branch_index in Hn. congruence.
Qed.

(** X11: [Parse] on an entry document, passed in or served at the entry
    locator, that is not a robots.txt: when the children it lets through
    are served and have themselves no child to follow (none, when the
    entry document is a leaf set), [Parse] returns [nil]; it has sent one
    request for the entry document if it was not passed in, then one per
    child in the order of the document, and the structure is the one
    left by [parse] on the entry document, then on each child.  The
    errors recorded on the way are not returned.  This for either value
    of the [multiThread] setting (goroutines running one after the
    other in the order they were started), and whatever the bound on
    nesting (at least 1). *)
Theorem Parse_index_of_leaves (depth : nat) (url content : string)
    (urlContent : option string) (docs : list (string * string)) (st : state) :
  len (errs (self st)) = 0 ->
  HasSuffix url "/robots.txt" = false ->
  HasPrefix content gzipPrefix = false ->
  urlContent = Some content \/
    (urlContent = None /\ serves E (cfg (self st)) url content) ->
  children_passing E (cfg (self st)) content = map fst docs ->
  Forall (fun doc => serves E (cfg (self st)) doc.1 doc.2 /\
                     parse_result E (cfg (self st)) doc.2 = nil_slice) docs ->
  exec (Parse E (Datatypes.S depth) url urlContent) st
  = Some (None,
          {| self := after_documents E docs
                       (after_parse E url content
                          (field_set f_mainURLContent content
                             (field_set f_mainURL url (self st))));
             requests := requests st
                         ++ option_list (match urlContent with
                                         | Some _ => None
                                         | None => Some url
                                         end)
                         ++ map fst docs;
             mu := mu st |}).
Proof.
  intros Hz Hrobots Hgz Huc Hch Hdocs.
  unfold Parse. rewrite exec_mbind, exec_load.
  change (field_get f_errs (self st)) with (errs (self st)).
  replace (0 <? len (errs (self st))) with false
    by (symmetry; apply Nat.ltb_ge; lia).
  rewrite exec_mbind, exec_store, exec_mbind.
  set (st1 := with_self (field_set f_mainURL url (self st)) st).
  assert (Hset : exec (setContent E urlContent) st1
                 = Some ((content, None),
                         {| self := self st1;
                            requests := requests st
                                        ++ option_list (match urlContent with
                                                        | Some _ => None
                                                        | None => Some url
                                                        end);
                            mu := mu st |})).
  { destruct Huc as [-> | [-> Hs]].
    - rewrite app_nil_r. subst st1. destruct st; reflexivity.
    - unfold setContent. rewrite exec_mbind, exec_load.
      change (field_get f_mainURL (self st1)) with url.
      rewrite exec_mbind, (exec_fetch_serves url content st1).
      + reflexivity.
      + subst st1. destruct st as [[] ? ?]. exact Hs. }
  rewrite Hset. clear Hset.
  rewrite exec_mbind, exec_store, exec_mbind, exec_load.
  cbn [self with_self].
  replace (HasSuffix (field_get f_mainURL
             (field_set f_mainURLContent content (self st1))) "/robots.txt")
    with false
    by (subst st1; destruct st as [[] ? ?]; symmetry; exact Hrobots).
  rewrite exec_mbind, exec_mbind, exec_load, exec_mbind.
  change (field_get f_mainURLContent
            (self (with_self (field_set f_mainURLContent content (self st1)) _)))
    with content.
  rewrite exec_checkAndUnzipContent, Hgz.
  rewrite exec_mbind, exec_store, exec_mbind, exec_load.
  set (s2 := field_set f_mainURLContent content (field_set f_mainURL url (self st))).
  set (st2 := {| self := s2;
                 requests := requests st
                             ++ option_list (match urlContent with
                                             | Some _ => None
                                             | None => Some url
                                             end);
                 mu := mu st |}).
  assert (Hrun : exec (url0 ← load E f_mainURL;
                       content0 ← load E f_mainURLContent;
                       locations ← parse E url0 content0;
                       parseAndFetchUrlsSequential E (Datatypes.S depth) locations) st2
                 = Some (tt, {| self := after_documents E docs (after_parse E url content s2);
                                requests := requests st2 ++ map fst docs;
                                mu := mu st |})).
  { rewrite exec_mbind, exec_load, exec_mbind, exec_load, exec_mbind.
    change (field_get f_mainURL (self st2)) with url.
    change (field_get f_mainURLContent (self st2)) with content.
    rewrite exec_parse.
    rewrite (exec_traversal_leaves depth _ docs); [reflexivity | |].
    - rewrite children_passing_result. exact Hch.
    - exact Hdocs. }
  assert (Hrun' : exec (url0 ← load E f_mainURL;
                        content0 ← load E f_mainURLContent;
                        locations ← parse E url0 content0;
                        parseAndFetchUrlsMultiThread E (Datatypes.S depth) locations) st2
                  = Some (tt, {| self := after_documents E docs (after_parse E url content s2);
                                 requests := requests st2 ++ map fst docs;
                                 mu := mu st |})).
  { rewrite <- Hrun. rewrite !exec_mbind.
    destruct (exec (load E f_mainURL) st2) as [[a sta]|]; [|reflexivity].
    rewrite !exec_mbind.
    destruct (exec (load E f_mainURLContent) sta) as [[b stb]|]; [|reflexivity].
    rewrite !exec_mbind.
    destruct (exec (parse E a b) stb) as [[c stc]|]; [|reflexivity].
    apply strategies_agree_serialised. }
  change (with_self _ (with_self _ _)) with st2.
  change (field_get f_cfg (self st2)) with (cfg (self st)).
  destruct (multiThread (cfg (self st))); [rewrite Hrun' | rewrite Hrun];
    rewrite exec_mret; cbn [requests st2]; rewrite <- app_assoc; reflexivity.
Qed.

Lemma found_in_content (ls : list robots_line) :
  forallb plain_line ls = true ->
  concat (map (fun line =>
                 if HasPrefix line sitemapKey
                 then option_list (Split line sitemapKey !! 1)
                 else []) (Split (Join (map render ls) newline) newline))
  = locations_of ls.
Proof.
  intros H. destruct ls as [|l ls]; [reflexivity|].
  unfold newline. rewrite Split_Join.
  - apply found_in_plain_lines, H.
  - discriminate.
  - apply Forall_fmap. apply Forall_forall. intros l' Hin.
    apply Contains_render.
    rewrite forallb_forall in H. apply H. apply list_elem_of_In, Hin.
Qed.

(** One goroutine of [Parse] on a robots.txt, on a document that is
    served and has no child to follow. *)
Lemma exec_robots_goroutine (depth : nat) (url content : string) (st : state) :
  mu st = false ->
  serves E (cfg (self st)) url content ->
  parse_result E (cfg (self st)) content = nil_slice ->
  exec (lock E;;
        r ← fetch E url;
        match r with
        | inr err => append_to E f_errs err;; unlock E
        | inl robotsTXTSitemapContent =>
            robotsTXTSitemapContent ←
              checkAndUnzipContent E robotsTXTSitemapContent;
            c ← load E f_cfg;
            (if multiThread c then
               locations ← parse E url robotsTXTSitemapContent;
               parseAndFetchUrlsMultiThread E (Datatypes.S depth) locations
             else
               locations ← parse E url robotsTXTSitemapContent;
               parseAndFetchUrlsSequential E (Datatypes.S depth) locations);;
            unlock E
        end) st
  = Some (tt, with_self (after_parse E url content (self st)) (with_request url st)).
Proof.
  intros Hmu Hs Hnil.
  rewrite exec_mbind. cbn [exec lock]. rewrite Hmu.
  rewrite exec_mbind, (exec_fetch_serves url content (with_mu true st) Hs).
  rewrite exec_mbind, exec_checkAndUnzipContent.
  destruct Hs as (_ & _ & ->).
  rewrite exec_mbind, exec_load, exec_mbind.
  assert (Hrun : forall traversal : slice string -> prog unit,
            exec (traversal nil_slice) (with_self (after_parse E url content (self st))
                                          (with_request url (with_mu true st)))
            = Some (tt, with_self (after_parse E url content (self st))
                          (with_request url (with_mu true st))) ->
            exec (locations ← parse E url content; traversal locations)
              (with_request url (with_mu true st))
            = Some (tt, with_self (after_parse E url content (self st))
                          (with_request url (with_mu true st)))).
  { intros traversal Ht. rewrite exec_mbind, exec_parse.
    change (cfg (self (with_request url (with_mu true st)))) with (cfg (self st)).
    rewrite Hnil. exact Ht. }
  destruct (multiThread (field_get f_cfg (self (with_request url (with_mu true st)))));
    rewrite Hrun by reflexivity; destruct st; cbn in *; subst; reflexivity.
Qed.

(** X12: [Parse] on a robots.txt of plain lines, passed in or served at the
    entry locator, in the run in which the goroutines it starts, one per
    location, run one after the other in the order they were started
    (the mutex makes them run one at a time; the order in which they
    take it is the scheduler's, and this is the run for one of these
    orders).  The locations of its Sitemap lines are recorded after
    those the structure holds from earlier calls, which are not dropped:
    when the documents at all these locations, the earlier ones first,
    are served and have no child to follow, [Parse] returns [nil] in
    that run; it has sent one request for the robots.txt if it was not
    passed in, then one per location, the earlier ones again, and the
    structure is the one left by [parse] on each document in turn.  The
    content of the robots.txt is not decompressed.  The mutex, free
    before, is free after.  This for either value of the [multiThread]
    setting, and whatever the bound on nesting (at least 1). *)
Theorem Parse_robots_of_leaves (depth : nat) (url : string)
    (ls : list robots_line) (urlContent : option string)
    (docs : list (string * string)) (st : state) :
  len (errs (self st)) = 0 ->
  mu st = false ->
  HasSuffix url "/robots.txt" = true ->
  forallb plain_line ls = true ->
  let content := Join (map render ls) newline in
  urlContent = Some content \/
    (urlContent = None /\ serves E (cfg (self st)) url content) ->
  map fst docs = elems (robotsTxtSitemapURLs (self st)) ++ locations_of ls ->
  Forall (fun doc => serves E (cfg (self st)) doc.1 doc.2 /\
                     parse_result E (cfg (self st)) doc.2 = nil_slice) docs ->
  exec (Parse E (Datatypes.S depth) url urlContent) st
  = Some (None,
          {| self := after_documents E docs
                       (field_set f_robotsTxtSitemapURLs
                          (extend (robotsTxtSitemapURLs (self st)) (locations_of ls))
                          (field_set f_mainURLContent content
                             (field_set f_mainURL url (self st))));
             requests := requests st
                         ++ option_list (match urlContent with
                                         | Some _ => None
                                         | None => Some url
                                         end)
                         ++ map fst docs;
             mu := false |}).
Proof.
  intros Hz Hmu Hrobots Hplain content Huc Hlocs Hdocs.
  unfold Parse. rewrite exec_mbind, exec_load.
  change (field_get f_errs (self st)) with (errs (self st)).
  replace (0 <? len (errs (self st))) with false
    by (symmetry; apply Nat.ltb_ge; lia).
  rewrite exec_mbind, exec_store, exec_mbind.
  set (st1 := with_self (field_set f_mainURL url (self st)) st).
  assert (Hset : exec (setContent E urlContent) st1
                 = Some ((content, None),
                         {| self := self st1;
                            requests := requests st
                                        ++ option_list (match urlContent with
                                                        | Some _ => None
                                                        | None => Some url
                                                        end);
                            mu := mu st |})).
  { destruct Huc as [-> | [-> Hs]].
    - rewrite app_nil_r. subst st1. destruct st; reflexivity.
    - unfold setContent. rewrite exec_mbind, exec_load.
      change (field_get f_mainURL (self st1)) with url.
      rewrite exec_mbind, (exec_fetch_serves url content st1).
      + reflexivity.
      + subst st1. destruct st as [[] ? ?]. exact Hs. }
  rewrite Hset. clear Hset.
  rewrite exec_mbind, exec_store, exec_mbind, exec_load.
  cbn [self with_self].
  replace (HasSuffix (field_get f_mainURL
             (field_set f_mainURLContent content (self st1))) "/robots.txt")
    with true
    by (subst st1; destruct st as [[] ? ?]; symmetry; exact Hrobots).
  rewrite exec_mbind, exec_mbind, exec_load, exec_mbind.
  change (field_get f_mainURLContent
            (self (with_self (field_set f_mainURLContent content (self st1)) _)))
    with content.
  rewrite exec_parseRobotsTXT.
  pose proof (found_in_content ls Hplain) as Hfound.
  fold content in Hfound. rewrite Hfound. clear Hfound.
  rewrite exec_mbind, exec_load, exec_go_wait.
  set (s2 := field_set f_robotsTxtSitemapURLs
               (extend (robotsTxtSitemapURLs (self st)) (locations_of ls))
               (field_set f_mainURLContent content
                  (field_set f_mainURL url (self st)))).
  set (st2 := {| self := s2;
                 requests := requests st
                             ++ option_list (match urlContent with
                                             | Some _ => None
                                             | None => Some url
                                             end);
                 mu := mu st |}).
  change (with_self _ (with_self _ _)) with st2.
  change (field_get f_robotsTxtSitemapURLs (self st2))
    with (extend (robotsTxtSitemapURLs (self st)) (locations_of ls)).
  rewrite elems_extend, <- Hlocs.
  rewrite (exec_for_range_documents _ (cfg (self st)) false docs);
    [ | | reflexivity | exact Hmu].
  - rewrite exec_mret. cbn [requests st2 mu self]. rewrite <- app_assoc, Hmu.
    reflexivity.
  - intros u c st0 Hin Hc Hm.
    rewrite Forall_forall in Hdocs. destruct (Hdocs _ Hin) as [Hs Hnil].
    cbn [fst snd] in Hs, Hnil. rewrite <- Hc in Hs, Hnil.
    apply exec_robots_goroutine; assumption.
Qed.

(** ** The two strategies and the scheduler *)

(** X13: The concurrent strategy can do what the sequential one does: when
    the sequential traversal returns, the concurrent traversal has a run,
    under some schedule, that returns in the same state. *)
Theorem concurrent_can_match_sequential (depth : nat) (locations : slice string)
    (st st' : state) :
  exec (parseAndFetchUrlsSequential E depth locations) st = Some (tt, st') ->
  exists schedule,
    returns_under schedule (parseAndFetchUrlsMultiThread E depth locations) st tt st'.
Proof.
  intros H. rewrite <- strategies_agree_serialised in H.
  eapply exec_is_a_run, H.
Qed.

Lemma sequential_bind {A B : Type} (p : prog A) (k : A -> prog B) (st : state) :
  sequential (bind E p k) st
  = sequential p st &&
    match exec p st with
    | Some (a, st') => sequential (k a) st'
    | None => true
    end.
Proof.
  revert B k st.
  induction p as [A a | A T f k0 IH | A T f v k0 IH | A t ua url k0 IH
                 | A k0 IH | A k0 IH | A gs k0 IH | A why];
    intros B k st; simpl; try reflexivity; apply IH.
Qed.

Lemma sequential_mbind {A B : Type} (p : prog A) (k : A -> prog B) (st : state) :
  sequential p st = true ->
  (forall a st', exec p st = Some (a, st') -> sequential (k a) st' = true) ->
  sequential (p ≫= k) st = true.
Proof.
  intros Hp Hk.
  change (p ≫= k) with (bind E p k). rewrite sequential_bind, Hp.
  destruct (exec p st) as [[a st']|]; [apply Hk; reflexivity | reflexivity].
Qed.

Lemma sequential_for_range {A L : Type} (l : list A) (body : A -> L -> prog L) :
  (forall x locals st, sequential (body x locals) st = true) ->
  forall locals st, sequential (for_range E l body locals) st = true.
Proof.
  intros Hbody. induction l as [|x l IH]; intros locals st; cbn [for_range].
  - reflexivity.
  - apply sequential_mbind; [apply Hbody | intros; apply IH].
Qed.

Lemma sequential_fetch (url : string) (st : state) :
  sequential (fetch E url) st = true.
Proof.
  unfold fetch. step_prog.
  destruct (http_NewRequest E url); simpl; [reflexivity|].
  destruct (client_Do E _ _ url) as [response|]; simpl; [|reflexivity].
  destruct (negb (StatusCode response =? 200)%Z); simpl; [reflexivity|].
  destruct (Body response); reflexivity.
Qed.

Lemma sequential_checkAndUnzipContent (content : string) (st : state) :
  sequential (checkAndUnzipContent E content) st = true.
Proof.
  unfold checkAndUnzipContent.
  destruct (HasPrefix content gzipPrefix); [|reflexivity].
  destruct (unzip E content) as [uncompressed [e|]]; reflexivity.
Qed.

Lemma sequential_parse (url content : string) (st : state) :
  sequential (parse E url content) st = true.
Proof.
  unfold parse.
  destruct (parseSitemapIndex E content) as [smIndex errSitemapIndex].
  destruct (parseURLSet E content) as [urlSet errURLSet].
  cbv zeta.
  apply sequential_mbind.
  - destruct (negb (is_nil (Sitemap smIndex))).
    + apply sequential_mbind; [reflexivity|]. intros _ st' _.
      apply sequential_for_range. intros entry added st0.
      step_prog. destruct (negb _); reflexivity.
    + destruct (0 <? len (URLSet_URL urlSet)); [|reflexivity].
      apply sequential_mbind; [|reflexivity].
      apply sequential_for_range. intros entry [] st0.
      step_prog. destruct (negb _); reflexivity.
  - intros added st' _.
    apply sequential_mbind.
    + destruct errSitemapIndex; [|reflexivity].
      destruct (len (URLSet_URL urlSet) =? 0); reflexivity.
    + intros _ st'' _. apply sequential_mbind; [|reflexivity].
      destruct errURLSet; [|reflexivity].
      destruct (is_nil (Sitemap smIndex)); reflexivity.
Qed.

Lemma sequential_traversal (depth : nat) :
  forall (locations : slice string) (st : state),
    sequential (parseAndFetchUrlsSequential E depth locations) st = true.
Proof.
  induction depth as [|depth IH]; intros locations st; [reflexivity|].
  cbn [parseAndFetchUrlsSequential].
  apply sequential_for_range. clear st. intros location [] st.
  apply sequential_mbind; [apply sequential_fetch|].
  intros [content|err] st1 _; [|reflexivity].
  apply sequential_mbind; [apply sequential_checkAndUnzipContent|].
  intros content' st2 _.
  apply sequential_mbind; [apply sequential_parse|].
  intros parsedLocations st3 _.
  destruct (0 <? len parsedLocations); [apply IH | reflexivity].
Qed.

Lemma sequential_setContent (urlContent : option string) (st : state) :
  sequential (setContent E urlContent) st = true.
Proof.
  unfold setContent. destruct urlContent; [reflexivity|].
  apply sequential_mbind; [reflexivity|]. intros url st' _.
  apply sequential_mbind; [apply sequential_fetch|].
  intros [c|e] st1 _; reflexivity.
Qed.

Lemma sequential_Parse (depth : nat) (url : string) (urlContent : option string)
    (st : state) :
  multiThread (cfg (self st)) = false ->
  HasSuffix url "/robots.txt" = false ->
  sequential (Parse E depth url urlContent) st = true.
Proof.
  intros Hmt Hrobots. unfold Parse.
  apply sequential_mbind; [reflexivity|].
  intros es st0 H0. rewrite exec_load in H0. injection H0 as <- <-.
  destruct (0 <? len _); [reflexivity|].
  apply sequential_mbind; [reflexivity|].
  intros [] st1 H1. rewrite exec_store in H1. injection H1 as <-.
  apply sequential_mbind; [apply sequential_setContent|].
  intros [content err] st2 H2.
  pose proof (frame_setContent _ _ _ _ H2) as ([Hcfg _ _ _ _ _ _] & Hurl & _).
  apply sequential_mbind; [reflexivity|].
  intros [] st3 H3. rewrite exec_store in H3. injection H3 as <-.
  destruct err as [err|]; [reflexivity|].
  apply sequential_mbind; [reflexivity|].
  intros mainURL st4 H4. rewrite exec_load in H4. injection H4 as <- <-.
  apply sequential_mbind; [|reflexivity].
  replace (HasSuffix _ "/robots.txt") with false
    by (symmetry; destruct st2 as [[] ? ?], st as [[] ? ?];
        cbn in *; subst; exact Hrobots).
  apply sequential_mbind; [reflexivity|].
  intros c st5 H5. rewrite exec_load in H5. injection H5 as <- <-.
  apply sequential_mbind; [apply sequential_checkAndUnzipContent|].
  intros content' st6 H6.
  pose proof (frame_checkAndUnzipContent _ _ _ _ H6) as ([Hcfg' _ _ _ _ _ _] & _).
  apply sequential_mbind; [reflexivity|].
  intros [] st7 H7. rewrite exec_store in H7. injection H7 as <-.
  apply sequential_mbind; [reflexivity|].
  intros c st8 H8. rewrite exec_load in H8. injection H8 as <- <-.
  replace (multiThread _) with false
    by (symmetry; destruct st6 as [[] ? ?], st2 as [[] ? ?], st as [[] ? ?];
        cbn in *; subst; exact Hmt).
  apply sequential_mbind; [reflexivity|]. intros u st9 _.
  apply sequential_mbind; [reflexivity|]. intros c' st10 _.
  apply sequential_mbind; [apply sequential_parse|]. intros locations st11 _.
  apply sequential_traversal.
Qed.

(** X14: With [multiThread] off and an entry locator that is not a
    robots.txt, [Parse] starts no goroutine and does not touch the mutex,
    at any depth of the traversal; what it returns and the state it
    leaves do not depend on the scheduler: a run that returns, under any
    schedule, returns what the run of the main goroutine alone does. *)
Theorem sequential_Parse_single_goroutine (depth : nat) (url : string)
    (urlContent : option string) (st : state) :
  multiThread (cfg (self st)) = false ->
  HasSuffix url "/robots.txt" = false ->
  sequential (Parse E depth url urlContent) st = true /\
  forall schedule r st',
    returns_under schedule (Parse E depth url urlContent) st r st' ->
    exec (Parse E depth url urlContent) st = Some (r, st').
Proof.
  intros Hmt Hrobots.
  pose proof (sequential_Parse depth url urlContent st Hmt Hrobots) as Hseq.
  split; [exact Hseq|].
  intros schedule r st' Hrun. eapply returns_sequential; eassumption.
Qed.

(** ** Patterns *)

Lemma compiled_of_cons (pattern : string) (patterns : list string) :
  compiled_of E (pattern :: patterns)
  = match regexp_Compile E pattern with
    | inl re => re :: compiled_of E patterns
    | inr _ => compiled_of E patterns
    end.
Proof. unfold compiled_of. cbn. destruct (regexp_Compile E pattern); reflexivity. Qed.

Lemma errors_of_cons (pattern : string) (patterns : list string) :
  errors_of E (pattern :: patterns)
  = match regexp_Compile E pattern with
    | inl _ => errors_of E patterns
    | inr err => err :: errors_of E patterns
    end.
Proof. unfold errors_of. cbn. destruct (regexp_Compile E pattern); reflexivity. Qed.

Lemma restore_errs_followRegexes (s : S E) :
  field_set f_errs (errs s) (set_followRegexes E (followRegexes (cfg s)) s) = s.
Proof. destruct s as [[] ? ? ? ? ? ?]. reflexivity. Qed.

Lemma restore_errs_rulesRegexes (s : S E) :
  field_set f_errs (errs s) (set_rulesRegexes E (rulesRegexes (cfg s)) s) = s.
Proof. destruct s as [[] ? ? ? ? ? ?]. reflexivity. Qed.

Lemma foldl_SetFollow_step (patterns : list string) :
  forall s : S E,
    let s' := foldl (SetFollow_step E) s patterns in
    elems (followRegexes (cfg s'))
      = elems (followRegexes (cfg s)) ++ compiled_of E patterns /\
    elems (errs s') = elems (errs s) ++ errors_of E patterns /\
    forall X Y,
      field_set f_errs X (set_followRegexes E Y s')
      = field_set f_errs X (set_followRegexes E Y s).
Proof.
  induction patterns as [|pattern patterns IH]; intros s; cbn [foldl]; cbv zeta.
  - unfold compiled_of, errors_of. cbn [omap]. rewrite !app_nil_r.
    repeat split.
  - destruct (IH (SetFollow_step E s pattern)) as (Hre & Herr & Hs).
    rewrite Hre, Herr, compiled_of_cons, errors_of_cons. clear IH Hre Herr.
    split; [|split].
    + unfold SetFollow_step. destruct (regexp_Compile E pattern) as [re|err].
      * destruct s as [[] ? ? ? ? ? ?]. cbn. rewrite <- app_assoc. reflexivity.
      * destruct s as [[] ? ? ? ? ? ?]. reflexivity.
    + unfold SetFollow_step. destruct (regexp_Compile E pattern) as [re|err].
      * destruct s as [[] ? ? ? ? ? ?]. reflexivity.
      * destruct s as [[] ? ? ? ? ? ?]. cbn. rewrite <- app_assoc. reflexivity.
    + intros X Y. rewrite Hs. unfold SetFollow_step.
      destruct (regexp_Compile E pattern); destruct s as [[] ? ? ? ? ? ?]; reflexivity.
Qed.

Lemma foldl_SetRules_step (patterns : list string) :
  forall s : S E,
    let s' := foldl (SetRules_step E) s patterns in
    elems (rulesRegexes (cfg s'))
      = elems (rulesRegexes (cfg s)) ++ compiled_of E patterns /\
    elems (errs s') = elems (errs s) ++ errors_of E patterns /\
    forall X Y,
      field_set f_errs X (set_rulesRegexes E Y s')
      = field_set f_errs X (set_rulesRegexes E Y s).
Proof.
  induction patterns as [|pattern patterns IH]; intros s; cbn [foldl]; cbv zeta.
  - unfold compiled_of, errors_of. cbn [omap]. rewrite !app_nil_r.
    repeat split.
  - destruct (IH (SetRules_step E s pattern)) as (Hre & Herr & Hs).
    rewrite Hre, Herr, compiled_of_cons, errors_of_cons. clear IH Hre Herr.
    split; [|split].
    + unfold SetRules_step. destruct (regexp_Compile E pattern) as [re|err].
      * destruct s as [[] ? ? ? ? ? ?]. cbn. rewrite <- app_assoc. reflexivity.
      * destruct s as [[] ? ? ? ? ? ?]. reflexivity.
    + unfold SetRules_step. destruct (regexp_Compile E pattern) as [re|err].
      * destruct s as [[] ? ? ? ? ? ?]. reflexivity.
      * destruct s as [[] ? ? ? ? ? ?]. cbn. rewrite <- app_assoc. reflexivity.
    + intros X Y. rewrite Hs. unfold SetRules_step.
      destruct (regexp_Compile E pattern); destruct s as [[] ? ? ? ? ? ?]; reflexivity.
Qed.

Lemma compiled_or_error (patterns : list string) :
  length (compiled_of E patterns) + length (errors_of E patterns) = length patterns.
Proof.
  unfold compiled_of, errors_of.
  induction patterns as [|pattern patterns IH]; [reflexivity|].
  fold (compiled_of E (pattern :: patterns)) (errors_of E (pattern :: patterns)).
  fold (compiled_of E patterns) (errors_of E patterns) in IH.
  rewrite compiled_of_cons, errors_of_cons.
  destruct (regexp_Compile E pattern); cbn [length]; lia.
Qed.

(** X15: [SetFollow] puts the list passed in the place of the follow
    patterns, but the compiled patterns it adds to those already held:
    each pattern that compiles is appended to [followRegexes], each one
    that does not has its error appended to [errs], both in the order of
    the list, and every pattern goes one way or the other.  Nothing else
    of the structure changes.  So after a second call the filter is made
    of the patterns of both calls. *)
Theorem SetFollow_accounting (regexes : slice string) (s : S E) :
  let s' := SetFollow regexes s in
  follow (cfg s') = regexes /\
  elems (followRegexes (cfg s'))
    = elems (followRegexes (cfg s)) ++ compiled_of E (elems regexes) /\
  elems (errs s') = elems (errs s) ++ errors_of E (elems regexes) /\
  length (compiled_of E (elems regexes)) + length (errors_of E (elems regexes))
    = len regexes /\
  s' = field_set f_errs (errs s')
         (set_followRegexes E (followRegexes (cfg s')) (set_follow E regexes s)) /\
  forall again : slice string,
    follow (cfg (SetFollow again s')) = again /\
    elems (followRegexes (cfg (SetFollow again s')))
      = elems (followRegexes (cfg s))
        ++ compiled_of E (elems regexes) ++ compiled_of E (elems again).
Proof.
  assert (G : forall (regexes : slice string) (s : S E),
            follow (cfg (SetFollow regexes s)) = regexes /\
            elems (followRegexes (cfg (SetFollow regexes s)))
              = elems (followRegexes (cfg s)) ++ compiled_of E (elems regexes) /\
            elems (errs (SetFollow regexes s))
              = elems (errs s) ++ errors_of E (elems regexes) /\
            SetFollow regexes s
              = field_set f_errs (errs (SetFollow regexes s))
                  (set_followRegexes E (followRegexes (cfg (SetFollow regexes s)))
                     (set_follow E regexes s))).
  { clear regexes s. intros regexes s. unfold SetFollow. cbv zeta.
    change (follow (cfg (set_follow E regexes s))) with regexes.
    destruct (foldl_SetFollow_step (elems regexes) (set_follow E regexes s))
      as (Hre & Herr & Hs).
    set (s' := foldl (SetFollow_step E) (set_follow E regexes s) (elems regexes)) in *.
    split; [|split; [exact Hre|split; [exact Herr|]]].
    - rewrite <- (restore_errs_followRegexes s'), Hs. reflexivity.
    - rewrite <- Hs. symmetry. apply restore_errs_followRegexes. }
  cbv zeta. destruct (G regexes s) as (Hf & Hre & Herr & Hs).
  split; [exact Hf|]. split; [exact Hre|]. split; [exact Herr|].
  split; [apply compiled_or_error|]. split; [exact Hs|].
  intros again. destruct (G again (SetFollow regexes s)) as (Hf' & Hre' & _).
  split; [exact Hf'|]. rewrite Hre', Hre, <- app_assoc. reflexivity.
Qed.

(** X16: [SetRules] puts the list passed in the place of the rules
    patterns, but the compiled patterns it adds to those already held:
    each pattern that compiles is appended to [rulesRegexes], each one
    that does not has its error appended to [errs], both in the order of
    the list, and every pattern goes one way or the other.  Nothing else
    of the structure changes.  So after a second call the filter is made
    of the patterns of both calls. *)
Theorem SetRules_accounting (regexes : slice string) (s : S E) :
  let s' := SetRules regexes s in
  rules (cfg s') = regexes /\
  elems (rulesRegexes (cfg s'))
    = elems (rulesRegexes (cfg s)) ++ compiled_of E (elems regexes) /\
  elems (errs s') = elems (errs s) ++ errors_of E (elems regexes) /\
  length (compiled_of E (elems regexes)) + length (errors_of E (elems regexes))
    = len regexes /\
  s' = field_set f_errs (errs s')
         (set_rulesRegexes E (rulesRegexes (cfg s')) (set_rules E regexes s)) /\
  forall again : slice string,
    rules (cfg (SetRules again s')) = again /\
    elems (rulesRegexes (cfg (SetRules again s')))
      = elems (rulesRegexes (cfg s))
        ++ compiled_of E (elems regexes) ++ compiled_of E (elems again).
Proof.
  assert (G : forall (regexes : slice string) (s : S E),
            rules (cfg (SetRules regexes s)) = regexes /\
            elems (rulesRegexes (cfg (SetRules regexes s)))
              = elems (rulesRegexes (cfg s)) ++ compiled_of E (elems regexes) /\
            elems (errs (SetRules regexes s))
              = elems (errs s) ++ errors_of E (elems regexes) /\
            SetRules regexes s
              = field_set f_errs (errs (SetRules regexes s))
                  (set_rulesRegexes E (rulesRegexes (cfg (SetRules regexes s)))
                     (set_rules E regexes s))).
  { clear regexes s. intros regexes s. unfold SetRules. cbv zeta.
    change (rules (cfg (set_rules E regexes s))) with regexes.
    destruct (foldl_SetRules_step (elems regexes) (set_rules E regexes s))
      as (Hre & Herr & Hs).
    set (s' := foldl (SetRules_step E) (set_rules E regexes s) (elems regexes)) in *.
    split; [|split; [exact Hre|split; [exact Herr|]]].
    - rewrite <- (restore_errs_rulesRegexes s'), Hs. reflexivity.
    - rewrite <- Hs. symmetry. apply restore_errs_rulesRegexes. }
  cbv zeta. destruct (G regexes s) as (Hf & Hre & Herr & Hs).
  split; [exact Hf|]. split; [exact Hre|]. split; [exact Herr|].
  split; [apply compiled_or_error|]. split; [exact Hs|].
  intros again. destruct (G again (SetRules regexes s)) as (Hf' & Hre' & _).
  split; [exact Hf'|]. rewrite Hre', Hre, <- app_assoc. reflexivity.
Qed.

(** ** Reading the results *)

(** X17: On a receiver that is not nil [GetURLs] returns the stored URLs in a
    slice that is never nil (an empty one when nothing is stored, [nil]
    included), [GetURLCount] is the length of that slice and
    [GetErrorsCount] the length of what [GetErrors] returns, which is the
    stored slice, [nil] when nothing was recorded.  On a nil receiver
    [GetURLs], which reads the field before any check, panics. *)
Theorem accessors_agree (s : S E) :
  (exists r,
     GetURLs (Some s) = Returns r /\
     is_nil r = false /\
     elems r = elems (urls s) /\
     GetURLCount (Some s) = Z.of_nat (len r)) /\
  GetErrors (Some s) = errs s /\
  GetErrorsCount (Some s) = Z.of_nat (len (GetErrors (Some s))) /\
  exists msg, GetURLs (None : option (S E)) = Panics msg.
Proof.
  split; [|split; [reflexivity | split; [reflexivity | eexists; reflexivity]]].
  unfold GetURLs, GetURLCount, len.
  destruct (urls s) as [|[|u l]]; cbn; eexists; repeat split; reflexivity.
Qed.

(** X18: [GetRandomURLs(n)], n >= 0 a capacity [make] accepts, on a
    structure holding P URLs: the call returns, and the collection
    stored afterwards has the length it had, and is nil if it
    was; its first P - min(n, P) elements are, with the elements
    returned, the elements that were stored, each as many times as it
    was.  So the elements returned are gone from that part, and what
    follows it is what the loop left behind.  No other field of the
    structure changes. *)
Theorem GetRandomURLs_partition (s : S E) (n : Z) (rnd : nat -> nat) :
  (0 <= n)%Z ->
  (n <= makeslice_maxcap E)%Z ->
  exists (randURLs : list URL) (s' : S E),
    GetRandomURLs (Some s) n rnd = (Returns (mk_slice randURLs), Some s') /\
    s' = field_set f_urls (urls s') s /\
    is_nil (urls s') = is_nil (urls s) /\
    len (urls s') = len (urls s) /\
    randURLs ++ take (len (urls s) - min (Z.to_nat n) (len (urls s)))
                  (elems (urls s'))
      ≡ₚ elems (urls s).
Proof.
  intros Hn Hcap. unfold GetRandomURLs.
  replace ((n <? 0) || (makeslice_maxcap E <? n))%Z with false
    by (symmetry; apply orb_false_iff; split; apply Z.ltb_ge; assumption).
  destruct (randLoop_spec rnd (Z.to_nat n) 0 (elems (urls s)) (len (urls s)) [])
    as (r & arr' & Hrun & Hlen & _ & Hperm); [reflexivity|].
  rewrite Hrun. cbn [app] in Hperm.
  rewrite (take_ge (elems (urls s))) in Hperm by reflexivity.
  destruct (urls s) as [|l] eqn:Hurls.
  - exists r, s. split; [reflexivity|].
    assert (arr' = []) by (destruct arr'; [reflexivity | discriminate]).
    subst arr'. rewrite Hurls.
    split; [destruct s; cbn in *; subst; reflexivity|].
    repeat split. exact Hperm.
  - eexists r, _. split; [reflexivity|].
    destruct s; cbn in *. repeat split; auto.
Qed.

(** ** What the patterns let through *)

Lemma matches_any_spec (regexes : slice (Regexp E)) (loc : string) :
  matches_any E regexes loc = true <->
  elems regexes = [] \/
  exists re, re ∈ elems regexes /\ MatchString E re loc = true.
Proof.
  unfold matches_any, len.
  destruct (elems regexes) as [|re0 l] eqn:Hl.
  - split; [left; reflexivity | reflexivity].
  - change (0 <? length (re0 :: l)) with true. cbv iota.
    rewrite existsb_exists. split.
    + intros (re & Hin & Hm). right. exists re.
      split; [apply list_elem_of_In; exact Hin | exact Hm].
    + intros [H | (re & Hin & Hm)]; [discriminate|].
      exists re. split; [apply list_elem_of_In; exact Hin | exact Hm].
Qed.

(** X19: The two filters of [parse].  A child of an index is let through
    when no follow pattern is compiled, or when its locator matches at
    least one of the compiled follow patterns: one is enough.  The same
    for the entries of a leaf set and the rules patterns.  On a new
    instance nothing is compiled, and every child and entry is let
    through. *)
Theorem pattern_filters (c : config E) (content : string) :
  (forall loc,
     loc ∈ children_passing E c content <->
     loc ∈ map sitemap_Loc (elems (Sitemap (parseSitemapIndex E content).1)) /\
     (elems (followRegexes c) = [] \/
      exists re, re ∈ elems (followRegexes c) /\ MatchString E re loc = true)) /\
  (forall u,
     u ∈ entries_passing E c content <->
     u ∈ elems (URLSet_URL (parseURLSet E content).1) /\
     (elems (rulesRegexes c) = [] \/
      exists re, re ∈ elems (rulesRegexes c) /\ MatchString E re (Loc u) = true)) /\
  children_passing E (cfg (New E)) content
    = map sitemap_Loc (elems (Sitemap (parseSitemapIndex E content).1)) /\
  entries_passing E (cfg (New E)) content
    = elems (URLSet_URL (parseURLSet E content).1).
Proof.
  split; [|split; [|split]].
  - intros loc. unfold children_passing.
    rewrite list_elem_of_filter, matches_any_spec. tauto.
  - intros u. unfold entries_passing.
    rewrite list_elem_of_filter, matches_any_spec. tauto.
  - unfold children_passing.
    induction (map sitemap_Loc (elems (Sitemap (parseSitemapIndex E content).1)))
      as [|loc l IH]; [reflexivity|].
    rewrite filter_cons, IH. reflexivity.
  - unfold entries_passing.
    induction (elems (URLSet_URL (parseURLSet E content).1))
      as [|u l IH]; [reflexivity|].
    rewrite filter_cons, IH. reflexivity.
Qed.

(** ** The simple setters *)

(** X20: [SetUserAgent], [SetFetchTimeout] and [SetMultiThread] each write
    one field of the configuration: of two calls of the same setter the
    later one stands, calls of different setters can be made in either
    order, and none of them touches the patterns, the collections or the
    errors, so none can make [Parse] return the guard error. *)
Theorem simple_setters (ua ua' : string) (t t' : Z) (b b' : bool) (s : S E) :
  SetUserAgent ua (SetUserAgent ua' s) = SetUserAgent ua s /\
  SetFetchTimeout t (SetFetchTimeout t' s) = SetFetchTimeout t s /\
  SetMultiThread b (SetMultiThread b' s) = SetMultiThread b s /\
  SetUserAgent ua (SetFetchTimeout t s) = SetFetchTimeout t (SetUserAgent ua s) /\
  SetUserAgent ua (SetMultiThread b s) = SetMultiThread b (SetUserAgent ua s) /\
  SetFetchTimeout t (SetMultiThread b s) = SetMultiThread b (SetFetchTimeout t s) /\
  Forall (fun s' : S E =>
            errs s' = errs s /\ urls s' = urls s /\
            sitemapLocations s' = sitemapLocations s /\
            robotsTxtSitemapURLs s' = robotsTxtSitemapURLs s /\
            followRegexes (cfg s') = followRegexes (cfg s) /\
            rulesRegexes (cfg s') = rulesRegexes (cfg s))
    [SetUserAgent ua s; SetFetchTimeout t s; SetMultiThread b s] /\
  userAgent (cfg (SetUserAgent ua s)) = ua /\
  fetchTimeout (cfg (SetFetchTimeout t s)) = t /\
  multiThread (cfg (SetMultiThread b s)) = b.
Proof.
  destruct s as [[] ? ? ? ? ? ?].
  repeat split; repeat constructor.
Qed.

(** ** Compressed content *)

(** X21: With a gzip library that reads back what it wrote: what [zip] made
    of a content, [unzip] turns back into that content, without error,
    and so does [checkAndUnzipContent], which records nothing; when [zip]
    fails it returns the content as it is. *)
Theorem zip_read_back (content : string) (st : state) :
  gzip_round_trips E ->
  match zip E content with
  | (compressed, None) =>
      unzip E compressed = (content, None) /\
      exec (checkAndUnzipContent E compressed) st = Some (content, st)
  | (returned, Some _) => returned = content
  end.
Proof.
  intros Hgz. unfold zip.
  destruct (gzip_Write E content) as [compressed|err] eqn:Hw; [|reflexivity].
  destruct (Hgz content compressed Hw) as (Hp & Hr & Ha).
  assert (Hun : unzip E compressed = (content, None))
    by (unfold unzip; rewrite Hr, Ha; reflexivity).
  split; [exact Hun|].
  rewrite exec_checkAndUnzipContent, Hp, Hun. reflexivity.
Qed.

End FurtherProperties.

(** ** [lastModTime.UnmarshalXML] *)

Section LastModProperties.

Context (time_Parse : string -> string -> Z + error).

Lemma try_formats_spec (fs : list string) (v : string) :
  forall err : option error,
    match try_formats time_Parse fs v err with
    | inl t =>
        exists pre format post,
          fs = pre ++ format :: post /\
          Forall (fun f => exists e, time_Parse f v = inr e) pre /\
          time_Parse format v = inl t
    | inr e =>
        Forall (fun f => exists e, time_Parse f v = inr e) fs /\
        e = match last fs with
            | Some f => match time_Parse f v with
                        | inr e' => Some e'
                        | inl _ => None
                        end
            | None => err
            end
    end.
Proof.
  induction fs as [|f fs IH]; intros err; cbn [try_formats].
  - split; [constructor | reflexivity].
  - destruct (time_Parse f v) as [t|e] eqn:Hf.
    + exists [], f, fs. repeat split; [constructor | exact Hf].
    + specialize (IH (Some e)).
      destruct (try_formats time_Parse fs v (Some e)) as [t|e'].
      * destruct IH as (pre & format & post & -> & Hpre & Hformat).
        exists (f :: pre), format, post.
        repeat split; [constructor; eauto | exact Hformat].
      * destruct IH as [Hall ->]. split; [constructor; eauto|].
        destruct fs as [|f' fs']; [cbn; rewrite Hf; reflexivity|].
        rewrite last_cons_cons.
        destruct (last (f' :: fs')) eqn:Hl; [reflexivity|].
        apply last_None in Hl. discriminate.
Qed.

(** X22: [UnmarshalXML] tries the formats in the order of the list and takes
    the first that parses the text: the receiver is then that instant,
    and no error is returned.  When no format parses the text, the
    receiver is left as it was and the error is the one of the last
    format tried, RFC3339Nano; when the element could not be decoded, the
    receiver is left as it was and the error is the decoder's. *)
Theorem UnmarshalXML_first_format (decoded : string + error) (l : lastModTime) :
  match decoded with
  | inr err => UnmarshalXML time_Parse decoded l = (l, Some err)
  | inl v =>
      (exists pre format post t,
         formats = pre ++ format :: post /\
         Forall (fun f => exists e, time_Parse f v = inr e) pre /\
         time_Parse format v = inl t /\
         UnmarshalXML time_Parse decoded l = ({| Time := t |}, None)) \/
      (exists e,
         Forall (fun f => exists e, time_Parse f v = inr e) formats /\
         time_Parse RFC3339Nano v = inr e /\
         UnmarshalXML time_Parse decoded l = (l, Some e))
  end.
Proof.
  destruct decoded as [v|err]; [|reflexivity].
  unfold UnmarshalXML.
  pose proof (try_formats_spec formats v None) as H.
  destruct (try_formats time_Parse formats v None) as [t|e].
  - left. destruct H as (pre & format & post & Hf & Hpre & Hformat).
    exists pre, format, post, t. auto.
  - right. destruct H as [Hall ->].
    change (last formats) with (Some RFC3339Nano).
    assert (Hlast : exists e, time_Parse RFC3339Nano v = inr e).
    { rewrite Forall_forall in Hall. apply Hall.
      unfold formats. repeat (try (left; fail); right). }
    destruct Hlast as [e He]. exists e. rewrite He. auto.
Qed.

End LastModProperties.

(** * The further properties on the example sites *)

Module FurtherSiteFacts.

Import Site Robots.

Lemma leaves_served :
  Forall (fun doc => serves site (cfg (self fresh)) doc.1 doc.2 /\
                     parse_result site (cfg (self fresh)) doc.2 = nil_slice) leaves.
Proof.
  repeat (apply List.Forall_cons; [split; [repeat split | reflexivity]|]).
  apply List.Forall_nil.
Qed.

Lemma parseRobotsTXT_lines_witness :
  forallb plain_line robots_lines = true /\
  exec (parseRobotsTXT site (Join (map render robots_lines) newline)) fresh
  = Some (tt,
          with_self (field_set f_robotsTxtSitemapURLs
                       (extend (robotsTxtSitemapURLs (self fresh))
                          (locations_of robots_lines))
                       (self fresh)) fresh).
Proof.
  split; [reflexivity|].
  apply (parseRobotsTXT_lines site robots_lines fresh). reflexivity.
Defined.

Lemma traversal_only_appends_witness :
  exists st',
    exec (parseAndFetchUrlsSequential site 2 (mk_slice [index_url])) fresh
      = Some (tt, st') /\
    traversal_frame fresh st'.
Proof.
  eexists. split; [vm_compute; reflexivity|].
  apply (traversal_only_appends site 2 (mk_slice [index_url])).
  left. vm_compute. reflexivity.
Defined.

Lemma Parse_only_appends_witness :
  exists st',
    exec (Parse site 2 index_url None) fresh = Some (None, st') /\
    only_appends fresh st'.
Proof.
  eexists. split; [vm_compute; reflexivity|].
  apply (Parse_only_appends site 2 index_url None fresh None).
  vm_compute. reflexivity.
Defined.

Lemma Parse_returned_error_witness :
  exists st',
    exec (Parse site 1 missing_url None) fresh
      = Some (Some (errorString "received HTTP status 404"), st') /\
    robotsTxtSitemapURLs (self st') = robotsTxtSitemapURLs (self fresh) /\
    sitemapLocations (self st') = sitemapLocations (self fresh) /\
    urls (self st') = urls (self fresh) /\
    0 < len (errs (self st')) /\
    (errorString "received HTTP status 404" = guardError /\
       0 < len (errs (self fresh)) /\ st' = fresh \/
     (None : option string) = None /\ len (errs (self fresh)) = 0 /\
     fetch_fails site (cfg (self fresh)) missing_url
       (errorString "received HTTP status 404") /\
     elems (errs (self st')) = [errorString "received HTTP status 404"]).
Proof.
  eexists. split; [vm_compute; reflexivity|].
  apply (Parse_returned_error site 1 missing_url None fresh
           (Some (errorString "received HTTP status 404"))).
  vm_compute. reflexivity.
Defined.

Lemma traversal_of_leaves_witness :
  Forall (fun doc => serves site (cfg (self fresh)) doc.1 doc.2 /\
                     parse_result site (cfg (self fresh)) doc.2 = nil_slice) leaves /\
  exec (parseAndFetchUrlsSequential site 1 (mk_slice (map fst leaves))) fresh
    = Some (tt, {| self := after_documents site leaves (self fresh);
                   requests := requests fresh ++ map fst leaves;
                   mu := mu fresh |}) /\
  exec (parseAndFetchUrlsMultiThread site 1 (mk_slice (map fst leaves))) fresh
    = Some (tt, {| self := after_documents site leaves (self fresh);
                   requests := requests fresh ++ map fst leaves;
                   mu := mu fresh |}).
Proof.
  split; [exact leaves_served|].
  apply (traversal_of_leaves site 0 leaves fresh). exact leaves_served.
Defined.

Lemma self_listing_index_never_returns_witness :
  serves Cycle.site (cfg (self (start (New Cycle.site))))
    Cycle.loop_url Cycle.loop_doc /\
  Cycle.loop_url
    ∈ children_passing Cycle.site (cfg (self (start (New Cycle.site)))) Cycle.loop_doc /\
  Cycle.loop_url ∈ elems (mk_slice [Cycle.loop_url]) /\
  exec (parseAndFetchUrlsSequential Cycle.site 7 (mk_slice [Cycle.loop_url]))
    (start (New Cycle.site)) = None /\
  exec (parseAndFetchUrlsMultiThread Cycle.site 7 (mk_slice [Cycle.loop_url]))
    (start (New Cycle.site)) = None.
Proof.
  assert (Hs : serves Cycle.site (cfg (self (start (New Cycle.site))))
                 Cycle.loop_url Cycle.loop_doc) by (repeat split).
  assert (Hin : Cycle.loop_url
                 ∈ children_passing Cycle.site (cfg (self (start (New Cycle.site))))
                     Cycle.loop_doc) by (vm_compute; left).
  assert (Hu : Cycle.loop_url ∈ elems (mk_slice [Cycle.loop_url])) by left.
  split; [exact Hs|]. split; [exact Hin|]. split; [exact Hu|].
  apply (self_listing_index_never_returns Cycle.site Cycle.loop_url Cycle.loop_doc 7
           (mk_slice [Cycle.loop_url]) (start (New Cycle.site)) Hs Hin Hu).
Defined.

Lemma Parse_index_of_leaves_witness :
  len (errs (self fresh)) = 0 /\
  HasSuffix index_url "/robots.txt" = false /\
  HasPrefix index_doc gzipPrefix = false /\
  serves site (cfg (self fresh)) index_url index_doc /\
  children_passing site (cfg (self fresh)) index_doc = map fst leaves /\
  exec (Parse site 1 index_url None) fresh
  = Some (None,
          {| self := after_documents site leaves
                       (after_parse site index_url index_doc
                          (field_set f_mainURLContent index_doc
                             (field_set f_mainURL index_url (self fresh))));
             requests := requests fresh ++ option_list (Some index_url) ++ map fst leaves;
             mu := mu fresh |}).
Proof.
  assert (Hs : serves site (cfg (self fresh)) index_url index_doc) by (repeat split).
  assert (Hch : children_passing site (cfg (self fresh)) index_doc = map fst leaves)
    by (vm_compute; reflexivity).
  split; [reflexivity|]. split; [reflexivity|]. split; [reflexivity|].
  split; [exact Hs|]. split; [exact Hch|].
  apply (Parse_index_of_leaves site 0 index_url index_doc None leaves fresh);
    [reflexivity | reflexivity | reflexivity | right; split; [reflexivity | exact Hs]
    | exact Hch | exact leaves_served].
Defined.

Lemma Parse_robots_of_leaves_witness :
  len (errs (self fresh)) = 0 /\
  mu fresh = false /\
  HasSuffix robots_url "/robots.txt" = true /\
  forallb plain_line robots_lines = true /\
  map fst leaves
    = elems (robotsTxtSitemapURLs (self fresh)) ++ locations_of robots_lines /\
  exec (Parse site 1 robots_url (Some (Join (map render robots_lines) newline))) fresh
  = Some (None,
          {| self := after_documents site leaves
                       (field_set f_robotsTxtSitemapURLs
                          (extend (robotsTxtSitemapURLs (self fresh))
                             (locations_of robots_lines))
                          (field_set f_mainURLContent
                             (Join (map render robots_lines) newline)
                             (field_set f_mainURL robots_url (self fresh))));
             requests := requests fresh ++ option_list None ++ map fst leaves;
             mu := false |}).
Proof.
  split; [reflexivity|]. split; [reflexivity|]. split; [reflexivity|].
  split; [reflexivity|]. split; [reflexivity|].
  apply (Parse_robots_of_leaves site 0 robots_url robots_lines
           (Some (Join (map render robots_lines) newline)) leaves fresh);
    [reflexivity | reflexivity | reflexivity | reflexivity | left; reflexivity
    | reflexivity | exact leaves_served].
Defined.

Lemma concurrent_can_match_sequential_witness :
  exists st',
    exec (parseAndFetchUrlsSequential site 2 (mk_slice [index_url])) fresh
      = Some (tt, st') /\
    exists schedule,
      returns_under schedule
        (parseAndFetchUrlsMultiThread site 2 (mk_slice [index_url])) fresh tt st'.
Proof.
  eexists. split; [vm_compute; reflexivity|].
  apply (concurrent_can_match_sequential site 2 (mk_slice [index_url]) fresh).
  vm_compute. reflexivity.
Defined.

Lemma sequential_Parse_single_goroutine_witness :
  multiThread (cfg (self fresh_sequential)) = false /\
  HasSuffix index_url "/robots.txt" = false /\
  sequential (Parse site 2 index_url None) fresh_sequential = true /\
  forall schedule r st',
    returns_under schedule (Parse site 2 index_url None) fresh_sequential r st' ->
    exec (Parse site 2 index_url None) fresh_sequential = Some (r, st').
Proof.
  split; [reflexivity|]. split; [reflexivity|].
  apply (sequential_Parse_single_goroutine site 2 index_url None fresh_sequential);
    reflexivity.
Defined.

Lemma GetRandomURLs_partition_witness :
  (0 <= 2)%Z /\
  (2 <= makeslice_maxcap site)%Z /\
  exists (randURLs : list URL) (s' : S site),
    GetRandomURLs (Some three) 2 (fun _ => 0) = (Returns (mk_slice randURLs), Some s') /\
    s' = field_set f_urls (urls s') three /\
    is_nil (urls s') = is_nil (urls three) /\
    len (urls s') = len (urls three) /\
    randURLs ++ take (len (urls three) - min (Z.to_nat 2) (len (urls three)))
                  (elems (urls s'))
      ≡ₚ elems (urls three).
Proof.
  split; [lia|]. split; [vm_compute; discriminate|].
  apply (GetRandomURLs_partition site three 2 (fun _ => 0));
    [lia | vm_compute; discriminate].
Defined.

Lemma archive_round_trips : gzip_round_trips Archive.site.
Proof.
  intros data compressed H. injection H as <-.
  split; [apply prefix_append|].
  split; [|reflexivity].
  cbn [gzip_NewReader Archive.site]. unfold Archive.NewReader.
  unfold HasPrefix. rewrite prefix_append. reflexivity.
Qed.

Lemma zip_read_back_witness :
  gzip_round_trips Archive.site /\
  unzip Archive.site (gzipPrefix +:+ a_doc) = (a_doc, None) /\
  exec (checkAndUnzipContent Archive.site (gzipPrefix +:+ a_doc))
    (start (New Archive.site))
  = Some (a_doc, start (New Archive.site)).
Proof.
  split; [exact archive_round_trips|].
  apply (zip_read_back Archive.site a_doc (start (New Archive.site))
           archive_round_trips).
Defined.

End FurtherSiteFacts.
